(** * Gelap privacy wallet SDK: a shallow embedding and its properties

    The development follows the TypeScript sources of the wallet SDK:

    - [KeyDerivation]   : keyDerivation.ts  (key pairs from wallet signatures)
    - [ContractService] : contractService.ts (event fetching, prover requests)
    - [PrivacyWallet]   : wallet.ts (notes, coin selection, transactions, sync)
    - [ErrorHandling]   : errorHandling.ts (messages for wallet errors)

    Conventions.  A JavaScript [bigint] is a [Z]; a [Uint8Array] is a list of
    [Z] whose entries lie in [0, 256); [Hex] and [Address] values are strings.
    A call that may throw returns a [Result].  The answers of the outside
    world (RPC node, prover service, wallet signer) during one operation are
    collected in a record that the operation receives as an argument, so that
    the theorems quantify over every behaviour of the collaborators.
    Writes to [localStorage] go to a collaborator and never change the
    in-memory wallet state; [saveStateToStorage] catches its own errors,
    [clearStorage] does not. *)

From Stdlib Require Import ZArith List String Ascii Bool Lia Permutation.
Import ListNotations.

Local Open Scope Z_scope.

(* ====================================================================== *)
(** * JavaScript values shared by the modules *)
(* ====================================================================== *)

Module Js.

(** What the modelled code can throw, one constructor per [throw] site of
    the sources, and [Collaborator] for an exception that comes out of an
    awaited call into the RPC client, the signer or a library. *)
Inductive Exception : Type :=
| InvalidByteSequence            (* viem: hexToBytes on a non-hex digit *)
| InvalidPrivateKeyZero          (* "Invalid private key derived (zero)" *)
| ContractServiceNotInitialized  (* "Contract service not initialized" *)
| DepositTransactionFailed       (* "Deposit transaction failed" *)
| WithdrawalTransactionFailed    (* "Withdrawal transaction failed" *)
| InsufficientBalance            (* "Insufficient balance" *)
| WalletKeysNotFound             (* "Wallet keys not found" *)
| ProofFailed (msg : string)     (* proofResponse.error || "Failed to ..." *)
| TransactionExecutionFailed     (* "Transaction execution failed" *)
| NullDereference                (* TypeError: property of null *)
| Collaborator (msg : string).

(** Outcome of a call that either returns or throws. *)
Inductive Result (A : Type) : Type :=
| Returned (a : A)
| Threw (e : Exception).
Arguments Returned {A} a.
Arguments Threw {A} e.

Definition bind {A B} (r : Result A) (k : A -> Result B) : Result B :=
  match r with
  | Returned a => k a
  | Threw e => Threw e
  end.

Definition isThrew {A} (r : Result A) : bool :=
  match r with Threw _ => true | Returned _ => false end.

(** What a collaborator answers to one request: a value, or a failure that
    the caller sees as a rejected promise. *)
Inductive Response (A : Type) : Type :=
| Ok (a : A)
| Failed (msg : string).
Arguments Ok {A} a.
Arguments Failed {A} msg.

(** [await] on a collaborator call. *)
Definition await {A} (r : Response A) : Result A :=
  match r with
  | Ok a => Returned a
  | Failed msg => Threw (Collaborator msg)
  end.

Definition Hex := string.
Definition Address := string.

(** [String.prototype.toLowerCase] on the ASCII range, which is all that a
    hex string or an address contains. *)
Definition lowerChar (c : ascii) : ascii :=
  let n := N_of_ascii c in
  if ((65 <=? n) && (n <=? 90))%N then ascii_of_N (n + 32) else c.

Fixpoint toLowerCase (s : string) : string :=
  match s with
  | EmptyString => EmptyString
  | String c r => String (lowerChar c) (toLowerCase r)
  end.

Definition upperChar (c : ascii) : ascii :=
  let n := N_of_ascii c in
  if ((97 <=? n) && (n <=? 122))%N then ascii_of_N (n - 32) else c.

Fixpoint toUpperCase (s : string) : string :=
  match s with
  | EmptyString => EmptyString
  | String c r => String (upperChar c) (toUpperCase r)
  end.

(** [a.toLowerCase() === b.toLowerCase()] *)
Definition eqIgnoreCase (a b : string) : bool :=
  String.eqb (toLowerCase a) (toLowerCase b).

(** [xs.reduce((sum, x) => sum + f(x), 0n)] *)
Definition sumBy {A} (f : A -> Z) (xs : list A) : Z :=
  fold_left (fun sum x => sum + f x) xs 0.

End Js.
Import Js.

(* ====================================================================== *)
(** * Byte arrays and hex strings (viem's [bytesToHex] and [hexToBytes]) *)
(* ====================================================================== *)

Module Bytes.

(** The entries of a [Uint8Array]. *)
Definition isByte (b : Z) : Prop := 0 <= b < 256.

Definition hexChar (d : Z) : ascii :=
  match String.get (Z.to_nat d) "0123456789abcdef" with
  | Some c => c
  | None => "0"%char
  end.

(** [charCodeToBase16]: digits, then [a-f], then [A-F]. *)
Definition hexValue (c : ascii) : option Z :=
  let n := Z.of_N (N_of_ascii c) in
  if (48 <=? n) && (n <=? 57) then Some (n - 48)
  else if (97 <=? n) && (n <=? 102) then Some (n - 87)
  else if (65 <=? n) && (n <=? 70) then Some (n - 55)
  else None.

Fixpoint hexOfBytes (bytes : list Z) : string :=
  match bytes with
  | [] => EmptyString
  | b :: r => String (hexChar (b / 16)) (String (hexChar (b mod 16)) (hexOfBytes r))
  end.

(** [bytesToHex]: ["0x"] and two lower-case digits per byte. *)
Definition bytesToHex (bytes : list Z) : Hex := String "0" (String "x" (hexOfBytes bytes)).

Fixpoint parsePairs (s : string) : option (list Z) :=
  match s with
  | EmptyString => Some []
  | String _ EmptyString => None
  | String c1 (String c2 r) =>
      match hexValue c1, hexValue c2, parsePairs r with
      | Some nibbleLeft, Some nibbleRight, Some bytes =>
          Some (nibbleLeft * 16 + nibbleRight :: bytes)
      | _, _, _ => None
      end
  end.

(** [hexToBytes]: [hex.slice(2)], a leading ["0"] when the number of digits
    is odd, then one byte per pair of digits; [None] stands for the
    exception thrown on a character that is no hex digit. *)
Definition hexToBytes (hex : Hex) : option (list Z) :=
  let hexString := String.substring 2 (String.length hex - 2) hex in
  parsePairs (if Nat.even (String.length hexString) then hexString
              else String "0" hexString).

(** [new TextEncoder().encode(s)] for an ASCII string. *)
Definition encodeText (s : string) : list Z :=
  map (fun c => Z.of_N (N_of_ascii c)) (list_ascii_of_string s).

End Bytes.

(* ====================================================================== *)
(** * keyDerivation.ts *)
(* ====================================================================== *)

Module KeyDerivation.
Import Bytes.

(** [WalletKeys] of types.ts; the key fields are [Uint8Array]s. *)
Record WalletKeys : Type := mkWalletKeys {
  address : Address;
  viewPrivateKey : list Z;
  viewPublicKey : list Z;
  spendPrivateKey : list Z;
  spendPublicKey : list Z
}.

Record KeyPair : Type := mkKeyPair {
  privateKey : list Z;
  publicKey : list Z
}.

(** The parameter [purpose: "view" | "spend"]. *)
Inductive Purpose : Type := view | spend.

Definition purposeLabel (p : Purpose) : string :=
  match p with view => "view" | spend => "spend" end.

(** The constant [n] of [deriveKeyPairFromSignature]. *)
Definition n : Z := 0xfffffffffffffffffffffffffffffffebaaedce6af48a03bbfd25e8cd0364141.

(** [bytesToBigInt]: [result = (result << 8n) | BigInt(bytes[i])]. *)
Definition bytesToBigInt (bytes : list Z) : Z :=
  fold_left (fun result b => Z.lor (Z.shiftl result 8) b) bytes 0.

(** [bigIntToBytes]: 32 rounds of [bytes[i] = Number(v & 0xffn); v >>= 8n],
    from index 31 down to index 0. *)
Fixpoint bigIntToBytesFrom (rounds : nat) (v : Z) (bytes : list Z) : list Z :=
  match rounds with
  | O => bytes
  | S k => bigIntToBytesFrom k (Z.shiftr v 8) (Z.land v 0xff :: bytes)
  end.

Definition bigIntToBytes (value : Z) : list Z := bigIntToBytesFrom 32 value [].

(** A JavaScript object literal with string values: its own properties in
    the order in which they were written. *)
Definition JsObject := list (string * string).

Definition ownKeys (o : JsObject) : list string := map fst o.

(** [key in o] *)
Definition hasKey (key : string) (o : JsObject) : bool :=
  existsb (String.eqb key) (ownKeys o).

Fixpoint getField (key : string) (o : JsObject) : option string :=
  match o with
  | [] => None
  | (k, v) :: r => if String.eqb key k then Some v else getField key r
  end.

(** [exportPublicKeys] *)
Definition exportPublicKeys (keys : WalletKeys) : JsObject :=
  [ ("address", address keys);
    ("viewPublicKey", bytesToHex (viewPublicKey keys));
    ("spendPublicKey", bytesToHex (spendPublicKey keys)) ]%string.

Section Derivation.

(** The primitives of the trusted libraries: the Keccak-256 permutation
    of @noble/hashes on byte arrays, and [secp256k1.getPublicKey], which
    returns the compressed encoding of [k * G] for a valid secret key and
    throws otherwise. *)
Variable keccak_256 : list Z -> list Z.
Variable getPublicKey : list Z -> Response (list Z).

(** viem's [keccak256(value)] on a hex string: the digest of the bytes
    that the string denotes, as a hex string. *)
Definition keccak256 (value : Hex) : Result Hex :=
  match hexToBytes value with
  | Some bytes => Returned (bytesToHex (keccak_256 bytes))
  | None => Threw InvalidByteSequence
  end.

Definition hexToBytesR (hex : Hex) : Result (list Z) :=
  match hexToBytes hex with
  | Some bytes => Returned bytes
  | None => Threw InvalidByteSequence
  end.

(** [deriveKeyPairFromSignature].  The operator [%] on bigints is the
    truncated remainder, [Z.rem]. *)
Definition deriveKeyPairFromSignature (signature : Hex) (purpose : Purpose)
  : Result KeyPair :=
  bind (hexToBytesR signature) (fun sigBytes =>
  let purposeBytes := encodeText (purposeLabel purpose) in
  let combined := sigBytes ++ purposeBytes in
  bind (keccak256 (bytesToHex combined)) (fun hash1 =>
  bind (keccak256 hash1) (fun hash2 =>
  bind (hexToBytesR hash2) (fun seedBytes =>
  let privateKeyScalar := Z.rem (bytesToBigInt seedBytes) n in
  if privateKeyScalar =? 0 then Threw InvalidPrivateKeyZero
  else
    let privateKey := bigIntToBytes privateKeyScalar in
    bind (await (getPublicKey privateKey)) (fun publicKey =>
    Returned (mkKeyPair privateKey publicKey)))))).

End Derivation.

End KeyDerivation.

(* ====================================================================== *)
(** * Records of types.ts and wallet.ts *)
(* ====================================================================== *)

Module Note.
(** [interface Note] of wallet.ts. *)
Record t : Type := mk {
  commitment : Hex;
  amount : Z;
  blinding : Hex;
  token : Address;
  leafIndex : Z;
  nullifier : Hex;
  spent : bool;
  blockNumber : Z
}.

(** [note.spent = true] *)
Definition markSpent (n : t) : t :=
  mk (commitment n) (amount n) (blinding n) (token n) (leafIndex n)
     (nullifier n) true (blockNumber n).
End Note.

(* ====================================================================== *)
(** * wallet.ts, part 1: balance queries and coin selection *)
(* ====================================================================== *)

Module Selection.

(** [getUnspentNotes] *)
Definition getUnspentNotes (notes : list Note.t) : list Note.t :=
  filter (fun n => negb (Note.spent n)) notes.

(** [getShieldedBalance] *)
Definition getShieldedBalance (notes : list Note.t) : Z :=
  sumBy Note.amount (filter (fun n => negb (Note.spent n)) notes).

(** [getNotesForToken] *)
Definition getNotesForToken (notes : list Note.t) (token : Address) : list Note.t :=
  filter (fun n => negb (Note.spent n) && eqIgnoreCase (Note.token n) token) notes.

(** The comparator [(a, b) => Number(b.amount - a.amount)]; [Number] keeps
    the sign of a bigint, and only the sign matters to [sort]. *)
Definition compareNotes (a b : Note.t) : Z := Z.sgn (Note.amount b - Note.amount a).

(** [Array.prototype.sort] is stable, and [compareNotes] is a consistent
    comparator, so the result is the one stable arrangement by decreasing
    amount.  It is computed here by insertion from the right: the new
    element goes in front of the first element it does not have to follow. *)
Fixpoint insertSorted (x : Note.t) (l : list Note.t) : list Note.t :=
  match l with
  | [] => [x]
  | y :: r => if compareNotes x y <=? 0 then x :: y :: r else y :: insertSorted x r
  end.

Definition sort (l : list Note.t) : list Note.t := fold_right insertSorted [] l.

(** The loop
    [for (const note of availableNotes) { if (total >= targetAmount) break;
       selected.push(note); total += note.amount; }] *)
Fixpoint accumulate (targetAmount : Z) (availableNotes selected : list Note.t) (total : Z)
  : list Note.t * Z :=
  match availableNotes with
  | [] => (selected, total)
  | note :: rest =>
      if total >=? targetAmount then (selected, total)
      else accumulate targetAmount rest (selected ++ [note]) (total + Note.amount note)
  end.

(** [selectNotesForAmount]: the pair is [{ notes: selected, total }]. *)
Definition selectNotesForAmount (notes : list Note.t) (token : Address) (targetAmount : Z)
  : list Note.t * Z :=
  let availableNotes := sort (getNotesForToken notes token) in
  accumulate targetAmount availableNotes [] 0.

(** The wallet's unspent balance for one token: the sum over
    [getNotesForToken]. *)
Definition unspentBalance (notes : list Note.t) (token : Address) : Z :=
  sumBy Note.amount (getNotesForToken notes token).

(** Sum of the amounts of a list of notes, as a structural recursion. *)
Fixpoint totalAmount (l : list Note.t) : Z :=
  match l with
  | [] => 0
  | n :: r => Note.amount n + totalAmount r
  end.

Inductive Descending : list Note.t -> Prop :=
| Descending_nil : Descending []
| Descending_one : forall x, Descending [x]
| Descending_cons : forall x y r,
    Note.amount y <= Note.amount x -> Descending (y :: r) -> Descending (x :: y :: r).

End Selection.

(* ====================================================================== *)
(** * contractService.ts *)
(* ====================================================================== *)

Module ContractService.

(** The fields of a [ContractService] object other than its two clients,
    whose answers are in [World] below. *)
Record t : Type := mk {
  chainId : Z;
  contractAddress : Address
}.

(** [AccountUpdatedEvent] *)
Record AccountUpdatedEvent : Type := mkEvent {
  commitment : Hex;
  encryptedMemo : Hex;
  blockNumber : Z;
  transactionHash : Hex
}.

(** A log of the [AccountUpdated] event as [publicClient.getLogs] returns it. *)
Record Log : Type := mkLog {
  args_commitment : Hex;
  args_encryptedMemo : Hex;
  log_blockNumber : Z;
  log_transactionHash : Hex
}.

(** The parameter [toBlock: bigint | 'latest']. *)
Inductive ToBlock : Type := latest | atBlock (b : Z).

Record DepositParams : Type := mkDepositParams {
  dp_token : Address;
  dp_amount : Z;
  dp_commitment : Hex
}.

Record TransactParams : Type := mkTransactParams {
  tp_publicInputs : Hex;
  tp_proofBytes : Hex
}.

Record InputNote : Type := mkInputNote {
  in_commitment : Hex;
  in_amount : Z;
  in_blinding : Hex;
  in_leafIndex : Z;
  in_pathElements : list Hex;
  in_pathIndices : list Z
}.

Record OutputNote : Type := mkOutputNote {
  out_amount : Z;
  out_recipientPublicKey : Hex
}.

(** [TransactionProofRequest] *)
Record TransactionProofRequest : Type := mkProofRequest {
  inputNotes : list InputNote;
  outputNotes : list OutputNote;
  currentRoot : Hex
}.

(** [ProofResponse]; [error] is optional. *)
Record ProofResponse : Type := mkProofResponse {
  publicInputs : Hex;
  proofBytes : Hex;
  success : bool;
  error : option string
}.

(** Receipt of [publicClient.waitForTransactionReceipt]. *)
Record Receipt : Type := mkReceipt {
  status : string;
  receipt_blockNumber : Z
}.

(** What the prover service does with a request that is sent to it: an
    exception ([fetch] or [response.json()] threw), a response that is not
    [ok], or a decoded body. *)
Inductive FetchOutcome : Type :=
| fetchThrew
| httpNotOk (status : string)
| httpOk (body : ProofResponse).

(** The answers of the outside world during one wallet operation.
    [readNullifierUsed i h] answers the query made for the note at position
    [i] of the note list, whose nullifier is [h]. *)
Record World : Type := mkWorld {
  getBlockNumber : Response Z;
  getLogs : Z -> ToBlock -> Response (list Log);
  readNullifierUsed : nat -> Hex -> Response bool;
  waitForTransactionReceipt : Hex -> Response Receipt;
  fetchProver : TransactionProofRequest -> FetchOutcome;
  sendDeposit : DepositParams -> Response Hex;
  sendTransact : TransactParams -> Response Hex;
  sendTestWithdraw : Address -> Z -> Address -> Response Hex
}.

Definition MAX_BLOCK_RANGE : Z := 10000.

(** The variable [actualFromBlock] of [getAccountUpdatedEvents]. *)
Definition actualFromBlock (currentBlock fromBlock : Z) (toBlock : ToBlock) : Z :=
  match toBlock with
  | latest =>
      let rangeStart :=
        if currentBlock >? MAX_BLOCK_RANGE then currentBlock - MAX_BLOCK_RANGE else 0 in
      if fromBlock >? rangeStart then fromBlock else rangeStart
  | atBlock _ => fromBlock
  end.

Definition eventOfLog (log : Log) : AccountUpdatedEvent :=
  mkEvent (args_commitment log) (args_encryptedMemo log)
          (log_blockNumber log) (log_transactionHash log).

(** [getAccountUpdatedEvents] *)
Definition getAccountUpdatedEvents (world : World) (fromBlock : Z) (toBlock : ToBlock)
  : Result (list AccountUpdatedEvent) :=
  bind (await (getBlockNumber world)) (fun currentBlock =>
  let actual := actualFromBlock currentBlock fromBlock toBlock in
  bind (await (getLogs world actual toBlock)) (fun logs =>
  Returned (map eventOfLog logs))).

(** [isNullifierUsed] *)
Definition isNullifierUsed (world : World) (position : nat) (nullifier : Hex)
  : Result bool :=
  await (readNullifierUsed world position nullifier).

Fixpoint repeatString (s : string) (count : nat) : string :=
  match count with
  | O => EmptyString
  | S k => (s ++ repeatString s k)%string
  end.

(** [generateMockProof] *)
Definition generateMockProof : ProofResponse :=
  mkProofResponse ("0x" ++ repeatString "00" 128)%string
                  ("0x" ++ repeatString "00" 256)%string
                  true
                  (Some "MOCK_PROOF - Will not verify on-chain"%string).

(** [JSON.stringify(request)], as far as it returns: it throws a
    [TypeError] on a [bigint], and every note of a request holds one, its
    [amount].  Only a request without notes has a JSON text. *)
Definition stringifies (request : TransactionProofRequest) : bool :=
  match inputNotes request, outputNotes request with
  | [], [] => true
  | _, _ => false
  end.

(** [requestTransactionProof]: it never throws.  The body of the request
    is computed inside the [try], before [fetch] is called: when
    [JSON.stringify] throws, nothing is sent and the [catch] returns the
    mock proof. *)
Definition requestTransactionProof (world : World) (request : TransactionProofRequest)
  : ProofResponse :=
  if stringifies request then
    match fetchProver world request with
    | httpNotOk st =>
        mkProofResponse "0x"%string "0x"%string false
                        (Some ("Prover API error: " ++ st)%string)
    | httpOk body => body
    | fetchThrew => generateMockProof
    end
  else generateMockProof.

(** [waitForTransaction]: [{ success: receipt.status === 'success', blockNumber }] *)
Definition waitForTransaction (world : World) (hash : Hex) : Result (bool * Z) :=
  bind (await (waitForTransactionReceipt world hash)) (fun receipt =>
  Returned (String.eqb (status receipt) "success", receipt_blockNumber receipt)).

(** A node that holds the logs [chain] and answers [getLogs] with those in
    the requested range, in the order of the chain. *)
Definition inRange (fromBlock : Z) (toBlock : ToBlock) (log : Log) : bool :=
  (fromBlock <=? log_blockNumber log) &&
  match toBlock with
  | latest => true
  | atBlock b => log_blockNumber log <=? b
  end.

Definition nodeGetLogs (chain : list Log) (fromBlock : Z) (toBlock : ToBlock)
  : Response (list Log) :=
  Ok (filter (inRange fromBlock toBlock) chain).

(** The contract of [getLogs]: no log below the requested [fromBlock]. *)
Definition honoursFromBlock (world : World) : Prop :=
  forall fromBlock toBlock logs,
    getLogs world fromBlock toBlock = Ok logs ->
    Forall (fun log => fromBlock <= log_blockNumber log) logs.

(** A register of used nullifiers, and nodes that answer from it: one that
    may fail to answer but never answers wrongly, and one that answers
    every query. *)
Definition answersFrom (used : Hex -> bool) (world : World) : Prop :=
  forall position nullifier b,
    readNullifierUsed world position nullifier = Ok b -> b = used nullifier.

Definition alwaysAnswersFrom (used : Hex -> bool) (world : World) : Prop :=
  forall position nullifier,
    readNullifierUsed world position nullifier = Ok (used nullifier).

(** Two worlds that give the same answers to the requests made by
    [getAccountUpdatedEvents]. *)
Definition sameEvents (world1 world2 : World) : Prop :=
  getBlockNumber world1 = getBlockNumber world2 /\
  forall fromBlock toBlock, getLogs world1 fromBlock toBlock = getLogs world2 fromBlock toBlock.

End ContractService.

(* ====================================================================== *)
(** * merkleTree.ts (its interface) and the remaining records of types.ts *)
(* ====================================================================== *)

Module MerkleTree.

Record Proof : Type := mkProof {
  leaf : Hex;
  pathElements : list Hex;
  pathIndices : list Z
}.

(** merkleTree.ts is not part of the sources at hand.  The wallet uses the
    members below; the development is generic in their implementation.
    [insertLeaf] gives the tree after the insertion, and [generateProof]
    may throw. *)
Class Ops (T : Type) : Type := mkOps {
  empty : T;
  root : T -> Hex;
  nextLeafIndex : T -> Z;
  insertLeaf : T -> Hex -> T;
  findLeafIndex : T -> Hex -> Z;
  generateProof : T -> Z -> Response Proof;
  computeNullifier : Hex -> Z -> Hex -> Hex
}.

(** Modelled from the spec: merkleTree.ts is missing, and this instance
    keeps what the spec says of the accumulator's leaves: an ordered,
    append-only sequence, [insertLeaf] places the leaf at [nextLeafIndex],
    [findLeafIndex] looks a commitment up by value.  The members that
    depend on the hash function are supplied by the caller. *)
Fixpoint indexOf (c : Hex) (leaves : list Hex) (i : Z) : Z :=
  match leaves with
  | [] => -1
  | l :: r => if String.eqb l c then i else indexOf c r (i + 1)
  end.

Definition listOps (rootOf : list Hex -> Hex)
                   (proofOf : list Hex -> Z -> Response Proof)
                   (nullifierOf : Hex -> Z -> Hex -> Hex) : Ops (list Hex) :=
  mkOps (list Hex) [] rootOf
        (fun leaves => Z.of_nat (List.length leaves))
        (fun leaves c => leaves ++ [c])
        (fun leaves c => indexOf c leaves 0)
        proofOf nullifierOf.

End MerkleTree.

Module Types.
(** [Commitment] of types.ts *)
Record Commitment : Type := mkCommitment {
  commitment : Hex;
  amount : Z;
  blinding : Hex
}.

(** [StealthAddress] of types.ts (the field is spelled [ephmeralPublicKey]
    there). *)
Record StealthAddress : Type := mkStealthAddress {
  address : Address;
  ephmeralPublicKey : Hex;
  viewTag : Z
}.

(** An entry of the [outputs] argument of [executeTransaction]. *)
Record Output : Type := mkOutput {
  out_amount : Z;
  recipient : StealthAddress
}.
End Types.

(* ====================================================================== *)
(** * wallet.ts, part 2: the wallet state and its operations *)
(* ====================================================================== *)

Module Ledger.

(** One round of the loop of [markNotesSpent]:
    [const note = notes.find(n => n.nullifier.toLowerCase() ===
     nullifier.toLowerCase()); if (note) note.spent = true]. *)
Fixpoint markFirst (nullifier : Hex) (notes : list Note.t) : list Note.t :=
  match notes with
  | [] => []
  | n :: r =>
      if eqIgnoreCase (Note.nullifier n) nullifier then Note.markSpent n :: r
      else n :: markFirst nullifier r
  end.

(** Position of the note that [find] returns for [nullifier], if any. *)
Fixpoint findIndex (nullifier : Hex) (notes : list Note.t) : option nat :=
  match notes with
  | [] => None
  | n :: r =>
      if eqIgnoreCase (Note.nullifier n) nullifier then Some O
      else option_map S (findIndex nullifier r)
  end.

(** The loop of [markNotesSpent] over [nullifiers]. *)
Definition markAll (nullifiers : list Hex) (notes : list Note.t) : list Note.t :=
  fold_left (fun acc nullifier => markFirst nullifier acc) nullifiers notes.

(** The second loop of [syncWithChain]:
    [for (const note of notes) { if (note.spent) continue;
       const isUsed = await isNullifierUsed(note.nullifier);
       if (isUsed) note.spent = true; }].
    The result is the note list when the loop ends or is left by an
    exception, together with that outcome. *)
Fixpoint checkSpentNotes (world : ContractService.World) (position : nat)
         (notes : list Note.t) : list Note.t * Result unit :=
  match notes with
  | [] => ([], Returned tt)
  | note :: rest =>
      if Note.spent note then
        let (rest', r) := checkSpentNotes world (S position) rest in
        (note :: rest', r)
      else
        match ContractService.isNullifierUsed world position (Note.nullifier note) with
        | Threw e => (note :: rest, Threw e)
        | Returned isUsed =>
            let note' := if isUsed then Note.markSpent note else note in
            let (rest', r) := checkSpentNotes world (S position) rest in
            (note' :: rest', r)
        end
  end.

(** The note list after a pass of that loop in which every query was
    answered from the register [used]. *)
Definition reconcile (used : Hex -> bool) (notes : list Note.t) : list Note.t :=
  map (fun note =>
         if Note.spent note then note
         else if used (Note.nullifier note) then Note.markSpent note else note)
      notes.

(** How a note list may change: every note stays at its position and is
    either untouched or goes from unspent to spent; notes are added at the
    end only. *)
Definition NoteStep (n n' : Note.t) : Prop :=
  n' = n \/ (Note.spent n = false /\ n' = Note.markSpent n).

Inductive Evolves : list Note.t -> list Note.t -> Prop :=
| Evolves_added : forall added, Evolves [] added
| Evolves_cons : forall n n' old new,
    NoteStep n n' -> Evolves old new -> Evolves (n :: old) (n' :: new).

End Ledger.

Module PrivacyWallet.
Import Selection Ledger.

(** The collaborators of one wallet operation: the chain and prover behind
    the contract service, and [StealthAddressGenerator.generateStealthAddress],
    which samples a fresh ephemeral key. *)
Record Env : Type := mkEnv {
  world : ContractService.World;
  generateStealthAddress : Hex -> Hex -> Response Types.StealthAddress
}.

(** [proofResponse.error || "Failed to generate transaction proof"] *)
Definition proofErrorMessage (error : option string) : string :=
  match error with
  | Some msg => if String.eqb msg "" then "Failed to generate transaction proof" else msg
  | None => "Failed to generate transaction proof"
  end.

(** [STORAGE_KEYS] *)
Definition WALLET_KEYS : string := "gelap_wallet_keys".
Definition NOTES : string := "gelap_notes".
Definition MERKLE_TREE : string := "gelap_merkle_tree".
Definition LAST_SYNCED_BLOCK : string := "gelap_last_synced_block".

(** [o.key] on an object literal. *)
Definition prop (key : string) (o : KeyDerivation.JsObject) : string :=
  match KeyDerivation.getField key o with
  | Some v => v
  | None => "undefined"
  end.

Fixpoint mapResult {A B} (f : A -> Result B) (l : list A) : Result (list B) :=
  match l with
  | [] => Returned []
  | a :: r => bind (f a) (fun b => bind (mapResult f r) (fun bs => Returned (b :: bs)))
  end.

Section Wallet.
Context {T : Type} {tree : MerkleTree.Ops T}.

(** [PrivacyWalletState] *)
Record PrivacyWalletState : Type := mkState {
  keys : option KeyDerivation.WalletKeys;
  notes : list Note.t;
  merkleTree : T;
  lastSyncedBlock : Z;
  isInitialized : bool
}.

(** The two private fields of the class [PrivacyWallet]. *)
Record t : Type := mkWallet {
  state : PrivacyWalletState;
  contractService : option ContractService.t
}.

(** [new PrivacyWallet()] *)
Definition create : t :=
  mkWallet (mkState None [] MerkleTree.empty 0 false) None.

Definition setNotes (ns : list Note.t) (w : t) : t :=
  mkWallet (mkState (keys (state w)) ns (merkleTree (state w))
                    (lastSyncedBlock (state w)) (isInitialized (state w)))
           (contractService w).

Definition setMerkleTree (tr : T) (w : t) : t :=
  mkWallet (mkState (keys (state w)) (notes (state w)) tr
                    (lastSyncedBlock (state w)) (isInitialized (state w)))
           (contractService w).

Definition setLastSyncedBlock (b : Z) (w : t) : t :=
  mkWallet (mkState (keys (state w)) (notes (state w)) (merkleTree (state w))
                    b (isInitialized (state w)))
           (contractService w).

(** A method body: it runs on the wallet, may change it, and returns or
    throws. *)
Definition M (A : Type) : Type := t -> t * Result A.

Definition ret {A} (a : A) : M A := fun w => (w, Returned a).
Definition throw {A} (e : Exception) : M A := fun w => (w, Threw e).
Definition lift {A} (r : Result A) : M A := fun w => (w, r).
Definition gets {A} (f : t -> A) : M A := fun w => (w, Returned (f w)).
Definition modify (f : t -> t) : M unit := fun w => (f w, Returned tt).

Definition mbind {A B} (m : M A) (k : A -> M B) : M B :=
  fun w =>
    match m w with
    | (w', Returned a) => k a w'
    | (w', Threw e) => (w', Threw e)
    end.

(** [try { m } catch (error) { console.error(...) }] *)
Definition tryCatch (m : M unit) : M unit :=
  fun w =>
    match m w with
    | (w', Returned a) => (w', Returned a)
    | (w', Threw _) => (w', Returned tt)
    end.

Notation "x <- m ;; k" := (mbind m (fun x => k))
  (at level 61, m at next level, right associativity).
Notation "m ;;; k" := (mbind m (fun _ => k))
  (at level 61, right associativity).

(** [saveStateToStorage] reads the state, writes to [localStorage] and
    catches whatever that throws: the wallet is as before. *)
Definition saveStateToStorage : M unit := ret tt.

(** [if (!this.contractService) throw ...] *)
Definition requireContractService : M ContractService.t :=
  fun w =>
    match contractService w with
    | Some cs => (w, Returned cs)
    | None => (w, Threw ContractServiceNotInitialized)
    end.

(** [getPublicKeys] *)
Definition getPublicKeys (w : t) : option KeyDerivation.JsObject :=
  match keys (state w) with
  | Some k => Some (KeyDerivation.exportPublicKeys k)
  | None => None
  end.

(** [markNotesSpent] *)
Definition markNotesSpent (nullifiers : list Hex) : M unit :=
  modify (fun w => setNotes (markAll nullifiers (notes (state w))) w) ;;;
  saveStateToStorage.

(** [executeDeposit] *)
Definition executeDeposit (env : Env) (token : Address) (amount : Z)
           (commitment : Types.Commitment) : M (Hex * Note.t) :=
  _ <- requireContractService ;;
  txHash <- lift (await (ContractService.sendDeposit (world env)
              (ContractService.mkDepositParams token amount
                 (Types.commitment commitment)))) ;;
  result <- lift (ContractService.waitForTransaction (world env) txHash) ;;
  if negb (fst result) then throw DepositTransactionFailed
  else
    leafIndex <- gets (fun w => MerkleTree.nextLeafIndex (merkleTree (state w))) ;;
    modify (fun w => setMerkleTree
              (MerkleTree.insertLeaf (merkleTree (state w))
                 (Types.commitment commitment)) w) ;;;
    ks <- gets (fun w => keys (state w)) ;;
    match ks with
    | None => throw NullDereference
    | Some k =>
        let nullifier :=
          MerkleTree.computeNullifier
            (Bytes.bytesToHex (KeyDerivation.spendPrivateKey k))
            leafIndex (Types.commitment commitment) in
        let note :=
          Note.mk (Types.commitment commitment) (Types.amount commitment)
                  (Types.blinding commitment) token leafIndex nullifier
                  false (snd result) in
        modify (fun w => setNotes (notes (state w) ++ [note]) w) ;;;
        saveStateToStorage ;;;
        ret (txHash, note)
    end.

(** [executeWithdraw] *)
Definition executeWithdraw (env : Env) (token : Address) (amount : Z)
           (receiver : Address) (spending : list Note.t) : M Hex :=
  _ <- requireContractService ;;
  let nullifiers := map Note.nullifier spending in
  txHash <- lift (await (ContractService.sendTestWithdraw (world env)
                           token amount receiver)) ;;
  result <- lift (ContractService.waitForTransaction (world env) txHash) ;;
  if negb (fst result) then throw WithdrawalTransactionFailed
  else
    markNotesSpent nullifiers ;;;
    ret txHash.

(** One entry of [inputNotes]: the Merkle proof is generated once for
    [pathElements] and once for [pathIndices]. *)
Definition proverInput (tr : T) (n : Note.t) : Result ContractService.InputNote :=
  bind (await (MerkleTree.generateProof tr (Note.leafIndex n))) (fun p1 =>
  bind (await (MerkleTree.generateProof tr (Note.leafIndex n))) (fun p2 =>
  Returned (ContractService.mkInputNote
              (Note.commitment n) (Note.amount n) (Note.blinding n)
              (Note.leafIndex n)
              (MerkleTree.pathElements p1) (MerkleTree.pathIndices p2)))).

(** The change output of [executeTransaction], when [change > 0n]. *)
Definition withChange (env : Env) (change : Z) (outputs : list Types.Output)
  : M (list Types.Output) :=
  if change >? 0 then
    myPublicKeys <- gets getPublicKeys ;;
    match myPublicKeys with
    | None => throw WalletKeysNotFound
    | Some pk =>
        changeAddress <- lift (await (generateStealthAddress env
                                        (prop "viewPublicKey" pk)
                                        (prop "spendPublicKey" pk))) ;;
        ret (outputs ++ [Types.mkOutput change changeAddress])
    end
  else ret outputs.

(** [executeTransaction] *)
Definition executeTransaction (env : Env) (token : Address)
           (outputs : list Types.Output) : M Hex :=
  _ <- requireContractService ;;
  let totalOutput := sumBy Types.out_amount outputs in
  selection <- gets (fun w => selectNotesForAmount (notes (state w)) token totalOutput) ;;
  let inputNotesArray := fst selection in
  let totalInput := snd selection in
  if totalInput <? totalOutput then throw InsufficientBalance
  else
    let change := totalInput - totalOutput in
    finalOutputs <- withChange env change outputs ;;
    tr <- gets (fun w => merkleTree (state w)) ;;
    inputNotes <- lift (mapResult (proverInput tr) inputNotesArray) ;;
    let outputNotes :=
      map (fun out => ContractService.mkOutputNote (Types.out_amount out)
                        (Types.ephmeralPublicKey (Types.recipient out)))
          finalOutputs in
    let proofResponse :=
      ContractService.requestTransactionProof (world env)
        (ContractService.mkProofRequest inputNotes outputNotes (MerkleTree.root tr)) in
    if negb (ContractService.success proofResponse) then
      throw (ProofFailed (proofErrorMessage (ContractService.error proofResponse)))
    else
      txHash <- lift (await (ContractService.sendTransact (world env)
                  (ContractService.mkTransactParams
                     (ContractService.publicInputs proofResponse)
                     (ContractService.proofBytes proofResponse)))) ;;
      result <- lift (ContractService.waitForTransaction (world env) txHash) ;;
      if negb (fst result) then throw TransactionExecutionFailed
      else
        let nullifiers := map Note.nullifier inputNotesArray in
        markNotesSpent nullifiers ;;;
        ret txHash.

(** The first loop of [syncWithChain]: an event whose commitment is not
    yet a leaf is inserted. *)
Definition insertNewLeaves (events : list ContractService.AccountUpdatedEvent)
           (tr : T) : T :=
  fold_left
    (fun acc event =>
       if MerkleTree.findLeafIndex acc (ContractService.commitment event) =? -1
       then MerkleTree.insertLeaf acc (ContractService.commitment event)
       else acc)
    events tr.

(** [events[events.length - 1].blockNumber + 1n] *)
Definition nextBlockAfter (events : list ContractService.AccountUpdatedEvent)
           (current : Z) : Z :=
  match rev events with
  | [] => current
  | lastEvent :: _ => ContractService.blockNumber lastEvent + 1
  end.

(** The body of the [try] block of [syncWithChain]. *)
Definition syncBody (env : Env) : M unit :=
  skip <- gets (fun w => (Nat.eqb (List.length (notes (state w))) 0)
                         && (lastSyncedBlock (state w) =? 0)) ;;
  if (skip : bool) then ret tt
  else
    from <- gets (fun w => lastSyncedBlock (state w)) ;;
    events <- lift (ContractService.getAccountUpdatedEvents (world env) from
                      ContractService.latest) ;;
    modify (fun w => setMerkleTree (insertNewLeaves events (merkleTree (state w))) w) ;;;
    (if (0 <? Z.of_nat (List.length events))
     then modify (fun w => setLastSyncedBlock
                             (nextBlockAfter events (lastSyncedBlock (state w))) w)
     else ret tt) ;;;
    (fun w =>
       let (ns, r) := checkSpentNotes (world env) 0 (notes (state w)) in
       (setNotes ns w, r)) ;;;
    saveStateToStorage.

(** [syncWithChain] *)
Definition syncWithChain (env : Env) : M unit :=
  fun w =>
    match contractService w with
    | None => (w, Returned tt)
    | Some _ => tryCatch (syncBody env) w
    end.

(** [clearStorage].  [localStorage] is [None] where
    [typeof window === "undefined"]: the method returns at once.  In a
    browser it is what [removeItem] answers for a key; the four calls are
    not guarded, and an exception of one of them leaves the method before
    the state is replaced.  The new state is that of a new wallet; the
    contract service stays. *)
Definition clearStorage (localStorage : option (string -> Response unit)) : M unit :=
  match localStorage with
  | None => ret tt
  | Some removeItem =>
      lift (await (removeItem WALLET_KEYS)) ;;;
      lift (await (removeItem NOTES)) ;;;
      lift (await (removeItem MERKLE_TREE)) ;;;
      lift (await (removeItem LAST_SYNCED_BLOCK)) ;;;
      modify (fun w => mkWallet (mkState None [] MerkleTree.empty 0 false)
                                (contractService w))
  end.

(** ** Names for parts of the operations, used to state their properties *)

(** The selection that [executeTransaction] makes. *)
Definition selectionFor (token : Address) (outputs : list Types.Output) (w : t)
  : list Note.t * Z :=
  selectNotesForAmount (notes (state w)) token (sumBy Types.out_amount outputs).

(** The test that lets [syncWithChain] return before any request. *)
Definition nothingToSync (w : t) : bool :=
  Nat.eqb (List.length (notes (state w))) 0 && (lastSyncedBlock (state w) =? 0).

(** The wallet once the events [events] have been applied: new leaves
    inserted, watermark moved. *)
Definition applyEvents (events : list ContractService.AccountUpdatedEvent) (w : t)
  : t :=
  let w1 := setMerkleTree (insertNewLeaves events (merkleTree (state w))) w in
  if 0 <? Z.of_nat (List.length events)
  then setLastSyncedBlock (nextBlockAfter events (lastSyncedBlock (state w1))) w1
  else w1.

(** A sync attempt that meets no error. *)
Definition syncCompletes (env : Env) (w : t) : Prop :=
  snd (syncBody env w) = Returned tt.

(** The mutating operations of a wallet, with their arguments. *)
Inductive Operation : Type :=
| Deposit (token : Address) (amount : Z) (commitment : Types.Commitment)
| Withdraw (token : Address) (amount : Z) (receiver : Address)
           (spending : list Note.t)
| Transfer (token : Address) (outputs : list Types.Output)
| MarkNotesSpent (nullifiers : list Hex)
| Sync.

(** The wallet after one operation in an environment, whether the
    operation returned or threw. *)
Definition run (env : Env) (op : Operation) (w : t) : t :=
  match op with
  | Deposit token amount commitment =>
      fst (executeDeposit env token amount commitment w)
  | Withdraw token amount receiver spending =>
      fst (executeWithdraw env token amount receiver spending w)
  | Transfer token outputs => fst (executeTransaction env token outputs w)
  | MarkNotesSpent nullifiers => fst (markNotesSpent nullifiers w)
  | Sync => fst (syncWithChain env w)
  end.

(** A history: each operation with the environment it ran in. *)
Definition runAll (history : list (Env * Operation)) (w : t) : t :=
  fold_left (fun acc step => run (fst step) (snd step) acc) history w.

End Wallet.

Arguments PrivacyWalletState T : clear implicits.
Arguments t T : clear implicits.
Arguments M T A : clear implicits.

End PrivacyWallet.

(* ====================================================================== *)
(** * Concrete wallets and collaborators, for running the model *)
(* ====================================================================== *)

Module Demo.
Import PrivacyWallet.
Local Open Scope string_scope.

(** A tree over a list of leaves whose root and proofs are constants: the
    properties below never look inside them. *)
#[export] Instance tree : MerkleTree.Ops (list Hex) :=
  MerkleTree.listOps (fun _ => "0x00")
                     (fun _ _ => Ok (MerkleTree.mkProof "0x00" [] []))
                     (fun _ _ commitment => commitment).

Definition usdt : Address := "0x0A7853C1074722A766a27d4090986bF8A74DA39f".

Definition note (amount : Z) (nullifier : Hex) (spent : bool) : Note.t :=
  Note.mk "0xc0" amount "0xb0" usdt 0 nullifier spent 1.

Definition service : ContractService.t :=
  ContractService.mk 5003 "0x0D5Ff322a648a6Ff62C5deA028ea222dFefc5225".

(** The keys of the test [export public keys only] of keyDerivation.test.ts. *)
Definition testKeys : KeyDerivation.WalletKeys :=
  KeyDerivation.mkWalletKeys "0x742d35Cc6634C0532925a3b844Bc9e7595f0bEb7"
    (repeat 1%Z 32) (repeat 2%Z 33) (repeat 3%Z 32) (repeat 4%Z 33).

(** A wallet with those keys and the given notes and watermark. *)
Definition wallet (ns : list Note.t) (lastSynced : Z)
           (cs : option ContractService.t) : t (list Hex) :=
  mkWallet (mkState (Some testKeys) ns [] lastSynced true) cs.

(** A node at block [current] holding [chain], a register of used
    nullifiers, a prover service that answers every request with [prover],
    and transactions that are mined with success. *)
Definition nodeWith (current : Z) (chain : list ContractService.Log)
           (answers : nat -> Hex -> Response bool)
           (prover : ContractService.FetchOutcome)
  : ContractService.World :=
  ContractService.mkWorld
    (Ok current)
    (ContractService.nodeGetLogs chain)
    answers
    (fun _ => Ok (ContractService.mkReceipt "success" current))
    (fun _ => prover)
    (fun _ => Ok "0xd1")
    (fun _ => Ok "0xd2")
    (fun _ _ _ => Ok "0xd3").

Definition node (current : Z) (chain : list ContractService.Log)
           (used : Hex -> bool) (prover : ContractService.FetchOutcome)
  : ContractService.World :=
  nodeWith current chain (fun _ nullifier => Ok (used nullifier)) prover.

(** The same node, except that the query for the note at position
    [failing] gets no answer. *)
Definition flakyNode (failing : nat) (current : Z) (chain : list ContractService.Log)
           (used : Hex -> bool) (prover : ContractService.FetchOutcome)
  : ContractService.World :=
  nodeWith current chain
           (fun position nullifier =>
              if Nat.eqb position failing then Failed "timeout"
              else Ok (used nullifier))
           prover.

(** A node that ignores [fromBlock] and returns the whole of [chain]. *)
Definition looseNode (current : Z) (chain : list ContractService.Log)
  : ContractService.World :=
  ContractService.mkWorld
    (Ok current)
    (fun _ _ => Ok chain)
    (fun _ _ => Ok false)
    (fun _ => Failed "offline")
    (fun _ => ContractService.fetchThrew)
    (fun _ => Failed "offline")
    (fun _ => Failed "offline")
    (fun _ _ _ => Failed "offline").

Definition isOneOf (hs : list Hex) (h : Hex) : bool := existsb (String.eqb h) hs.

(** The [localStorage] of a browser that accepts every removal. *)
Definition browserStorage : option (string -> Response unit) := Some (fun _ => Ok tt).

(** Stand-ins for the library primitives of key derivation, to run it: a
    function from byte arrays to byte arrays in place of Keccak-256, and the
    identity in place of the curve. *)
Definition toyHash (message : list Z) : list Z :=
  [Z.of_nat (List.length message) mod 256; 7]%Z.

Definition toyPublicKey (secretKey : list Z) : Response (list Z) := Ok secretKey.

Definition env (world : ContractService.World) : Env :=
  mkEnv world (fun _ _ => Ok (Types.mkStealthAddress "0xa0" "0xe0" 7)).

Definition pay (amount : Z) : Types.Output :=
  Types.mkOutput amount (Types.mkStealthAddress "0xa1" "0xe1" 9).

Definition log (commitment : Hex) (blockNumber : Z) : ContractService.Log :=
  ContractService.mkLog commitment "0x" blockNumber "0xf0".

End Demo.

(* ====================================================================== *)
(** * wallet.ts, part 3: balances by token and swaps *)
(* ====================================================================== *)

Module JsMap.

(** A [Map<Address, bigint>]: its entries in insertion order.  Keys are
    compared exactly, as [Map] compares strings. *)
Definition t : Type := list (Address * Z).

(** [m.get(key)] *)
Fixpoint get (key : Address) (m : t) : option Z :=
  match m with
  | [] => None
  | (k, v) :: r => if String.eqb k key then Some v else get key r
  end.

(** [m.set(key, value)]: an existing key keeps its place. *)
Fixpoint set (key : Address) (value : Z) (m : t) : t :=
  match m with
  | [] => [(key, value)]
  | (k, v) :: r => if String.eqb k key then (k, value) :: r else (k, v) :: set key value r
  end.

Definition keys (m : t) : list Address := map fst m.

End JsMap.

Module Balances.

(** One round of the loop of [getBalanceByToken]:
    [if (note.spent) continue;
     const current = balances.get(note.token) ?? 0n;
     balances.set(note.token, current + note.amount)]. *)
Definition addNote (balances : JsMap.t) (note : Note.t) : JsMap.t :=
  if Note.spent note then balances
  else
    let current := match JsMap.get (Note.token note) balances with
                   | Some c => c
                   | None => 0
                   end in
    JsMap.set (Note.token note) (current + Note.amount note) balances.

(** [getBalanceByToken] *)
Definition getBalanceByToken (notes : list Note.t) : JsMap.t :=
  fold_left addNote notes [].

(** The sum of the balances whose key satisfies [p]. *)
Definition totalWhere (p : Address -> bool) (m : JsMap.t) : Z :=
  sumBy snd (filter (fun entry => p (fst entry)) m).

End Balances.

Module Swap.
Import PrivacyWallet.

(** The operation is a deposit. *)
Definition isDeposit (op : Operation) : bool :=
  match op with Deposit _ _ _ => true | _ => false end.

(** What [executeSwap] can throw: its own two errors, or what comes out of
    the contract service. *)
Inductive SwapError : Type :=
| SwapServiceNotInitialized      (* "Contract service not initialized" *)
| SwapExecutionFailed            (* "Swap execution failed" *)
| SwapRaised (e : Exception).

(** [SwapParams] of contractService.ts *)
Record SwapParams : Type := mkSwapParams {
  publicInputs : Hex;
  proofBytes : Hex
}.

(** [executeSwap]: [submitSwap] is the answer of
    [contractService.executeSwap]; the receipt comes from the world. *)
Definition executeSwap {T : Type} (env : Env) (submitSwap : SwapParams -> Response Hex)
           (publicInputs proofBytes : Hex) (w : t T) : t T * (SwapError + Hex) :=
  match contractService w with
  | None => (w, inl SwapServiceNotInitialized)
  | Some _ =>
      match await (submitSwap (mkSwapParams publicInputs proofBytes)) with
      | Threw e => (w, inl (SwapRaised e))
      | Returned txHash =>
          match ContractService.waitForTransaction (world env) txHash with
          | Threw e => (w, inl (SwapRaised e))
          | Returned result =>
              if negb (fst result) then (w, inl SwapExecutionFailed)
              else (w, inr txHash)
          end
      end
  end.

End Swap.

Module Transfer.
Import PrivacyWallet.

(** The entry of [outputNotes] made for one output. *)
Definition proverOutput (out : Types.Output) : ContractService.OutputNote :=
  ContractService.mkOutputNote (Types.out_amount out)
                               (Types.ephmeralPublicKey (Types.recipient out)).

(** The request that [executeTransaction] sends to the prover, given the
    inputs with their Merkle proofs and the outputs with the change. *)
Definition proofRequest {T : Type} {tree : MerkleTree.Ops T} (w : t T)
           (inputNotes : list ContractService.InputNote)
           (finalOutputs : list Types.Output) : ContractService.TransactionProofRequest :=
  ContractService.mkProofRequest inputNotes (map proverOutput finalOutputs)
                                 (MerkleTree.root (merkleTree (state w))).

(** The parameters of [transact] made from a proof response. *)
Definition transactParams (response : ContractService.ProofResponse)
  : ContractService.TransactParams :=
  ContractService.mkTransactParams (ContractService.publicInputs response)
                                   (ContractService.proofBytes response).

End Transfer.

Module Node.
Import ContractService.

(** The logs of a chain come in the order of their blocks. *)
Fixpoint ascending (chain : list Log) : bool :=
  match chain with
  | [] => true
  | log :: rest =>
      forallb (fun later => log_blockNumber log <=? log_blockNumber later) rest
      && ascending rest
  end.

(** The world answers as a node at block [current] that holds [chain]. *)
Definition servedBy (current : Z) (chain : list Log) (world : World) : Prop :=
  getBlockNumber world = Ok current /\
  forall fromBlock toBlock, getLogs world fromBlock toBlock = nodeGetLogs chain fromBlock toBlock.

End Node.

(* ====================================================================== *)
(** * keyDerivation.ts, part 2: stored keys and key generation *)
(* ====================================================================== *)

Module KeyStorage.
Import Bytes KeyDerivation.

(** The object literal that [serializeKeys] hands to [JSON.stringify]. *)
Definition keysObject (keys : WalletKeys) : JsObject :=
  [ ("address", address keys);
    ("viewPrivateKey", bytesToHex (viewPrivateKey keys));
    ("viewPublicKey", bytesToHex (viewPublicKey keys));
    ("spendPrivateKey", bytesToHex (spendPrivateKey keys));
    ("spendPublicKey", bytesToHex (spendPublicKey keys)) ]%string.

(** The object that [deserializeKeys] returns.  Its [address] is whatever
    [data.address] holds: [undefined], here [None], when the stored object
    has no such property. *)
Record ParsedKeys : Type := mkParsedKeys {
  parsedAddress : option Address;
  parsedViewPrivateKey : list Z;
  parsedViewPublicKey : list Z;
  parsedSpendPrivateKey : list Z;
  parsedSpendPublicKey : list Z
}.

(** [hexToBytes(data[key])]: viem reads [hex.slice(2)], a [TypeError] when
    the property is absent. *)
Definition hexField (key : string) (data : JsObject) : Result (list Z) :=
  match getField key data with
  | Some hex => hexToBytesR hex
  | None => Threw NullDereference
  end.

Section Json.

(** [JSON.stringify] and [JSON.parse] on objects whose properties are
    strings; [JSON.parse] throws on a text that is no JSON.  Texts that
    denote other JSON values are not covered. *)
Variable stringify : JsObject -> string.
Variable parse : string -> Response JsObject.

(** [serializeKeys] *)
Definition serializeKeys (keys : WalletKeys) : string := stringify (keysObject keys).

(** [deserializeKeys]: the properties are read in the order of the object
    literal. *)
Definition deserializeKeys (serialized : string) : Result ParsedKeys :=
  bind (await (parse serialized)) (fun data =>
  bind (hexField "viewPrivateKey" data) (fun viewPriv =>
  bind (hexField "viewPublicKey" data) (fun viewPub =>
  bind (hexField "spendPrivateKey" data) (fun spendPriv =>
  bind (hexField "spendPublicKey" data) (fun spendPub =>
  Returned (mkParsedKeys (getField "address" data) viewPriv viewPub spendPriv spendPub)))))).

End Json.

End KeyStorage.

Module KeyGeneration.
Import Bytes KeyDerivation.

Definition newline : string := String (ascii_of_nat 10) EmptyString.

(** [SIGNING_MESSAGES.VIEW_KEY] *)
Definition VIEW_KEY : string :=
  ("Sign this message to generate your VIEW KEY for Private Payments."
   ++ newline ++ newline ++ " This allows you to scan for incoming payments."
   ++ newline ++ newline ++ "IMPORTANT: This key does not allow spending."
   ++ newline ++ newline ++ " Nonce: ")%string.

(** [SIGNING_MESSAGES.SPEND_KEY] *)
Definition SPEND_KEY : string :=
  ("Sign this message to generate your SPEND KEY for Private Payments."
   ++ newline ++ newline ++ " This allows you to spend your private funds."
   ++ newline ++ newline ++ "WARNING: Keep this signature secure!"
   ++ newline ++ newline ++ "Nonce: ")%string.

(** The part of viem's [WalletClient] that key generation calls: the
    accounts of the wallet, and the signer's answer to a request to sign
    [message] with [account]. *)
Record WalletClient : Type := mkWalletClient {
  getAddresses : Response (list Address);
  signMessage : Address -> string -> Response Hex
}.

(** What [generateKeysFromWallet] can throw: its own error, or what comes
    out of the wallet client and of the derivation. *)
Inductive KeyGenError : Type :=
| NoAddressFound                 (* "No address found" *)
| KeyGenRaised (e : Exception).

Section Generation.

Variable keccak_256 : list Z -> list Z.
Variable getPublicKey : list Z -> Response (list Z).

(** The two signatures and derivations, once the account is known. *)
Definition deriveBoth (walletClient : WalletClient) (account : Address) (nonce : string)
  : Result WalletKeys :=
  let viewMessage := (VIEW_KEY ++ nonce)%string in
  bind (await (signMessage walletClient account viewMessage)) (fun viewSignature =>
  bind (deriveKeyPairFromSignature keccak_256 getPublicKey viewSignature view)
       (fun viewKeyPair =>
  let spendMessage := (SPEND_KEY ++ nonce)%string in
  bind (await (signMessage walletClient account spendMessage)) (fun spendSignature =>
  bind (deriveKeyPairFromSignature keccak_256 getPublicKey spendSignature spend)
       (fun spendKeyPair =>
  Returned (mkWalletKeys account
                         (privateKey viewKeyPair) (publicKey viewKeyPair)
                         (privateKey spendKeyPair) (publicKey spendKeyPair)))))).

(** [generateKeysFromWallet]; [nonce] is [Date.now().toString()].  The
    test [!address] holds for a missing first element and for the empty
    string. *)
Definition generateKeysFromWallet (walletClient : WalletClient) (nonce : string)
  : KeyGenError + WalletKeys :=
  match await (getAddresses walletClient) with
  | Threw e => inl (KeyGenRaised e)
  | Returned [] => inl NoAddressFound
  | Returned (account :: _) =>
      if String.eqb account "" then inl NoAddressFound
      else match deriveBoth walletClient account nonce with
           | Returned keys => inr keys
           | Threw e => inl (KeyGenRaised e)
           end
  end.

End Generation.

End KeyGeneration.

(* ====================================================================== *)
(** * errorHandling.ts *)
(* ====================================================================== *)

(** Strings are sequences of code units below 256. *)
Module ErrorHandling.
Local Open Scope string_scope.

(** [ERROR_PATTERNS] *)
Definition userRejection : list string :=
  [ "user rejected"; "user denied"; "user cancelled"; "user canceled";
    "rejected the request"; "denied transaction"; "transaction was rejected";
    "action_rejected"; "user disapproved" ].

Definition insufficientFunds : list string :=
  [ "insufficient funds"; "insufficient balance"; "not enough balance";
    "exceeds balance"; "insufficient token balance" ].

Definition gasError : list string :=
  [ "gas required exceeds"; "out of gas"; "gas too low"; "intrinsic gas too low";
    "max fee per gas"; "gas limit" ].

Definition networkError : list string :=
  [ "network error"; "failed to fetch"; "connection refused"; "timeout";
    "could not connect"; "rpc error" ].

Definition contractRevert : list string :=
  [ "execution reverted"; "revert"; "require failed"; "invalid opcode" ].

Definition nonceError : list string :=
  [ "nonce too low"; "nonce too high"; "replacement transaction"; "already known" ].

(** The field [type] of [ParsedError]. *)
Inductive ErrorType : Type :=
| rejection | insufficient_funds | gas | network | contract | nonce | unknown.

Record ParsedError : Type := mkParsedError {
  type : ErrorType;
  message : string;
  originalMessage : string;
  isUserRejection : bool
}.

(** The argument [error: unknown], as far as the function looks at it: an
    instance of [Error] with its message, a string, an object with those
    of the properties [message], [shortMessage] and [details] that are
    present and strings, or any other value. *)
Inductive ErrorValue : Type :=
| ErrorInstance (errorMessage : string)
| StringValue (text : string)
| ObjectValue (objMessage objShortMessage objDetails : option string)
| OtherValue.

(** The message taken from the error. *)
Definition messageOf (error : ErrorValue) : string :=
  match error with
  | ErrorInstance m => m
  | StringValue s => s
  | ObjectValue (Some m) _ _ => m
  | ObjectValue None (Some m) _ => m
  | ObjectValue None None (Some m) => m
  | ObjectValue None None None => "Unknown error"
  | OtherValue => "Unknown error"
  end.

(** [toLowerCase] on one code unit below 256: the letters [A-Z], and the
    accented capitals from 192 to 222 except the multiplication sign. *)
Definition lowerUnit (c : ascii) : ascii :=
  let k := N_of_ascii c in
  if ((65 <=? k) && (k <=? 90))%N then ascii_of_N (k + 32)
  else if ((192 <=? k) && (k <=? 222) && negb (k =? 215))%N then ascii_of_N (k + 32)
  else c.

Fixpoint toLowerCase (s : string) : string :=
  match s with
  | EmptyString => EmptyString
  | String c r => String (lowerUnit c) (toLowerCase r)
  end.

(** [s.includes(pattern)] *)
Fixpoint includes (s pattern : string) : bool :=
  String.prefix pattern s
  || match s with
     | EmptyString => false
     | String _ r => includes r pattern
     end.

(** [patterns.some((pattern) => lowerMessage.includes(pattern))] *)
Definition someIncluded (patterns : list string) (lowerMessage : string) : bool :=
  existsb (includes lowerMessage) patterns.

(** The class [\s] on code units below 256. *)
Definition isSpace (c : ascii) : bool :=
  let k := N_of_ascii c in
  (((9 <=? k) && (k <=? 13)) || (k =? 32) || (k =? 160))%N.

(** The class [[:\s]]. *)
Definition isSeparator (c : ascii) : bool := Ascii.eqb c ":" || isSpace c.

(** The class of all characters but the double quote, written Q below. *)
Definition notQuote (c : ascii) : bool := negb (Ascii.eqb c (ascii_of_nat 34)).

(** The longest prefix of [s] whose characters satisfy [p], and the rest. *)
Fixpoint span (p : ascii -> bool) (s : string) : string * string :=
  match s with
  | EmptyString => (EmptyString, EmptyString)
  | String c r =>
      if p c then let (taken, rest) := span p r in (String c taken, rest)
      else (EmptyString, s)
  end.

Fixpoint lastChar (s : string) : option ascii :=
  match s with
  | EmptyString => None
  | String c EmptyString => Some c
  | String _ r => lastChar r
  end.

(** A literal of a regular expression with the flag [i], at the start of
    [s]: what follows it in [s], when it is there.  Two code units below
    256 are the same up to case, for a literal in the ASCII range, when
    they have the same lower-case letter. *)
Fixpoint afterLiteral (literal s : string) : option string :=
  match literal, s with
  | EmptyString, _ => Some s
  | String _ _, EmptyString => None
  | String k kr, String c r =>
      if Ascii.eqb (lowerChar c) (lowerChar k) then afterLiteral kr r else None
  end.

(** The rest [[:\s]+Q?([^Q]+)Q?] of the two expressions, after the keyword:
    the captured group.  The separators are taken greedily, then a quote if
    there is one, then the characters up to the next quote.  When nothing
    is left for the group (the text ends, or a quote comes at once), the
    matcher backtracks by one separator, which the group then takes, alone
    since a quote or the end follows; with a single separator there is no
    match. *)
Definition captureAfter (rest : string) : option string :=
  let (separators, r) := span isSeparator rest in
  match separators with
  | EmptyString => None
  | String _ more =>
      let body := match r with
                  | String c r' => if notQuote c then r else r'
                  | EmptyString => r
                  end in
      match fst (span notQuote body) with
      | String c reason => Some (String c reason)
      | EmptyString =>
          match lastChar more with
          | Some separator => Some (String separator EmptyString)
          | None => None
          end
      end
  end.

(** [s.match(/keyword[:\s]+Q?([^Q]+)Q?/i)], group 1: the first position of
    [s], from the left, at which the expression matches. *)
Fixpoint matchAfterKeyword (keyword s : string) : option string :=
  let here := match afterLiteral keyword s with
              | Some rest => captureAfter rest
              | None => None
              end in
  match here with
  | Some reason => Some reason
  | None =>
      match s with
      | EmptyString => None
      | String _ r => matchAfterKeyword keyword r
      end
  end.

(** [s.replace(/^prefix\s*/i, empty)] *)
Definition removePrefix (prefix s : string) : string :=
  match afterLiteral prefix s with
  | Some rest => snd (span isSpace rest)
  | None => s
  end.

(** The message of an error of type [unknown]. *)
Definition cleanUp (originalMessage : string) : string :=
  let cleanMessage := removePrefix "Error:" originalMessage in
  let cleanMessage := removePrefix "TransactionExecutionError:" cleanMessage in
  let cleanMessage := removePrefix "ContractFunctionExecutionError:" cleanMessage in
  let cleanMessage :=
    if (100 <? String.length cleanMessage)%nat
    then String.substring 0 100 cleanMessage ++ "..."
    else cleanMessage in
  match cleanMessage with
  | EmptyString => "An unexpected error occurred. Please try again."
  | _ => cleanMessage
  end.

(** [parseTransactionError] *)
Definition parseTransactionError (error : ErrorValue) : ParsedError :=
  let originalMessage := messageOf error in
  let lowerMessage := toLowerCase originalMessage in
  if someIncluded userRejection lowerMessage then
    mkParsedError rejection
      "Transaction cancelled. You rejected the request in your wallet."
      originalMessage true
  else if someIncluded insufficientFunds lowerMessage then
    mkParsedError insufficient_funds
      "Insufficient balance. Please check your token balance and try again."
      originalMessage false
  else if someIncluded gasError lowerMessage then
    mkParsedError gas
      "Transaction failed due to gas estimation. Please try again with a higher gas limit."
      originalMessage false
  else if someIncluded networkError lowerMessage then
    mkParsedError network
      "Network connection error. Please check your internet connection and try again."
      originalMessage false
  else if someIncluded contractRevert lowerMessage then
    let revertMatch :=
      match matchAfterKeyword "reason" originalMessage with
      | Some reason => Some reason
      | None => matchAfterKeyword "reverted" originalMessage
      end in
    mkParsedError contract
      match revertMatch with
      | Some reason => "Transaction failed: " ++ reason
      | None => "Transaction failed. The contract rejected this transaction."
      end
      originalMessage false
  else if someIncluded nonceError lowerMessage then
    mkParsedError nonce
      "Transaction nonce issue. Please wait for pending transactions to complete."
      originalMessage false
  else
    mkParsedError unknown (cleanUp originalMessage) originalMessage false.

(** [getErrorMessage] *)
Definition getErrorMessage (error : ErrorValue) : string :=
  message (parseTransactionError error).

(** [isUserRejectionError] *)
Definition isUserRejectionError (error : ErrorValue) : bool :=
  isUserRejection (parseTransactionError error).

End ErrorHandling.

(* ====================================================================== *)
(** * More concrete data, for running the model *)
(* ====================================================================== *)

Module DemoKeys.
Import KeyDerivation.
Local Open Scope string_scope.

(** A toy text format for objects with string properties: each property as
    [key=value;]. *)
Fixpoint stringify (o : JsObject) : string :=
  match o with
  | [] => ""
  | (k, v) :: r => k ++ "=" ++ v ++ ";" ++ stringify r
  end.

(** Reads the format back; [key] and [value] hold, reversed, what has been
    read of the current property. *)
Fixpoint parseFrom (s : string) (key : string) (value : option string)
  : Response JsObject :=
  match s with
  | EmptyString =>
      match key, value with
      | EmptyString, None => Ok []
      | _, _ => Failed "Unexpected end of JSON input"
      end
  | String c r =>
      match value with
      | None =>
          if Ascii.eqb c "=" then parseFrom r key (Some "")
          else parseFrom r (key ++ String c "") None
      | Some v =>
          if Ascii.eqb c ";" then
            match parseFrom r "" None with
            | Ok o => Ok ((key, v) :: o)
            | Failed msg => Failed msg
            end
          else parseFrom r key (Some (v ++ String c ""))
      end
  end.

Definition parse (s : string) : Response JsObject := parseFrom s "" None.

(** A wallet with one account whose signer answers every request with the
    same signature. *)
Definition walletClient : KeyGeneration.WalletClient :=
  KeyGeneration.mkWalletClient
    (Ok ["0x742d35Cc6634C0532925a3b844Bc9e7595f0bEb7"])
    (fun _ _ => Ok "0x1234").

End DemoKeys.

(* ====================================================================== *)
(** * Properties of coin selection *)
(* ====================================================================== *)

Module SelectionFacts.
Import Selection.

Lemma sumBy_from {A} (f : A -> Z) (xs : list A) (z : Z) :
  fold_left (fun sum x => sum + f x) xs z = z + fold_left (fun sum x => sum + f x) xs 0.
Proof.
  revert z. induction xs as [|x xs IH]; intros z; simpl.
  - lia.
  - rewrite (IH (z + f x)), (IH (f x)). lia.
Qed.

Lemma sumBy_amount (l : list Note.t) : sumBy Note.amount l = totalAmount l.
Proof.
  unfold sumBy. induction l as [|n l IH]; simpl; [reflexivity|].
  rewrite sumBy_from, IH. lia.
Qed.

Lemma totalAmount_app (a b : list Note.t) :
  totalAmount (a ++ b) = totalAmount a + totalAmount b.
Proof. induction a as [|x a IH]; simpl; lia. Qed.

Lemma totalAmount_perm (a b : list Note.t) :
  Permutation a b -> totalAmount a = totalAmount b.
Proof. induction 1; simpl; lia. Qed.

Lemma insertSorted_perm (x : Note.t) (l : list Note.t) :
  Permutation (insertSorted x l) (x :: l).
Proof.
  induction l as [|y r IH]; simpl.
  - apply Permutation_refl.
  - destruct (compareNotes x y <=? 0).
    + apply Permutation_refl.
    + eapply perm_trans; [apply perm_skip; exact IH | apply perm_swap].
Qed.

Lemma sort_perm (l : list Note.t) : Permutation (sort l) l.
Proof.
  induction l as [|x l IH]; simpl.
  - apply perm_nil.
  - eapply perm_trans; [apply insertSorted_perm | apply perm_skip; exact IH].
Qed.

Lemma compareNotes_le (x y : Note.t) :
  (compareNotes x y <=? 0) = (Note.amount y <=? Note.amount x).
Proof.
  unfold compareNotes.
  destruct (Z.leb_spec (Note.amount y) (Note.amount x));
    destruct (Z.leb_spec (Z.sgn (Note.amount y - Note.amount x)) 0); lia.
Qed.

Lemma insertSorted_descending (x : Note.t) (l : list Note.t) :
  Descending l -> Descending (insertSorted x l).
Proof.
  induction 1 as [|y|y z r Hle Hd IH]; simpl.
  - constructor.
  - rewrite compareNotes_le.
    destruct (Z.leb_spec (Note.amount y) (Note.amount x)); constructor; try lia; constructor.
  - simpl in IH. rewrite !compareNotes_le in *.
    destruct (Z.leb_spec (Note.amount y) (Note.amount x)).
    + constructor; [lia|]. constructor; assumption.
    + destruct (Z.leb_spec (Note.amount z) (Note.amount x)).
      * constructor; [lia|]. exact IH.
      * constructor; [lia|]. exact IH.
Qed.

Lemma sort_descending (l : list Note.t) : Descending (sort l).
Proof.
  induction l as [|x l IH]; simpl; [constructor|].
  apply insertSorted_descending, IH.
Qed.

(** The loop stops on a prefix of the available notes, and it only stops
    early once the running total has reached the target. *)
Lemma accumulate_prefix (target : Z) (avail : list Note.t) :
  forall selected total,
  exists taken rest,
    avail = taken ++ rest /\
    accumulate target avail selected total
      = (selected ++ taken, total + totalAmount taken) /\
    (total + totalAmount taken < target -> rest = []).
Proof.
  induction avail as [|n avail IH]; intros selected total; simpl.
  - exists [], []. simpl. rewrite app_nil_r, Z.add_0_r. auto.
  - destruct (Z.geb_spec total target) as [Hge|Hlt].
    + exists [], (n :: avail). simpl. rewrite app_nil_r, Z.add_0_r.
      repeat split; auto. intros; lia.
    + destruct (IH (selected ++ [n]) (total + Note.amount n))
        as (taken & rest & Havail & Hacc & Hrest).
      exists (n :: taken), rest. simpl. subst avail.
      rewrite Hacc, <- app_assoc. simpl.
      repeat split; auto.
      * f_equal. lia.
      * intros H. apply Hrest. lia.
Qed.

(** The shape of a selection: an initial segment of the sorted notes of the
    token, cut short only when the target is reached. *)
Lemma selectNotesForAmount_split (notes : list Note.t) (token : Address) (target : Z) :
  exists taken rest,
    selectNotesForAmount notes token target = (taken, totalAmount taken) /\
    Permutation (taken ++ rest) (getNotesForToken notes token) /\
    Descending (taken ++ rest) /\
    (totalAmount taken < target -> rest = []).
Proof.
  unfold selectNotesForAmount.
  destruct (accumulate_prefix target (sort (getNotesForToken notes token)) [] 0)
    as (taken & rest & Hsplit & Hacc & Hrest).
  exists taken, rest. rewrite Hacc. simpl. repeat split.
  - rewrite <- Hsplit. apply sort_perm.
  - rewrite <- Hsplit. apply sort_descending.
  - exact Hrest.
Qed.

Lemma totalAmount_nonneg (l : list Note.t) :
  Forall (fun n => 0 <= Note.amount n) l -> 0 <= totalAmount l.
Proof. induction 1; simpl; lia. Qed.

Lemma selection_short_balance_short (notes : list Note.t) (token : Address) (target : Z) :
  snd (selectNotesForAmount notes token target) < target ->
  unspentBalance notes token < target.
Proof.
  destruct (selectNotesForAmount_split notes token target)
    as (taken & rest & -> & Hperm & _ & Hrest).
  simpl. intros Hlt. rewrite (Hrest Hlt), app_nil_r in Hperm.
  unfold unspentBalance. rewrite sumBy_amount, <- (totalAmount_perm _ _ Hperm).
  exact Hlt.
Qed.

Lemma selection_le_balance (notes : list Note.t) (token : Address) (target : Z) :
  Forall (fun n => 0 <= Note.amount n) notes ->
  snd (selectNotesForAmount notes token target) <= unspentBalance notes token.
Proof.
  intros Hpos.
  destruct (selectNotesForAmount_split notes token target)
    as (taken & rest & -> & Hperm & _ & _).
  simpl. unfold unspentBalance.
  rewrite sumBy_amount, <- (totalAmount_perm _ _ Hperm), totalAmount_app.
  assert (0 <= totalAmount rest); [|lia].
  apply totalAmount_nonneg. apply Forall_forall. intros n Hn.
  rewrite Forall_forall in Hpos. apply Hpos.
  assert (Hin : In n (getNotesForToken notes token)).
  { eapply Permutation_in; [exact Hperm|]. apply in_or_app. now right. }
  unfold getNotesForToken in Hin. apply filter_In in Hin. tauto.
Qed.



End SelectionFacts.

(* ====================================================================== *)
(** * Properties of the note ledger *)
(* ====================================================================== *)

Module LedgerFacts.
Import Ledger.

Lemma markSpent_idem (n : Note.t) : Note.markSpent (Note.markSpent n) = Note.markSpent n.
Proof. reflexivity. Qed.

Lemma markSpent_spent (n : Note.t) : Note.spent n = true -> Note.markSpent n = n.
Proof. destruct n; simpl; intros ->; reflexivity. Qed.

Lemma markFirst_idem (h : Hex) (l : list Note.t) :
  markFirst h (markFirst h l) = markFirst h l.
Proof.
  induction l as [|n r IH]; simpl; [reflexivity|].
  destruct (eqIgnoreCase (Note.nullifier n) h) eqn:E; simpl.
  - rewrite E. reflexivity.
  - rewrite E, IH. reflexivity.
Qed.

Lemma markFirst_comm (a b : Hex) (l : list Note.t) :
  markFirst a (markFirst b l) = markFirst b (markFirst a l).
Proof.
  induction l as [|n r IH]; simpl; [reflexivity|].
  destruct (eqIgnoreCase (Note.nullifier n) a) eqn:Ea;
    destruct (eqIgnoreCase (Note.nullifier n) b) eqn:Eb;
    simpl; rewrite ?Ea, ?Eb; try reflexivity.
  rewrite IH. reflexivity.
Qed.

Lemma markFirst_markAll (a : Hex) (hs : list Hex) (l : list Note.t) :
  markFirst a (markAll hs l) = markAll hs (markFirst a l).
Proof.
  revert l. induction hs as [|h hs IH]; intros l; simpl; [reflexivity|].
  rewrite IH, markFirst_comm. reflexivity.
Qed.

Lemma markAll_absorbs (a : Hex) (hs : list Hex) (l : list Note.t) :
  In a hs -> markFirst a (markAll hs l) = markAll hs l.
Proof.
  revert l. induction hs as [|h hs IH]; intros l; simpl; [tauto|].
  intros [->|Hin].
  - rewrite markFirst_markAll, markFirst_idem. reflexivity.
  - apply IH, Hin.
Qed.

Lemma markAll_idem (hs : list Hex) (l : list Note.t) :
  markAll hs (markAll hs l) = markAll hs l.
Proof.
  revert l. induction hs as [|h hs IH]; intros l; simpl; [reflexivity|].
  rewrite (markFirst_markAll h hs (markFirst h l)), markFirst_idem.
  apply IH.
Qed.

(** Marking never touches a field other than [spent]. *)
Lemma markFirst_erase (h : Hex) (l : list Note.t) :
  map Note.markSpent (markFirst h l) = map Note.markSpent l.
Proof.
  induction l as [|n r IH]; simpl; [reflexivity|].
  destruct (eqIgnoreCase (Note.nullifier n) h); simpl; [reflexivity|].
  rewrite IH. reflexivity.
Qed.

Lemma markAll_erase (hs : list Hex) (l : list Note.t) :
  map Note.markSpent (markAll hs l) = map Note.markSpent l.
Proof.
  revert l. induction hs as [|h hs IH]; intros l; simpl; [reflexivity|].
  rewrite IH. apply markFirst_erase.
Qed.

(** What [find] returns depends on the nullifiers only. *)
Lemma findIndex_erase (h : Hex) (l l' : list Note.t) :
  map Note.markSpent l = map Note.markSpent l' -> findIndex h l = findIndex h l'.
Proof.
  revert l'. induction l as [|n r IH]; intros [|n' r']; simpl; try discriminate;
    [reflexivity|].
  intros H.
  assert (Hn : Note.nullifier n = Note.nullifier n')
    by (unfold Note.markSpent in H; congruence).
  assert (Hr : map Note.markSpent r = map Note.markSpent r') by congruence.
  rewrite Hn, (IH r' Hr). reflexivity.
Qed.

Lemma markFirst_at (h : Hex) (l : list Note.t) (i : nat) (n : Note.t) :
  findIndex h l = Some i -> nth_error l i = Some n ->
  nth_error (markFirst h l) i = Some (Note.markSpent n).
Proof.
  revert i. induction l as [|m r IH]; intros i; simpl; [discriminate|].
  destruct (eqIgnoreCase (Note.nullifier m) h).
  - intros [= <-]. simpl. intros [= ->]. reflexivity.
  - destruct (findIndex h r) as [j|]; simpl; [|discriminate].
    intros [= <-]. simpl. apply IH. reflexivity.
Qed.

Lemma findIndex_bound (h : Hex) (l : list Note.t) (i : nat) :
  findIndex h l = Some i -> exists n, nth_error l i = Some n.
Proof.
  revert i. induction l as [|m r IH]; intros i; simpl; [discriminate|].
  destruct (eqIgnoreCase (Note.nullifier m) h).
  - intros [= <-]. simpl. eauto.
  - destruct (findIndex h r) as [j|]; simpl; [|discriminate].
    intros [= <-]. simpl. apply IH. reflexivity.
Qed.

(** After the loop, the note found for any of the nullifiers is spent and
    otherwise as before. *)
Lemma markAll_at (hs : list Hex) (l : list Note.t) (h : Hex) (i : nat) (n : Note.t) :
  In h hs -> findIndex h l = Some i -> nth_error l i = Some n ->
  nth_error (markAll hs l) i = Some (Note.markSpent n).
Proof.
  intros Hin Hfind Hnth.
  assert (He : map Note.markSpent (markAll hs l) = map Note.markSpent l)
    by apply markAll_erase.
  assert (Hfind' : findIndex h (markAll hs l) = Some i).
  { rewrite (findIndex_erase h _ _ He). exact Hfind. }
  destruct (findIndex_bound _ _ _ Hfind') as [n' Hn'].
  pose proof (markFirst_at _ _ _ _ Hfind' Hn') as Hm.
  rewrite (markAll_absorbs h hs l Hin) in Hm.
  assert (Hs : n' = Note.markSpent n') by congruence.
  assert (Hmap : nth_error (map Note.markSpent (markAll hs l)) i
                 = nth_error (map Note.markSpent l) i) by now rewrite He.
  rewrite !nth_error_map, Hn', Hnth in Hmap. simpl in Hmap.
  assert (Hmap' : Note.markSpent n' = Note.markSpent n) by congruence.
  rewrite Hn', Hs, Hmap'. reflexivity.
Qed.

Lemma markFirst_noop (h : Hex) (l : list Note.t) :
  (forall i n, findIndex h l = Some i -> nth_error l i = Some n -> Note.spent n = true) ->
  markFirst h l = l.
Proof.
  induction l as [|m r IH]; simpl; [reflexivity|].
  destruct (eqIgnoreCase (Note.nullifier m) h).
  - intros H. rewrite markSpent_spent; [reflexivity|]. apply (H O m); reflexivity.
  - intros H. rewrite IH; [reflexivity|].
    intros i n Hf Hn. apply (H (S i) n); [rewrite Hf; reflexivity | exact Hn].
Qed.

Lemma markAll_noop (hs : list Hex) (l : list Note.t) :
  (forall h i n, In h hs -> findIndex h l = Some i -> nth_error l i = Some n ->
                 Note.spent n = true) ->
  markAll hs l = l.
Proof.
  induction hs as [|h hs IH]; simpl; [reflexivity|].
  intros H. rewrite markFirst_noop.
  - apply IH. intros h' i n Hin. apply H. now right.
  - intros i n. apply H. now left.
Qed.

Lemma lowerChar_idem (c : ascii) : lowerChar (lowerChar c) = lowerChar c.
Proof. destruct c as [[] [] [] [] [] [] [] []]; reflexivity. Qed.

Lemma lowerChar_upperChar (c : ascii) : lowerChar (upperChar c) = lowerChar c.
Proof. destruct c as [[] [] [] [] [] [] [] []]; reflexivity. Qed.

Lemma toLowerCase_idem (s : string) : toLowerCase (toLowerCase s) = toLowerCase s.
Proof. induction s as [|c s IH]; simpl; [reflexivity|]. now rewrite lowerChar_idem, IH. Qed.

Lemma toLowerCase_toUpperCase (s : string) : toLowerCase (toUpperCase s) = toLowerCase s.
Proof.
  induction s as [|c s IH]; simpl; [reflexivity|]. now rewrite lowerChar_upperChar, IH.
Qed.

Lemma markFirst_case (h h' : Hex) (l : list Note.t) :
  toLowerCase h' = toLowerCase h -> markFirst h' l = markFirst h l.
Proof.
  intros H. induction l as [|m r IH]; simpl; [reflexivity|].
  unfold eqIgnoreCase. rewrite H, IH. reflexivity.
Qed.

Lemma markAll_case (hs hs' : list Hex) (l : list Note.t) :
  map toLowerCase hs' = map toLowerCase hs -> markAll hs' l = markAll hs l.
Proof.
  revert hs' l. induction hs as [|h hs IH]; intros [|h' hs'] l; simpl; try discriminate;
    [reflexivity|].
  intros [= Hh Hhs]. rewrite (markFirst_case h h' l Hh). apply IH, Hhs.
Qed.

(** ** How note lists evolve *)

Lemma NoteStep_refl (n : Note.t) : NoteStep n n.
Proof. now left. Qed.

Lemma NoteStep_markSpent (n : Note.t) : NoteStep n (Note.markSpent n).
Proof.
  destruct (Note.spent n) eqn:E.
  - left. now apply markSpent_spent.
  - right. now split.
Qed.

Lemma NoteStep_trans (a b c : Note.t) : NoteStep a b -> NoteStep b c -> NoteStep a c.
Proof.
  intros [->|[Ha ->]] [->|[Hb ->]]; try (now left); try (right; now split).
Qed.

Lemma Evolves_refl (l : list Note.t) : Evolves l l.
Proof. induction l; constructor; [apply NoteStep_refl | assumption]. Qed.

Lemma Evolves_trans (a b c : list Note.t) : Evolves a b -> Evolves b c -> Evolves a c.
Proof.
  intros Hab. revert c. induction Hab as [added|n n' old new Hn Hab IH]; intros c Hbc.
  - constructor.
  - inversion Hbc as [|m m' old' new' Hm Hrest]; subst.
    constructor; [eapply NoteStep_trans; eauto | apply IH; assumption].
Qed.

Lemma Evolves_app (l added : list Note.t) : Evolves l (l ++ added).
Proof. induction l; simpl; constructor; [apply NoteStep_refl | assumption]. Qed.

Lemma Evolves_markFirst (h : Hex) (l : list Note.t) : Evolves l (markFirst h l).
Proof.
  induction l as [|n r IH]; simpl; [constructor|].
  destruct (eqIgnoreCase (Note.nullifier n) h); constructor;
    auto using NoteStep_refl, NoteStep_markSpent, Evolves_refl.
Qed.

Lemma Evolves_markAll (hs : list Hex) (l : list Note.t) : Evolves l (markAll hs l).
Proof.
  revert l. induction hs as [|h hs IH]; intros l; simpl; [apply Evolves_refl|].
  eapply Evolves_trans; [apply Evolves_markFirst | apply IH].
Qed.

Lemma Evolves_checkSpentNotes (world : ContractService.World) (i : nat) (l : list Note.t) :
  Evolves l (fst (checkSpentNotes world i l)).
Proof.
  revert i. induction l as [|n r IH]; intros i; simpl; [constructor|].
  destruct (Note.spent n).
  - specialize (IH (S i)). destruct (checkSpentNotes world (S i) r). simpl in *.
    constructor; [apply NoteStep_refl | assumption].
  - destruct (ContractService.isNullifierUsed world i (Note.nullifier n)) as [b|e].
    + specialize (IH (S i)). destruct (checkSpentNotes world (S i) r). simpl in *.
      constructor; [|assumption].
      destruct b; [apply NoteStep_markSpent | apply NoteStep_refl].
    + simpl. apply Evolves_refl.
Qed.

Lemma Evolves_nth (old new : list Note.t) :
  Evolves old new ->
  forall i n, nth_error old i = Some n ->
              exists n', nth_error new i = Some n' /\ NoteStep n n'.
Proof.
  induction 1 as [added|n n' old new Hn H IH]; intros i m Hm.
  - destruct i; discriminate.
  - destruct i as [|i]; simpl in *.
    + injection Hm as <-. eauto.
    + apply IH, Hm.
Qed.

Lemma Evolves_length (old new : list Note.t) :
  Evolves old new -> (List.length old <= List.length new)%nat.
Proof. induction 1; simpl; lia. Qed.

(** ** Passes over the nullifier register *)

Lemma checkSpentNotes_length (world : ContractService.World) (i : nat) (l : list Note.t) :
  List.length (fst (checkSpentNotes world i l)) = List.length l.
Proof.
  revert i. induction l as [|n r IH]; intros i; simpl; [reflexivity|].
  destruct (Note.spent n).
  - specialize (IH (S i)). destruct (checkSpentNotes world (S i) r). simpl in *. lia.
  - destruct (ContractService.isNullifierUsed world i (Note.nullifier n)) as [b|e].
    + specialize (IH (S i)). destruct (checkSpentNotes world (S i) r). simpl in *. lia.
    + reflexivity.
Qed.

Lemma checkSpentNotes_complete (used : Hex -> bool) (world : ContractService.World)
      (i : nat) (l : list Note.t) :
  ContractService.alwaysAnswersFrom used world ->
  checkSpentNotes world i l = (reconcile used l, Returned tt).
Proof.
  intros Hall. revert i. induction l as [|n r IH]; intros i; simpl; [reflexivity|].
  destruct (Note.spent n) eqn:E.
  - rewrite IH. reflexivity.
  - unfold ContractService.isNullifierUsed. rewrite Hall. simpl. rewrite IH. reflexivity.
Qed.

Lemma reconcile_absorbs (used used' : Hex -> bool) (l : list Note.t) :
  (forall h, used h = true -> used' h = true) ->
  reconcile used' (reconcile used l) = reconcile used' l.
Proof.
  intros Hsub. unfold reconcile. rewrite map_map. apply map_ext. intros n.
  destruct (Note.spent n) eqn:E.
  - rewrite E. reflexivity.
  - destruct (used (Note.nullifier n)) eqn:U.
    + simpl. rewrite (Hsub _ U). reflexivity.
    + rewrite E. reflexivity.
Qed.

(** A pass that was cut short by an error is made up for by the next
    complete pass. *)
Lemma reconcile_after_partial (used used' : Hex -> bool)
      (world : ContractService.World) (i : nat) (l : list Note.t) :
  ContractService.answersFrom used world ->
  (forall h, used h = true -> used' h = true) ->
  reconcile used' (fst (checkSpentNotes world i l)) = reconcile used' (reconcile used l).
Proof.
  intros Hans Hsub. rewrite (reconcile_absorbs used used' l Hsub).
  revert i. induction l as [|n r IH]; intros i; simpl; [reflexivity|].
  destruct (Note.spent n) eqn:E.
  - specialize (IH (S i)). destruct (checkSpentNotes world (S i) r). simpl in *.
    rewrite E, IH. reflexivity.
  - unfold ContractService.isNullifierUsed.
    destruct (ContractService.readNullifierUsed world i (Note.nullifier n)) as [b|msg] eqn:R;
      simpl.
    + specialize (IH (S i)). destruct (checkSpentNotes world (S i) r). simpl in *.
      rewrite IH. f_equal.
      rewrite (Hans _ _ _ R).
      destruct (used (Note.nullifier n)) eqn:U; simpl.
      * rewrite (Hsub _ U). reflexivity.
      * rewrite E. reflexivity.
    + rewrite E. reflexivity.
Qed.

End LedgerFacts.

(* ====================================================================== *)
(** * Properties of byte arrays and of key derivation *)
(* ====================================================================== *)

Module BytesFacts.
Import Bytes.

Lemma hexValue_hexChar (d : Z) : 0 <= d < 16 -> hexValue (hexChar d) = Some d.
Proof.
  intros H.
  assert (Hd : d = 0 \/ d = 1 \/ d = 2 \/ d = 3 \/ d = 4 \/ d = 5 \/ d = 6 \/ d = 7 \/
               d = 8 \/ d = 9 \/ d = 10 \/ d = 11 \/ d = 12 \/ d = 13 \/ d = 14 \/ d = 15)
    by lia.
  repeat (destruct Hd as [->|Hd]; [reflexivity|]). subst d. reflexivity.
Qed.

Lemma hexValue_range (c : ascii) (v : Z) : hexValue c = Some v -> 0 <= v < 16.
Proof.
  unfold hexValue. set (k := Z.of_N (N_of_ascii c)).
  destruct (Z.leb_spec 48 k), (Z.leb_spec k 57); simpl; try (intros [= <-]; lia);
    destruct (Z.leb_spec 97 k), (Z.leb_spec k 102); simpl; try (intros [= <-]; lia);
    destruct (Z.leb_spec 65 k), (Z.leb_spec k 70); simpl; try (intros [= <-]; lia);
    discriminate.
Qed.

Lemma parsePairs_hexOfBytes (bytes : list Z) :
  Forall isByte bytes -> parsePairs (hexOfBytes bytes) = Some bytes.
Proof.
  induction 1 as [|b r Hb Hr IH]; [reflexivity|].
  unfold isByte in Hb. cbn [hexOfBytes parsePairs].
  rewrite !hexValue_hexChar, IH.
  - f_equal. f_equal. pose proof (Z.div_mod b 16). lia.
  - apply Z.mod_pos_bound. lia.
  - split; [apply Z.div_pos; lia | apply Z.div_lt_upper_bound; lia].
Qed.

Lemma hexOfBytes_even (bytes : list Z) : Nat.even (String.length (hexOfBytes bytes)) = true.
Proof. induction bytes as [|b r IH]; [reflexivity|]. simpl. exact IH. Qed.

Lemma substring_all (s : string) : String.substring 0 (String.length s) s = s.
Proof. induction s as [|c s IH]; [reflexivity|]. simpl. now rewrite IH. Qed.

(** [hexToBytes] undoes [bytesToHex]. *)
Lemma hexToBytes_bytesToHex (bytes : list Z) :
  Forall isByte bytes -> hexToBytes (bytesToHex bytes) = Some bytes.
Proof.
  intros H. unfold hexToBytes, bytesToHex.
  cbn [String.length Nat.sub String.substring].
  rewrite Nat.sub_0_r, substring_all, hexOfBytes_even.
  now apply parsePairs_hexOfBytes.
Qed.

Lemma parsePairs_bytes (s : string) :
  forall bytes, parsePairs s = Some bytes -> Forall isByte bytes.
Proof.
  assert (H : forall k s, (String.length s <= k)%nat ->
              forall bytes, parsePairs s = Some bytes -> Forall isByte bytes).
  { induction k as [|k IH]; intros [|c1 [|c2 r]] Hlen bytes; simpl in *;
      try (intros [= <-]; constructor); try discriminate; try lia.
    - destruct (hexValue c1) as [hi|] eqn:H1; [|discriminate].
      destruct (hexValue c2) as [lo|] eqn:H2; [|discriminate].
      destruct (parsePairs r) as [bs|] eqn:Hr; [|discriminate].
      intros [= <-]. constructor.
      + apply hexValue_range in H1. apply hexValue_range in H2. unfold isByte. lia.
      + apply (IH r); [lia | exact Hr]. }
  intros bytes. apply (H (String.length s)). lia.
Qed.

Lemma hexToBytes_bytes (hex : Hex) (bytes : list Z) :
  hexToBytes hex = Some bytes -> Forall isByte bytes.
Proof. unfold hexToBytes. apply parsePairs_bytes. Qed.

Lemma encodeText_bytes (s : string) : Forall isByte (encodeText s).
Proof.
  unfold encodeText. apply Forall_map. apply Forall_forall. intros c _.
  unfold isByte. pose proof (N_ascii_bounded c). lia.
Qed.

End BytesFacts.

Module KeyDerivationFacts.
Import Bytes BytesFacts KeyDerivation.

(** The constant of the source is the order of the secp256k1 group. *)
Lemma n_is_group_order :
  n = 115792089237316195423570985008687907852837564279074904382605163141518161494337.
Proof. reflexivity. Qed.

Lemma n_below_2_256 : 0 < n < 2 ^ 256.
Proof. unfold n. split; reflexivity. Qed.

Lemma lor_shiftl_byte (r b : Z) : 0 <= b < 256 -> Z.lor (Z.shiftl r 8) b = r * 256 + b.
Proof.
  intros Hb. rewrite Z.shiftl_mul_pow2 by lia. change (2 ^ 8) with 256.
  assert (Hland : Z.land (r * 256) b = 0).
  { apply Z.bits_inj'. intros k Hk. rewrite Z.land_spec, Z.bits_0.
    destruct (Z.lt_ge_cases k 8) as [Hlt|Hge].
    - change 256 with (2 ^ 8). rewrite Z.mul_pow2_bits_low by lia. reflexivity.
    - replace b with (b mod 2 ^ 8) by (apply Z.mod_small; change (2 ^ 8) with 256; lia).
      rewrite Z.mod_pow2_bits_high by lia. apply andb_false_r. }
  rewrite <- Z.lxor_lor by exact Hland.
  symmetry. apply Z.add_nocarry_lxor. exact Hland.
Qed.

(** Big-endian value of a byte array, by Horner's rule. *)
Lemma bytesToBigInt_from (bytes : list Z) (z : Z) :
  Forall isByte bytes ->
  fold_left (fun result b => Z.lor (Z.shiftl result 8) b) bytes z
  = z * 256 ^ Z.of_nat (List.length bytes) + bytesToBigInt bytes.
Proof.
  unfold bytesToBigInt. intros H. revert z.
  induction H as [|b r Hb Hr IH]; intros z.
  - simpl. lia.
  - cbn [fold_left]. rewrite (IH (Z.lor (Z.shiftl z 8) b)), (IH (Z.lor (Z.shiftl 0 8) b)).
    rewrite !lor_shiftl_byte by exact Hb.
    replace (Z.of_nat (List.length (b :: r))) with (Z.succ (Z.of_nat (List.length r)))
      by (simpl List.length; lia).
    rewrite Z.pow_succ_r by lia. ring.
Qed.

Lemma bytesToBigInt_nonneg (bytes : list Z) :
  Forall isByte bytes -> 0 <= bytesToBigInt bytes.
Proof.
  intros H.
  assert (G : forall z, 0 <= z ->
              0 <= fold_left (fun result b => Z.lor (Z.shiftl result 8) b) bytes z).
  { induction H as [|b r Hb Hr IH]; intros z Hz; cbn [fold_left]; [exact Hz|].
    apply IH. rewrite lor_shiftl_byte by exact Hb. unfold isByte in Hb. lia. }
  apply G. lia.
Qed.

Lemma bigIntToBytesFrom_value (rounds : nat) :
  forall (v : Z) (acc : list Z) (z : Z),
    Forall isByte acc ->
    Forall isByte (bigIntToBytesFrom rounds v acc) /\
    fold_left (fun result b => Z.lor (Z.shiftl result 8) b)
              (bigIntToBytesFrom rounds v acc) z
    = fold_left (fun result b => Z.lor (Z.shiftl result 8) b) acc
                (z * 256 ^ Z.of_nat rounds + v mod 256 ^ Z.of_nat rounds).
Proof.
  induction rounds as [|k IH]; intros v acc z Hacc.
  - simpl. split; [exact Hacc|]. rewrite Z.mod_1_r. f_equal. lia.
  - cbn [bigIntToBytesFrom].
    assert (Hbyte : isByte (Z.land v 255)).
    { change 255 with (Z.ones 8). rewrite Z.land_ones by lia. unfold isByte.
      change (2 ^ 8) with 256. apply Z.mod_pos_bound. lia. }
    destruct (IH (Z.shiftr v 8) (Z.land v 255 :: acc) z) as [Hb Hv];
      [constructor; assumption|].
    split; [exact Hb|]. rewrite Hv. cbn [fold_left].
    rewrite lor_shiftl_byte by exact Hbyte. f_equal.
    change 255 with (Z.ones 8). rewrite Z.land_ones by lia.
    rewrite Z.shiftr_div_pow2 by lia. change (2 ^ 8) with 256.
    replace (Z.of_nat (S k)) with (Z.succ (Z.of_nat k)) by lia.
    rewrite Z.pow_succ_r by lia.
    rewrite (Z.rem_mul_r v 256 (256 ^ Z.of_nat k)) by lia.
    ring.
Qed.

Lemma bigIntToBytes_bytes (v : Z) : Forall isByte (bigIntToBytes v).
Proof. apply (bigIntToBytesFrom_value 32 v [] 0). constructor. Qed.

(** [bytesToBigInt] reads back what [bigIntToBytes] wrote: the low 256 bits. *)
Lemma bytesToBigInt_bigIntToBytes (v : Z) :
  bytesToBigInt (bigIntToBytes v) = v mod 2 ^ 256.
Proof.
  unfold bytesToBigInt, bigIntToBytes.
  destruct (bigIntToBytesFrom_value 32 v [] 0) as [_ H]; [constructor|].
  rewrite H. cbn [fold_left]. reflexivity.
Qed.

Lemma bigIntToBytesFrom_length (rounds : nat) (v : Z) (acc : list Z) :
  List.length (bigIntToBytesFrom rounds v acc) = (rounds + List.length acc)%nat.
Proof.
  revert v acc. induction rounds as [|k IH]; intros v acc; simpl; [reflexivity|].
  rewrite IH. simpl. lia.
Qed.

Section Derivation.

(** The hash and the curve of the trusted libraries.  The digest is a
    byte array; [getPublicKey] returns the encoding of [k * G] for a
    secret key [k] in the range [1, n - 1], given as 32 bytes. *)
Variable keccak_256 : list Z -> list Z.
Variable getPublicKey : list Z -> Response (list Z).
Variable Point : Type.
Variable mulG : Z -> Point.
Variable encodePoint : Point -> list Z.

Hypothesis keccak_256_bytes : forall message, Forall isByte (keccak_256 message).
Hypothesis getPublicKey_valid :
  forall k, 0 < k < n -> getPublicKey (bigIntToBytes k) = Ok (encodePoint (mulG k)).

Lemma keccak256_bytesToHex (bytes : list Z) :
  Forall isByte bytes ->
  keccak256 keccak_256 (bytesToHex bytes) = Returned (bytesToHex (keccak_256 bytes)).
Proof. intros H. unfold keccak256. now rewrite hexToBytes_bytesToHex. Qed.

(** C8.  For a signature that is a hex string and either purpose, let
    [scalar] be the big-endian value of
    [keccak256 (keccak256 (signature ++ purpose))], as bytes, reduced
    modulo the group order [n].  If [scalar] is zero the derivation throws
    [InvalidPrivateKeyZero]; otherwise it returns the key pair whose
    private key is the 32-byte big-endian form of [scalar] and whose public
    key encodes [scalar * G]. *)
Theorem deriveKeyPairFromSignature_spec :
  forall (signature : Hex) (sigBytes : list Z) (purpose : Purpose),
    hexToBytes signature = Some sigBytes ->
    let digest :=
      keccak_256 (keccak_256 (sigBytes ++ encodeText (purposeLabel purpose))) in
    let scalar := bytesToBigInt digest mod n in
    let outcome := deriveKeyPairFromSignature keccak_256 getPublicKey signature purpose in
    (scalar = 0 <-> outcome = Threw InvalidPrivateKeyZero) /\
    (scalar = 0 <-> isThrew outcome = true) /\
    (scalar <> 0 ->
     outcome = Returned (mkKeyPair (bigIntToBytes scalar) (encodePoint (mulG scalar))) /\
     bytesToBigInt (bigIntToBytes scalar) = scalar /\
     List.length (bigIntToBytes scalar) = 32%nat).
Proof.
  intros signature sigBytes purpose Hsig digest scalar outcome.
  assert (Hbytes : Forall isByte sigBytes) by (eapply hexToBytes_bytes; eauto).
  assert (Hcombined : Forall isByte (sigBytes ++ encodeText (purposeLabel purpose))).
  { apply Forall_app. split; [exact Hbytes | apply encodeText_bytes]. }
  assert (Hrun : outcome =
                 if scalar =? 0 then Threw InvalidPrivateKeyZero
                 else bind (await (getPublicKey (bigIntToBytes scalar)))
                           (fun publicKey =>
                              Returned (mkKeyPair (bigIntToBytes scalar) publicKey))).
  { subst outcome. unfold deriveKeyPairFromSignature, hexToBytesR.
    rewrite Hsig. cbn [bind].
    rewrite (keccak256_bytesToHex _ Hcombined). cbn [bind].
    rewrite (keccak256_bytesToHex _ (keccak_256_bytes _)). cbn [bind].
    rewrite (hexToBytes_bytesToHex _ (keccak_256_bytes _)). cbn [bind].
    rewrite Z.rem_mod_nonneg;
      [reflexivity | apply bytesToBigInt_nonneg, keccak_256_bytes
       | apply n_below_2_256]. }
  assert (Hrange : 0 <= scalar < n).
  { subst scalar. apply Z.mod_pos_bound. apply n_below_2_256. }
  destruct (Z.eqb_spec scalar 0) as [Hz|Hnz].
  - rewrite Hrun. repeat split; auto; intros; try reflexivity; congruence.
  - assert (Hout : outcome
                   = Returned (mkKeyPair (bigIntToBytes scalar)
                                         (encodePoint (mulG scalar)))).
    { rewrite Hrun, getPublicKey_valid by lia. reflexivity. }
    rewrite Hout. repeat split; try congruence; try discriminate.
    rewrite bytesToBigInt_bigIntToBytes. apply Z.mod_small.
    pose proof n_below_2_256. lia.
Qed.

End Derivation.

(** A wallet's keys with the private parts replaced: used to say that a
    result does not depend on them. *)
Lemma exportPublicKeys_ignores_private (keys : WalletKeys) (viewPriv spendPriv : list Z) :
  exportPublicKeys
    (mkWalletKeys (address keys) viewPriv (viewPublicKey keys)
                  spendPriv (spendPublicKey keys))
  = exportPublicKeys keys.
Proof. reflexivity. Qed.

(** C9 (as amended).  The object returned by [exportPublicKeys] has exactly
    the properties [address], [viewPublicKey] and [spendPublicKey], in this
    order: the address and the two public keys as hex strings.  It has no
    property [viewPrivateKey] or [spendPrivateKey], and it is the same
    whatever the private keys are. *)
Theorem exportPublicKeys_fields :
  forall keys : WalletKeys,
    ownKeys (exportPublicKeys keys)
      = ["address"; "viewPublicKey"; "spendPublicKey"]%string /\
    getField "address" (exportPublicKeys keys) = Some (address keys) /\
    getField "viewPublicKey" (exportPublicKeys keys)
      = Some (bytesToHex (viewPublicKey keys)) /\
    getField "spendPublicKey" (exportPublicKeys keys)
      = Some (bytesToHex (spendPublicKey keys)) /\
    hasKey "viewPrivateKey" (exportPublicKeys keys) = false /\
    hasKey "spendPrivateKey" (exportPublicKeys keys) = false /\
    (forall viewPriv spendPriv,
        exportPublicKeys
          (mkWalletKeys (address keys) viewPriv (viewPublicKey keys)
                        spendPriv (spendPublicKey keys))
        = exportPublicKeys keys).
Proof. intros keys. repeat split. Qed.

(** C9, as first stated, fails: besides the two public keys the result has
    the property [address], as the test of the sources expects. *)
Lemma exportPublicKeys_has_address :
  hasKey "address" (exportPublicKeys Demo.testKeys) = true /\
  getField "address" (exportPublicKeys Demo.testKeys)
    = Some "0x742d35Cc6634C0532925a3b844Bc9e7595f0bEb7"%string /\
  ownKeys (exportPublicKeys Demo.testKeys) <> ["viewPublicKey"; "spendPublicKey"]%string.
Proof. repeat split. discriminate. Qed.

End KeyDerivationFacts.

(* ====================================================================== *)
(** * Properties of the contract service *)
(* ====================================================================== *)

Module ContractServiceFacts.
Import ContractService.

Lemma actualFromBlock_latest (currentBlock fromBlock : Z) :
  actualFromBlock currentBlock fromBlock latest
  = Z.max fromBlock (Z.max 0 (currentBlock - MAX_BLOCK_RANGE)).
Proof.
  unfold actualFromBlock, MAX_BLOCK_RANGE.
  destruct (Z.gtb_spec currentBlock 10000);
    match goal with |- context [?a >? ?b] => destruct (Z.gtb_spec a b) end; lia.
Qed.

Lemma actualFromBlock_ge (currentBlock fromBlock : Z) (toBlock : ToBlock) :
  fromBlock <= actualFromBlock currentBlock fromBlock toBlock.
Proof.
  destruct toBlock; [rewrite actualFromBlock_latest; lia | simpl; lia].
Qed.

(** What the method returns, in terms of the two requests it makes. *)
Lemma getAccountUpdatedEvents_run (world : World) (fromBlock : Z) (toBlock : ToBlock)
      (events : list AccountUpdatedEvent) :
  getAccountUpdatedEvents world fromBlock toBlock = Returned events ->
  exists currentBlock logs,
    getBlockNumber world = Ok currentBlock /\
    getLogs world (actualFromBlock currentBlock fromBlock toBlock) toBlock = Ok logs /\
    events = map eventOfLog logs.
Proof.
  unfold getAccountUpdatedEvents, bind.
  destruct (getBlockNumber world) as [currentBlock|msg]; simpl; [|discriminate].
  destruct (getLogs world _ toBlock) as [logs|msg] eqn:L; simpl; [|discriminate].
  intros [= <-]. eauto.
Qed.

(** A node that honours [fromBlock] returns no event below the start of
    the queried range. *)
Lemma events_not_below (world : World) (fromBlock : Z) (toBlock : ToBlock)
      (events : list AccountUpdatedEvent) :
  honoursFromBlock world ->
  getAccountUpdatedEvents world fromBlock toBlock = Returned events ->
  exists currentBlock,
    getBlockNumber world = Ok currentBlock /\
    Forall (fun e => actualFromBlock currentBlock fromBlock toBlock <= blockNumber e)
           events.
Proof.
  intros Hhon Hret.
  destruct (getAccountUpdatedEvents_run _ _ _ _ Hret) as (cur & logs & Hcur & Hlogs & ->).
  exists cur. split; [exact Hcur|].
  apply Forall_map. simpl. exact (Hhon _ _ _ Hlogs).
Qed.

Lemma nodeGetLogs_honours (chain : list Log) (world : World) :
  (forall fromBlock toBlock, getLogs world fromBlock toBlock
                             = nodeGetLogs chain fromBlock toBlock) ->
  honoursFromBlock world.
Proof.
  intros Hnode fromBlock toBlock logs. rewrite Hnode. unfold nodeGetLogs.
  intros [= <-]. apply Forall_forall. intros log Hin.
  apply filter_In in Hin. destruct Hin as [_ Hin].
  unfold inRange in Hin. apply andb_true_iff in Hin. destruct Hin as [Hin _].
  now apply Z.leb_le.
Qed.

(** C10.  With [toBlock = 'latest'] the query starts at the larger of the
    caller's [fromBlock] and [currentBlock - 10000], hence at no less than
    [currentBlock - 10000]; so no event older than that is returned,
    however old the caller's [fromBlock], and nothing reports the omission:
    the result is whatever the node answers for the shortened range. *)
Theorem getAccountUpdatedEvents_window :
  forall (world : World) (fromBlock currentBlock : Z),
    0 <= fromBlock ->
    getBlockNumber world = Ok currentBlock ->
    honoursFromBlock world ->
    actualFromBlock currentBlock fromBlock latest
      = Z.max fromBlock (currentBlock - 10000) /\
    currentBlock - 10000 <= actualFromBlock currentBlock fromBlock latest /\
    getAccountUpdatedEvents world fromBlock latest
      = bind (await (getLogs world (Z.max fromBlock (currentBlock - 10000)) latest))
             (fun logs => Returned (map eventOfLog logs)) /\
    (forall events,
        getAccountUpdatedEvents world fromBlock latest = Returned events ->
        Forall (fun e => currentBlock - 10000 <= blockNumber e) events).
Proof.
  intros world fromBlock currentBlock Hfrom Hcur Hhon.
  assert (Hact : actualFromBlock currentBlock fromBlock latest
                 = Z.max fromBlock (currentBlock - 10000)).
  { rewrite actualFromBlock_latest. unfold MAX_BLOCK_RANGE. lia. }
  repeat split.
  - exact Hact.
  - rewrite Hact. lia.
  - unfold getAccountUpdatedEvents. rewrite Hcur. cbn [await bind].
    rewrite Hact. reflexivity.
  - intros events Hret.
    destruct (events_not_below _ _ _ _ Hhon Hret) as (cur & Hcur' & Hall).
    rewrite Hcur in Hcur'. injection Hcur' as <-.
    rewrite Hact in Hall.
    eapply Forall_impl; [|exact Hall]. cbv beta. intros e He. lia.
Qed.

End ContractServiceFacts.

(* ====================================================================== *)
(** * Properties of the wallet operations *)
(* ====================================================================== *)

Module WalletFacts.
Import Selection SelectionFacts Ledger LedgerFacts PrivacyWallet.

(** Unfolds the method-body combinators. *)
Ltac unfold_method :=
  unfold mbind, lift, gets, modify, ret, throw, saveStateToStorage,
    requireContractService, tryCatch in *.

Section Wallet.
Context {T : Type} {tree : MerkleTree.Ops T}.

Lemma setNotes_same (w : t T) : setNotes (notes (state w)) w = w.
Proof. destruct w as [[? ? ? ? ?] ?]; reflexivity. Qed.

Lemma markNotesSpent_run (nullifiers : list Hex) (w : t T) :
  markNotesSpent nullifiers w
  = (setNotes (markAll nullifiers (notes (state w))) w, Returned tt).
Proof. reflexivity. Qed.

(** C5. [markNotesSpent] is idempotent: running it a second time with the
    same nullifiers changes nothing.  The match is insensitive to case:
    nullifier lists that agree up to case have the same effect, and the
    note that [find] returns for a nullifier, compared in lower case, ends
    up spent with its other fields intact.  When the notes found are
    already spent, the call leaves the wallet as it is. *)
Theorem markNotesSpent_idempotent :
  forall (nullifiers : list Hex) (w : t T),
    let once := fst (markNotesSpent nullifiers w) in
    fst (markNotesSpent nullifiers once) = once /\
    (forall nullifiers',
        map toLowerCase nullifiers' = map toLowerCase nullifiers ->
        fst (markNotesSpent nullifiers' w) = once) /\
    (forall h i n,
        In h nullifiers ->
        findIndex h (notes (state w)) = Some i ->
        nth_error (notes (state w)) i = Some n ->
        nth_error (notes (state once)) i = Some (Note.markSpent n)) /\
    ((forall h i n,
        In h nullifiers ->
        findIndex h (notes (state w)) = Some i ->
        nth_error (notes (state w)) i = Some n ->
        Note.spent n = true) ->
     once = w).
Proof.
  intros nullifiers w once. subst once. rewrite !markNotesSpent_run. simpl.
  repeat split.
  - rewrite markAll_idem. reflexivity.
  - intros hs' H. rewrite (markAll_case nullifiers hs' _ H). reflexivity.
  - intros h i n. apply markAll_at.
  - intros H. rewrite markAll_noop by exact H. apply setNotes_same.
Qed.

(** ** Outcomes of [executeTransaction] *)

Lemma await_threw {A} (r : Response A) (e : Exception) :
  await r = Threw e -> exists msg, e = Collaborator msg.
Proof. destruct r; simpl; intros H; [discriminate|]. injection H as <-. eauto. Qed.

Lemma proverInput_threw (tr : T) (n : Note.t) (e : Exception) :
  proverInput tr n = Threw e -> exists msg, e = Collaborator msg.
Proof.
  unfold proverInput, bind.
  destruct (await (MerkleTree.generateProof tr (Note.leafIndex n))) eqn:E.
  - discriminate.
  - intros [= <-]. eapply await_threw; eauto.
Qed.

Lemma mapResult_threw {A B} (f : A -> Result B) (l : list A) (e : Exception) :
  (forall a e', f a = Threw e' -> exists msg, e' = Collaborator msg) ->
  mapResult f l = Threw e -> exists msg, e = Collaborator msg.
Proof.
  intros Hf. induction l as [|a r IH]; simpl; [discriminate|].
  unfold bind. destruct (f a) eqn:E.
  - destruct (mapResult f r); [discriminate|]. intros [= <-]. apply IH. reflexivity.
  - intros [= <-]. eapply Hf; eauto.
Qed.

Lemma waitForTransaction_threw (world : ContractService.World) (hash : Hex)
      (e : Exception) :
  ContractService.waitForTransaction world hash = Threw e ->
  exists msg, e = Collaborator msg.
Proof.
  unfold ContractService.waitForTransaction, bind.
  destruct (await (ContractService.waitForTransactionReceipt world hash)) eqn:E.
  - discriminate.
  - intros [= <-]. eapply await_threw; eauto.
Qed.

Lemma withChange_unchanged (env : Env) (change : Z) (outputs : list Types.Output)
      (w : t T) :
  fst (withChange env change outputs w) = w.
Proof.
  unfold withChange. destruct (change >? 0); unfold_method; simpl; [|reflexivity].
  destruct (getPublicKeys w); simpl; [|reflexivity].
  destruct (await _); reflexivity.
Qed.

Lemma withChange_threw (env : Env) (change : Z) (outputs : list Types.Output)
      (w : t T) (e : Exception) :
  snd (withChange env change outputs w) = Threw e ->
  e = WalletKeysNotFound \/ exists msg, e = Collaborator msg.
Proof.
  unfold withChange. destruct (change >? 0); unfold_method; simpl; [|discriminate].
  destruct (getPublicKeys w); simpl.
  - destruct (await _) eqn:E; simpl; [discriminate|].
    intros [= <-]. right. eapply await_threw; eauto.
  - intros [= <-]. now left.
Qed.

(** Every way [executeTransaction] can end.  It throws with the wallet
    untouched, or it returns after the proof, the submission and the
    confirmation all succeeded, and then the selected notes are marked. *)
Lemma executeTransaction_outcome (env : Env) (token : Address)
      (outputs : list Types.Output) (w : t T) :
  let r := executeTransaction env token outputs w in
  let totalOutput := sumBy Types.out_amount outputs in
  (exists e, r = (w, Threw e) /\
     match e with
     | ContractServiceNotInitialized => contractService w = None
     | InsufficientBalance =>
         contractService w <> None /\ snd (selectionFor token outputs w) < totalOutput
     | ProofFailed _ =>
         contractService w <> None /\
         totalOutput <= snd (selectionFor token outputs w) /\
         exists request,
           ContractService.success
             (ContractService.requestTransactionProof (world env) request) = false
     | WalletKeysNotFound | TransactionExecutionFailed | Collaborator _ =>
         contractService w <> None /\ totalOutput <= snd (selectionFor token outputs w)
     | _ => False
     end) \/
  (exists txHash request receipt,
     r = (setNotes (markAll (map Note.nullifier (fst (selectionFor token outputs w)))
                            (notes (state w))) w,
          Returned txHash) /\
     contractService w <> None /\
     totalOutput <= snd (selectionFor token outputs w) /\
     ContractService.success
       (ContractService.requestTransactionProof (world env) request) = true /\
     ContractService.sendTransact (world env)
       (ContractService.mkTransactParams
          (ContractService.publicInputs
             (ContractService.requestTransactionProof (world env) request))
          (ContractService.proofBytes
             (ContractService.requestTransactionProof (world env) request)))
       = Ok txHash /\
     ContractService.waitForTransactionReceipt (world env) txHash = Ok receipt /\
     ContractService.status receipt = "success"%string).
Proof.
  intros r totalOutput. subst r. unfold executeTransaction. unfold_method.
  destruct (contractService w) as [cs|] eqn:Hcs; simpl.
  2:{ left. eexists. split; [reflexivity|]. simpl. reflexivity. }
  fold totalOutput.
  change (selectNotesForAmount (notes (state w)) token totalOutput)
    with (selectionFor token outputs w).
  destruct (Z.ltb_spec (snd (selectionFor token outputs w)) totalOutput) as [Hlt|Hge].
  { left. eexists. split; [reflexivity|]. simpl. split; [congruence|exact Hlt]. }
  assert (Hsome : Some cs <> None) by discriminate.
  pose proof (withChange_unchanged env
                (snd (selectionFor token outputs w) - totalOutput) outputs w) as Hw.
  pose proof (withChange_threw env
                (snd (selectionFor token outputs w) - totalOutput) outputs w) as He.
  destruct (withChange env _ outputs w) as [w' [finalOutputs|e]]; simpl in Hw; subst w'.
  2:{ left. exists e. split; [reflexivity|].
      destruct (He e eq_refl) as [->|[msg ->]]; simpl; auto. }
  simpl.
  destruct (mapResult (proverInput (merkleTree (state w)))
                      (fst (selectionFor token outputs w))) as [inputNotes|e] eqn:Hin.
  2:{ left. exists e. split; [reflexivity|].
      destruct (mapResult_threw _ _ _ (proverInput_threw _) Hin) as [msg ->].
      simpl; auto. }
  match goal with
  | |- context [ContractService.requestTransactionProof ?wd ?rq] =>
      set (request := rq);
      set (proofResponse := ContractService.requestTransactionProof wd request)
  end.
  destruct (ContractService.success proofResponse) eqn:Hsuccess; simpl.
  2:{ left. eexists. split; [reflexivity|]. simpl.
      repeat split; auto. exists request. exact Hsuccess. }
  destruct (ContractService.sendTransact (world env) _) as [txHash|msg] eqn:Hsend; simpl.
  2:{ left. eexists. split; [reflexivity|]. simpl; auto. }
  unfold ContractService.waitForTransaction, bind.
  destruct (ContractService.waitForTransactionReceipt (world env) txHash)
    as [receipt|msg] eqn:Hwait; simpl.
  2:{ left. eexists. split; [reflexivity|]. simpl; auto. }
  destruct (String.eqb_spec (ContractService.status receipt) "success") as [Hst|Hst];
    simpl.
  2:{ left. eexists. split; [reflexivity|]. simpl; auto. }
  right. exists txHash, request, receipt. repeat split; auto.
Qed.

(** C2 (as amended).  With the contract service in place and no negative
    note amount, [executeTransaction] throws [InsufficientBalance] exactly
    when the unspent balance of the token is below the sum of the requested
    outputs, and then the wallet is as it was. *)
Theorem executeTransaction_insufficient_balance :
  forall (env : Env) (token : Address) (outputs : list Types.Output) (w : t T),
    contractService w <> None ->
    Forall (fun n => 0 <= Note.amount n) (notes (state w)) ->
    let totalOutput := sumBy Types.out_amount outputs in
    let r := executeTransaction env token outputs w in
    (snd r = Threw InsufficientBalance <->
     unspentBalance (notes (state w)) token < totalOutput) /\
    (snd r = Threw InsufficientBalance -> r = (w, Threw InsufficientBalance)).
Proof.
  intros env token outputs w Hcs Hpos totalOutput r.
  pose proof (selection_le_balance (notes (state w)) token totalOutput Hpos) as Hle.
  pose proof (selection_short_balance_short (notes (state w)) token totalOutput) as Hshort.
  destruct (executeTransaction_outcome env token outputs w)
    as [(e & Hr & He)|(txHash & request & receipt & Hr & _ & Hge & _)];
    fold r in Hr; rewrite Hr; unfold selectionFor in *; subst totalOutput; simpl.
  - split.
    + split.
      * intros H. assert (e = InsufficientBalance) by congruence. subst e.
        apply Hshort. apply He.
      * intros Hlt. destruct e; simpl in He; try reflexivity; try tauto;
          try (destruct He as (_ & Hge & _); lia);
          try (destruct He as (_ & Hge); lia).
    + intros H. rewrite H. reflexivity.
  - split; [split|]; [discriminate| |discriminate].
    intros Hlt. lia.
Qed.

(** ** [syncWithChain] *)

(** [syncWithChain], branch by branch. *)
Lemma syncWithChain_run (env : Env) (w : t T) :
  syncWithChain env w =
  match contractService w with
  | None => (w, Returned tt)
  | Some _ =>
      if nothingToSync w then (w, Returned tt)
      else
        match ContractService.getAccountUpdatedEvents (world env)
                (lastSyncedBlock (state w)) ContractService.latest with
        | Threw _ => (w, Returned tt)
        | Returned events =>
            (setNotes (fst (checkSpentNotes (world env) 0 (notes (state w))))
                      (applyEvents events w),
             Returned tt)
        end
  end.
Proof.
  unfold syncWithChain, syncBody, applyEvents, nothingToSync. unfold_method.
  destruct (contractService w); [|reflexivity]. simpl.
  destruct (Nat.eqb _ 0 && _); [reflexivity|].
  destruct (ContractService.getAccountUpdatedEvents _ _ _) as [events|e];
    [|reflexivity].
  simpl.
  destruct (0 <? Z.of_nat (List.length events)); simpl;
    destruct (checkSpentNotes (world env) 0 (notes (state w))) as [ns [[]|e]];
    reflexivity.
Qed.

(** ** What each operation does to the notes and to the watermark *)

Lemma executeDeposit_outcome (env : Env) (token : Address) (amount : Z)
      (commitment : Types.Commitment) (w : t T) :
  let w' := fst (executeDeposit env token amount commitment w) in
  let inserted :=
    setMerkleTree (MerkleTree.insertLeaf (merkleTree (state w))
                     (Types.commitment commitment)) w in
  w' = w \/ w' = inserted \/
  exists note, Note.spent note = false /\
               w' = setNotes (notes (state w) ++ [note]) inserted.
Proof.
  unfold executeDeposit. unfold_method.
  destruct (contractService w); simpl; [|now left].
  destruct (await _) as [txHash|e]; simpl; [|now left].
  destruct (ContractService.waitForTransaction _ _) as [[ok blk]|e]; simpl; [|now left].
  destruct ok; simpl; [|now left].
  destruct (keys (state w)) as [k|] eqn:K; simpl.
  - right. right. eexists. split; [|reflexivity]. reflexivity.
  - right. now left.
Qed.

Lemma executeWithdraw_outcome (env : Env) (token : Address) (amount : Z)
      (receiver : Address) (spending : list Note.t) (w : t T) :
  let w' := fst (executeWithdraw env token amount receiver spending w) in
  w' = w \/
  w' = setNotes (markAll (map Note.nullifier spending) (notes (state w))) w.
Proof.
  unfold executeWithdraw, markNotesSpent. unfold_method.
  destruct (contractService w); simpl; [|now left].
  destruct (await _) as [txHash|e]; simpl; [|now left].
  destruct (ContractService.waitForTransaction _ _) as [[ok blk]|e]; simpl; [|now left].
  destruct ok; simpl; [now right|now left].
Qed.

Lemma executeTransaction_wallet (env : Env) (token : Address)
      (outputs : list Types.Output) (w : t T) :
  let w' := fst (executeTransaction env token outputs w) in
  w' = w \/
  w' = setNotes (markAll (map Note.nullifier (fst (selectionFor token outputs w)))
                         (notes (state w))) w.
Proof.
  destruct (executeTransaction_outcome env token outputs w)
    as [(e & Hr & _)|(txHash & request & receipt & Hr & _)];
    simpl in *; rewrite Hr; simpl; auto.
Qed.

Lemma applyEvents_notes (events : list ContractService.AccountUpdatedEvent) (w : t T) :
  notes (state (applyEvents events w)) = notes (state w).
Proof. unfold applyEvents. destruct (0 <? _); reflexivity. Qed.

Lemma applyEvents_lastSyncedBlock (events : list ContractService.AccountUpdatedEvent)
      (w : t T) :
  lastSyncedBlock (state (applyEvents events w))
  = nextBlockAfter events (lastSyncedBlock (state w)).
Proof.
  unfold applyEvents, nextBlockAfter.
  destruct events as [|e events]; [reflexivity|].
  replace (0 <? Z.of_nat (List.length (e :: events))) with true; [reflexivity|].
  symmetry. apply Z.ltb_lt. simpl List.length. lia.
Qed.

Lemma applyEvents_setNotes (events : list ContractService.AccountUpdatedEvent)
      (ns : list Note.t) (w : t T) :
  applyEvents events (setNotes ns w) = setNotes ns (applyEvents events w).
Proof. unfold applyEvents. destruct (0 <? _); reflexivity. Qed.

Lemma setNotes_setNotes (a b : list Note.t) (w : t T) :
  setNotes a (setNotes b w) = setNotes a w.
Proof. reflexivity. Qed.

Lemma run_notes (env : Env) (op : Operation) (w : t T) :
  Evolves (notes (state w)) (notes (state (run env op w))).
Proof.
  destruct op as [token amount commitment|token amount receiver spending
                 |token outputs|nullifiers|]; simpl.
  - destruct (executeDeposit_outcome env token amount commitment w)
      as [H|[H|(note & _ & H)]]; simpl in H; rewrite H; simpl;
      auto using Evolves_refl, Evolves_app.
  - destruct (executeWithdraw_outcome env token amount receiver spending w)
      as [H|H]; simpl in H; rewrite H; simpl;
      auto using Evolves_refl, Evolves_markAll.
  - destruct (executeTransaction_wallet env token outputs w)
      as [H|H]; simpl in H; rewrite H; simpl;
      auto using Evolves_refl, Evolves_markAll.
  - apply Evolves_markAll.
  - rewrite syncWithChain_run.
    destruct (contractService w); simpl; [|apply Evolves_refl].
    destruct (nothingToSync w); simpl; [apply Evolves_refl|].
    destruct (ContractService.getAccountUpdatedEvents _ _ _); simpl;
      [apply Evolves_checkSpentNotes | apply Evolves_refl].
Qed.

Lemma run_lastSyncedBlock (env : Env) (op : Operation) (w : t T) :
  op <> Sync ->
  lastSyncedBlock (state (run env op w)) = lastSyncedBlock (state w).
Proof.
  destruct op as [token amount commitment|token amount receiver spending
                 |token outputs|nullifiers|]; simpl; intros Hop.
  - destruct (executeDeposit_outcome env token amount commitment w)
      as [H|[H|(note & _ & H)]]; simpl in H; rewrite H; reflexivity.
  - destruct (executeWithdraw_outcome env token amount receiver spending w)
      as [H|H]; simpl in H; rewrite H; reflexivity.
  - destruct (executeTransaction_wallet env token outputs w)
      as [H|H]; simpl in H; rewrite H; reflexivity.
  - reflexivity.
  - congruence.
Qed.

(** The watermark after [syncWithChain], in every case. *)
Lemma syncWithChain_lastSyncedBlock (env : Env) (w : t T) :
  lastSyncedBlock (state (fst (syncWithChain env w))) =
  match contractService w with
  | None => lastSyncedBlock (state w)
  | Some _ =>
      if nothingToSync w then lastSyncedBlock (state w)
      else
        match ContractService.getAccountUpdatedEvents (world env)
                (lastSyncedBlock (state w)) ContractService.latest with
        | Threw _ => lastSyncedBlock (state w)
        | Returned events => nextBlockAfter events (lastSyncedBlock (state w))
        end
  end.
Proof.
  rewrite syncWithChain_run.
  destruct (contractService w); [|reflexivity].
  destruct (nothingToSync w); [reflexivity|].
  destruct (ContractService.getAccountUpdatedEvents _ _ _); [|reflexivity].
  simpl. apply applyEvents_lastSyncedBlock.
Qed.

Lemma nextBlockAfter_last (events : list ContractService.AccountUpdatedEvent)
      (e : ContractService.AccountUpdatedEvent) (current : Z) :
  nextBlockAfter (events ++ [e]) current = ContractService.blockNumber e + 1.
Proof. unfold nextBlockAfter. rewrite rev_app_distr. reflexivity. Qed.

Lemma nextBlockAfter_bound (events : list ContractService.AccountUpdatedEvent)
      (current : Z) :
  Forall (fun e => current <= ContractService.blockNumber e) events ->
  current <= nextBlockAfter events current.
Proof.
  intros H. destruct events as [|e0 events] using rev_ind.
  - unfold nextBlockAfter; simpl; lia.
  - rewrite nextBlockAfter_last. apply Forall_app in H. destruct H as [_ H].
    inversion H; subst; lia.
Qed.

Lemma runAll_snoc (history : list (Env * Operation)) (env : Env) (op : Operation)
      (w : t T) :
  runAll (history ++ [(env, op)]) w = run env op (runAll history w).
Proof. unfold runAll. rewrite fold_left_app. reflexivity. Qed.

(** C6.  Along any history of deposits, withdrawals, transfers, calls of
    [markNotesSpent] and syncs, whatever the collaborators answer, the note
    list evolves by flips of [spent] from false to true and by additions
    at its end: every note stays at its position with its other fields as
    they were, a spent note is never changed again, and no note goes
    away. *)
Theorem notes_only_become_spent :
  forall (history : list (Env * Operation)) (w : t T),
    let w' := runAll history w in
    Evolves (notes (state w)) (notes (state w')) /\
    (List.length (notes (state w)) <= List.length (notes (state w')))%nat /\
    (forall i n,
        nth_error (notes (state w)) i = Some n ->
        exists n',
          nth_error (notes (state w')) i = Some n' /\
          (n' = n \/ (Note.spent n = false /\ n' = Note.markSpent n))).
Proof.
  intros history w w'.
  assert (H : Evolves (notes (state w)) (notes (state w'))).
  { subst w'. induction history as [|[env op] history IH] using rev_ind.
    - apply Evolves_refl.
    - rewrite runAll_snoc. eapply Evolves_trans; [exact IH | apply run_notes]. }
  split; [exact H|]. split; [now apply Evolves_length|].
  intros i n Hn. destruct (Evolves_nth _ _ H i n Hn) as (n' & Hn' & Hstep).
  exists n'. split; [exact Hn' | exact Hstep].
Qed.

Lemma syncWithChain_from_honest (env : Env) (w : t T) :
  ContractService.honoursFromBlock (world env) ->
  lastSyncedBlock (state w) <= lastSyncedBlock (state (fst (syncWithChain env w))).
Proof.
  intros Hhon. rewrite syncWithChain_lastSyncedBlock.
  destruct (contractService w); [|lia].
  destruct (nothingToSync w); [lia|].
  destruct (ContractService.getAccountUpdatedEvents _ _ _) as [events|e] eqn:Hev; [|lia].
  apply nextBlockAfter_bound.
  destruct (ContractServiceFacts.events_not_below _ _ _ _ Hhon Hev) as (cur & _ & Hall).
  eapply Forall_impl; [|exact Hall]. cbv beta. intros e He.
  pose proof (ContractServiceFacts.actualFromBlock_ge cur (lastSyncedBlock (state w))
                ContractService.latest). lia.
Qed.

(** C7 (as amended).  No deposit, withdrawal, transfer or call of
    [markNotesSpent] touches [lastSyncedBlock].  [syncWithChain] sets it to
    one past the block number of the last event returned, and leaves it
    as it is when no event is returned, when the sync is skipped and when
    the events cannot be fetched.  Hence along a history in which every
    sync talks to a node that returns no log below the requested
    [fromBlock], the watermark never decreases. *)
Theorem lastSyncedBlock_monotone :
  forall (history : list (Env * Operation)) (w : t T),
    (Forall (fun step => snd step = Sync ->
                         ContractService.honoursFromBlock (world (fst step))) history ->
     lastSyncedBlock (state w) <= lastSyncedBlock (state (runAll history w))) /\
    (forall env op, op <> Sync ->
       lastSyncedBlock (state (run env op w)) = lastSyncedBlock (state w)) /\
    (forall env,
       lastSyncedBlock (state (run env Sync w)) =
       match contractService w with
       | None => lastSyncedBlock (state w)
       | Some _ =>
           if nothingToSync w then lastSyncedBlock (state w)
           else
             match ContractService.getAccountUpdatedEvents (world env)
                     (lastSyncedBlock (state w)) ContractService.latest with
             | Threw _ => lastSyncedBlock (state w)
             | Returned [] => lastSyncedBlock (state w)
             | Returned (first :: more) =>
                 ContractService.blockNumber (last more first) + 1
             end
       end).
Proof.
  intros history w. repeat split.
  - induction history as [|[env op] history IH] using rev_ind; intros Hall.
    + simpl. lia.
    + apply Forall_app in Hall. destruct Hall as [Hall Hlast].
      specialize (IH Hall). rewrite runAll_snoc.
      inversion Hlast as [|? ? Hop _]; subst. simpl in Hop.
      destruct op as [token amount commitment|token amount receiver spending
                     |token outputs|nullifiers|];
        try (rewrite run_lastSyncedBlock by discriminate; exact IH).
      simpl. pose proof (syncWithChain_from_honest env (runAll history w) (Hop eq_refl)).
      lia.
  - intros env op. apply run_lastSyncedBlock.
  - intros env. simpl. rewrite syncWithChain_lastSyncedBlock.
    destruct (contractService w); [|reflexivity].
    destruct (nothingToSync w); [reflexivity|].
    destruct (ContractService.getAccountUpdatedEvents _ _ _) as [events|e];
      [|reflexivity].
    destruct events as [|first more]; [reflexivity|].
    destruct (exists_last (l := first :: more)) as (front & e & Heq); [discriminate|].
    rewrite Heq at 1. rewrite nextBlockAfter_last.
    f_equal. f_equal.
    assert (Hl : last (first :: more) first = e).
    { rewrite Heq. apply last_last. }
    destruct more as [|m more']; symmetry; exact Hl.
Qed.

(** ** Failed sync attempts *)

Lemma syncBody_run (env : Env) (w : t T) :
  syncBody env w =
  if nothingToSync w then (w, Returned tt)
  else
    match ContractService.getAccountUpdatedEvents (world env)
            (lastSyncedBlock (state w)) ContractService.latest with
    | Threw e => (w, Threw e)
    | Returned events =>
        (setNotes (fst (checkSpentNotes (world env) 0 (notes (state w))))
                  (applyEvents events w),
         snd (checkSpentNotes (world env) 0 (notes (state w))))
    end.
Proof.
  unfold syncBody, applyEvents, nothingToSync. unfold_method. simpl.
  destruct (Nat.eqb _ 0 && _); [reflexivity|].
  destruct (ContractService.getAccountUpdatedEvents _ _ _) as [events|e];
    [|reflexivity].
  simpl.
  destruct (0 <? Z.of_nat (List.length events)); simpl;
    destruct (checkSpentNotes (world env) 0 (notes (state w))) as [ns [[]|e]];
    reflexivity.
Qed.

Lemma sameEvents_fetch (world1 world2 : ContractService.World) (fromBlock : Z)
      (toBlock : ContractService.ToBlock) :
  ContractService.sameEvents world1 world2 ->
  ContractService.getAccountUpdatedEvents world1 fromBlock toBlock
  = ContractService.getAccountUpdatedEvents world2 fromBlock toBlock.
Proof.
  intros [Hblock Hlogs]. unfold ContractService.getAccountUpdatedEvents.
  rewrite Hblock. destruct (await _); simpl; [|reflexivity].
  rewrite Hlogs. reflexivity.
Qed.

(** Two wallets that differ in their notes only, and whose notes a
    complete pass over the register brings to the same list, are the same
    wallet after a sync attempt that completes. *)
Lemma sync_joins (env' : Env) (used' : Hex -> bool) (nsA nsB : list Note.t)
      (w0 : t T) :
  ContractService.alwaysAnswersFrom used' (world env') ->
  List.length nsA = List.length nsB ->
  reconcile used' nsA = reconcile used' nsB ->
  contractService w0 <> None ->
  syncCompletes env' (setNotes nsA w0) ->
  fst (syncWithChain env' (setNotes nsA w0))
  = fst (syncWithChain env' (setNotes nsB w0)).
Proof.
  intros Hall Hlen Hrec Hcs Hdone.
  unfold syncCompletes in Hdone. rewrite syncBody_run in Hdone.
  rewrite !syncWithChain_run.
  change (contractService (setNotes nsA w0)) with (contractService w0).
  change (contractService (setNotes nsB w0)) with (contractService w0).
  destruct (contractService w0) as [cs|]; [|congruence].
  assert (Hskip : nothingToSync (setNotes nsB w0) = nothingToSync (setNotes nsA w0)).
  { unfold nothingToSync. simpl. rewrite Hlen. reflexivity. }
  rewrite Hskip.
  destruct (nothingToSync (setNotes nsA w0)) eqn:Hn.
  - simpl. unfold nothingToSync in Hn. simpl in Hn.
    apply andb_true_iff in Hn. destruct Hn as [Hn _].
    apply Nat.eqb_eq in Hn.
    destruct nsA; [|discriminate]. destruct nsB; [|discriminate]. reflexivity.
  - change (lastSyncedBlock (state (setNotes nsB w0)))
      with (lastSyncedBlock (state (setNotes nsA w0))).
    destruct (ContractService.getAccountUpdatedEvents _ _ _) as [events|e];
      [|discriminate].
    simpl. rewrite !(checkSpentNotes_complete used' _ _ _ Hall). simpl.
    rewrite !applyEvents_setNotes, !setNotes_setNotes, Hrec. reflexivity.
Qed.

(** C4.  [syncWithChain] never throws: an error met on the way is caught.
    An error while the events are fetched leaves the wallet as it was.
    Once the events are fetched they are applied in full (leaves and
    watermark), and whatever happens to the nullifier queries the notes
    only evolve.  An attempt that was cut short by an error is made up for
    by a later attempt that completes: the wallet is then the one that the
    first attempt would have led to without the error. *)
Theorem syncWithChain_swallows_errors :
  forall (env : Env) (w : t T),
    snd (syncWithChain env w) = Returned tt /\
    (forall e,
        ContractService.getAccountUpdatedEvents (world env)
          (lastSyncedBlock (state w)) ContractService.latest = Threw e ->
        fst (syncWithChain env w) = w) /\
    (forall events,
        contractService w <> None ->
        nothingToSync w = false ->
        ContractService.getAccountUpdatedEvents (world env)
          (lastSyncedBlock (state w)) ContractService.latest = Returned events ->
        exists ns,
          fst (syncWithChain env w) = setNotes ns (applyEvents events w) /\
          Evolves (notes (state w)) ns) /\
    (forall (used used' : Hex -> bool) (envDone env' : Env),
        ContractService.answersFrom used (world env) ->
        ContractService.sameEvents (world env) (world envDone) ->
        ContractService.alwaysAnswersFrom used (world envDone) ->
        ContractService.alwaysAnswersFrom used' (world env') ->
        (forall h, used h = true -> used' h = true) ->
        syncCompletes env' (fst (syncWithChain env w)) ->
        fst (syncWithChain env' (fst (syncWithChain env w)))
        = fst (syncWithChain env' (fst (syncWithChain envDone w)))).
Proof.
  intros env w. repeat split.
  - rewrite syncWithChain_run.
    destruct (contractService w); [|reflexivity].
    destruct (nothingToSync w); [reflexivity|].
    destruct (ContractService.getAccountUpdatedEvents _ _ _); reflexivity.
  - intros e He. rewrite syncWithChain_run, He.
    destruct (contractService w); [|reflexivity].
    destruct (nothingToSync w); reflexivity.
  - intros events Hcs Hskip Hev. rewrite syncWithChain_run, Hev, Hskip.
    destruct (contractService w); [|congruence].
    eexists. split; [reflexivity|]. apply Evolves_checkSpentNotes.
  - intros used used' envDone env' Hans Hsame Hall Hall' Hsub Hdone.
    revert Hdone. rewrite (syncWithChain_run env w), (syncWithChain_run envDone w).
    rewrite <- (sameEvents_fetch _ _ _ _ Hsame).
    destruct (contractService w) as [cs|] eqn:Hcs; [|reflexivity].
    destruct (nothingToSync w); [reflexivity|].
    destruct (ContractService.getAccountUpdatedEvents _ _ _) as [events|e];
      [|reflexivity].
    simpl. rewrite (checkSpentNotes_complete used _ _ _ Hall). simpl.
    intros Hdone. eapply sync_joins; eauto.
    + rewrite checkSpentNotes_length. unfold reconcile. now rewrite length_map.
    + rewrite (reconcile_after_partial used used' _ _ _ Hans Hsub). reflexivity.
    + unfold applyEvents. destruct (0 <? _); simpl; congruence.
Qed.

End Wallet.

End WalletFacts.

(* ====================================================================== *)
(** * The theorems at work on concrete wallets *)
(* ====================================================================== *)

Module Scenarios.
Import Selection Ledger PrivacyWallet Demo.
Local Open Scope string_scope.

Lemma toyHash_bytes (message : list Z) : Forall Bytes.isByte (toyHash message).
Proof.
  unfold toyHash, Bytes.isByte. repeat constructor; try lia;
    apply Z.mod_pos_bound; lia.
Qed.

(** Coin selection takes the largest notes first and stops when the target
    is reached. *)
Example select_largest_first :
  selectNotesForAmount
    [note 10 "0x01" false; note 40 "0x02" false; note 25 "0x03" true; note 30 "0x04" false]
    (toUpperCase usdt) 60
  = ([note 40 "0x02" false; note 30 "0x04" false], 70).
Proof. reflexivity. Qed.

Example select_all_when_short :
  selectNotesForAmount [note 10 "0x01" false; note 40 "0x02" false] usdt 60
  = ([note 40 "0x02" false; note 10 "0x01" false], 50).
Proof. reflexivity. Qed.

(** Nullifiers are matched without regard to case. *)
Example mark_ignores_case :
  markAll ["0xAB"] [note 10 "0x01" false; note 40 "0xab" false]
  = [note 10 "0x01" false; note 40 "0xab" true].
Proof. reflexivity. Qed.

(** C2: an instance of the amended statement.  A wallet with a contract
    service and one note of 5 is asked to pay 7. *)
Lemma executeTransaction_insufficient_balance_witness :
  let w := wallet [note 5 "0x01" false] 0 (Some service) in
  let r := executeTransaction (env (node 100 [] (fun _ => false) ContractService.fetchThrew))
                              usdt [pay 7] w in
  (snd r = Threw InsufficientBalance <-> unspentBalance (notes (state w)) usdt < 7) /\
  (snd r = Threw InsufficientBalance -> r = (w, Threw InsufficientBalance)).
Proof.
  apply (WalletFacts.executeTransaction_insufficient_balance
           (env (node 100 [] (fun _ => false) ContractService.fetchThrew))
           usdt [pay 7] (wallet [note 5 "0x01" false] 0 (Some service))).
  - discriminate.
  - repeat constructor. simpl. lia.
Defined.

(** C2, as first stated, fails in two ways.  A wallet without contract
    service throws [ContractServiceNotInitialized] although its balance, 0,
    is below the requested 1.  And with a negative note amount the balance
    can be below the request while the selection covers it: with notes of 5
    and -3 the balance is 2, a request of 4 selects the note of 5, and the
    call returns. *)
Lemma executeTransaction_insufficient_balance_counterexample :
  (unspentBalance [] usdt < 1 /\
   snd (executeTransaction (env (node 100 [] (fun _ => false) ContractService.fetchThrew))
          usdt [pay 1] (wallet [] 0 None))
   = Threw ContractServiceNotInitialized) /\
  (unspentBalance [note 5 "0x01" false; note (-3) "0x02" false] usdt < 4 /\
   snd (executeTransaction (env (node 100 [] (fun _ => false) ContractService.fetchThrew))
          usdt [pay 4]
          (wallet [note 5 "0x01" false; note (-3) "0x02" false] 0 (Some service)))
   = Returned "0xd2").
Proof. repeat split; reflexivity. Qed.


(** With the mock proof the transfer goes through and the input is spent;
    the outputs are not added. *)
Example transfer_marks_inputs :
  executeTransaction
    (env (node 100 [] (fun _ => false) ContractService.fetchThrew))
    usdt [pay 7] (wallet [note 10 "0x01" false; note 3 "0x02" false] 0 (Some service))
  = (wallet [note 10 "0x01" true; note 3 "0x02" false] 0 (Some service),
     Returned "0xd2").
Proof. reflexivity. Qed.

(** C4: three unspent notes, the first and the third used on chain.  In the
    first attempt the query for the second note gets no answer; the retry
    completes and leads to the wallet of an attempt without the error. *)
Lemma syncWithChain_retry_witness :
  let used := isOneOf ["0x01"; "0x03"] in
  let chain := [log "0xc1" 40; log "0xc2" 60] in
  let w := wallet [note 10 "0x01" false; note 20 "0x02" false; note 30 "0x03" false]
                  50 (Some service) in
  let failing := env (flakyNode 1 100 chain used ContractService.fetchThrew) in
  let sound := env (node 100 chain used ContractService.fetchThrew) in
  fst (syncWithChain sound (fst (syncWithChain failing w)))
  = fst (syncWithChain sound (fst (syncWithChain sound w))).
Proof.
  intros used chain w failing sound.
  apply (proj2 (proj2 (proj2 (WalletFacts.syncWithChain_swallows_errors failing w)))
           used used sound sound).
  - intros position nullifier b. simpl.
    destruct (Nat.eqb position 1); [discriminate|]. intros H. injection H as <-. reflexivity.
  - split; reflexivity.
  - intros position nullifier. reflexivity.
  - intros position nullifier. reflexivity.
  - auto.
  - reflexivity.
Defined.

Example sync_cut_short :
  fst (syncWithChain
         (env (flakyNode 1 100 [log "0xc1" 40; log "0xc2" 60]
                         (isOneOf ["0x01"; "0x03"]) ContractService.fetchThrew))
         (wallet [note 10 "0x01" false; note 20 "0x02" false; note 30 "0x03" false]
                 50 (Some service)))
  = mkWallet (mkState (Some testKeys)
                      [note 10 "0x01" true; note 20 "0x02" false; note 30 "0x03" false]
                      ["0xc2"] 61 true)
             (Some service).
Proof. reflexivity. Qed.

Example sync_retried :
  fst (syncWithChain
         (env (node 100 [log "0xc1" 40; log "0xc2" 60]
                    (isOneOf ["0x01"; "0x03"]) ContractService.fetchThrew))
         (mkWallet (mkState (Some testKeys)
                      [note 10 "0x01" true; note 20 "0x02" false; note 30 "0x03" false]
                      ["0xc2"] 61 true)
                   (Some service)))
  = mkWallet (mkState (Some testKeys)
                      [note 10 "0x01" true; note 20 "0x02" false; note 30 "0x03" true]
                      ["0xc2"] 61 true)
             (Some service).
Proof. reflexivity. Qed.

(** An empty wallet that never synced makes no request at all. *)
Example sync_skipped :
  syncWithChain (env (looseNode 100 [log "0xc1" 5])) (wallet [] 0 (Some service))
  = (wallet [] 0 (Some service), Returned tt).
Proof. reflexivity. Qed.

(** C6: a history on a concrete wallet. *)
Example history_marks_and_appends :
  notes (state (runAll
    [ (env (node 100 [] (fun _ => false) ContractService.fetchThrew),
       Deposit usdt 8 (Types.mkCommitment "0xc9" 8 "0xb9"));
      (env (node 100 [] (fun _ => false) ContractService.fetchThrew),
       Transfer usdt [pay 7]);
      (env (node 100 [] (isOneOf ["0x02"]) ContractService.fetchThrew), Sync) ]
    (wallet [note 10 "0x01" false; note 3 "0x02" false] 0 (Some service))))
  = [note 10 "0x01" true; note 3 "0x02" true;
     Note.mk "0xc9" 8 "0xb9" usdt 0 "0xc9" false 100].
Proof. reflexivity. Qed.

(** C7: an instance of the amended statement, with a node that honours
    [fromBlock]. *)
Lemma lastSyncedBlock_monotone_witness :
  let sound := env (node 100 [log "0xc1" 40; log "0xc2" 60] (fun _ => false)
                         ContractService.fetchThrew) in
  let w := wallet [note 10 "0x01" false] 50 (Some service) in
  lastSyncedBlock (state w)
  <= lastSyncedBlock (state (runAll [(sound, Sync); (sound, MarkNotesSpent ["0x01"])] w)).
Proof.
  intros sound w.
  apply (proj1 (WalletFacts.lastSyncedBlock_monotone
                  [(sound, Sync); (sound, MarkNotesSpent ["0x01"])] w)).
  repeat constructor; intros _;
    apply (ContractServiceFacts.nodeGetLogs_honours [log "0xc1" 40; log "0xc2" 60]);
    reflexivity.
Defined.

(** C7, as first stated, fails.  The watermark follows the last event
    whatever its block: a node that returns a log of block 5 to a wallet
    synced up to block 100 brings the watermark down to 6.  And
    [clearStorage], in a browser, puts it back to 0. *)
Lemma lastSyncedBlock_monotone_counterexample :
  lastSyncedBlock (state (wallet [note 10 "0x01" false] 100 (Some service))) = 100 /\
  lastSyncedBlock
    (state (run (env (looseNode 200 [log "0xc1" 5])) Sync
                (wallet [note 10 "0x01" false] 100 (Some service)))) = 6 /\
  lastSyncedBlock
    (state (fst (clearStorage browserStorage
                   (wallet [note 10 "0x01" false] 100 (Some service))))) = 0.
Proof. repeat split. Qed.

(** C10: a node at block 20000 with logs at blocks 5 and 15000, queried from
    block 0. *)
Lemma getAccountUpdatedEvents_window_witness :
  let world := node 20000 [log "0xc1" 5; log "0xc2" 15000] (fun _ => false)
                    ContractService.fetchThrew in
  ContractService.actualFromBlock 20000 0 ContractService.latest
    = Z.max 0 (20000 - 10000) /\
  20000 - 10000 <= ContractService.actualFromBlock 20000 0 ContractService.latest /\
  ContractService.getAccountUpdatedEvents world 0 ContractService.latest
    = bind (await (ContractService.getLogs world (Z.max 0 (20000 - 10000))
                     ContractService.latest))
           (fun logs => Returned (map ContractService.eventOfLog logs)) /\
  (forall events,
      ContractService.getAccountUpdatedEvents world 0 ContractService.latest
        = Returned events ->
      Forall (fun e => 20000 - 10000 <= ContractService.blockNumber e) events).
Proof.
  intros world.
  apply (ContractServiceFacts.getAccountUpdatedEvents_window world 0 20000).
  - lia.
  - reflexivity.
  - apply (ContractServiceFacts.nodeGetLogs_honours [log "0xc1" 5; log "0xc2" 15000]).
    reflexivity.
Defined.

Example old_event_dropped :
  ContractService.getAccountUpdatedEvents
    (node 20000 [log "0xc1" 5; log "0xc2" 15000] (fun _ => false)
          ContractService.fetchThrew)
    0 ContractService.latest
  = Returned [ContractService.mkEvent "0xc2" "0x" 15000 "0xf0"].
Proof. reflexivity. Qed.

(** C8: the derivation run with stand-ins for the hash and the curve: a
    "hash" that returns the length of its input and 7, and a "curve" whose
    points are the scalars themselves. *)
Lemma deriveKeyPairFromSignature_witness :
  KeyDerivation.deriveKeyPairFromSignature toyHash toyPublicKey "0x1234" KeyDerivation.view
  = Returned (KeyDerivation.mkKeyPair (KeyDerivation.bigIntToBytes 519)
                                      (KeyDerivation.bigIntToBytes 519)).
Proof.
  apply (proj2 (proj2 (KeyDerivationFacts.deriveKeyPairFromSignature_spec
                         toyHash toyPublicKey Z (fun k => k) KeyDerivation.bigIntToBytes
                         toyHash_bytes (fun k _ => eq_refl)
                         "0x1234" [18; 52] KeyDerivation.view eq_refl))).
  discriminate.
Defined.

(** C5: the note found for ["0xAB"] is the one with nullifier ["0xab"]; it is
    spent already, and the call leaves the wallet as it is. *)
Lemma markNotesSpent_idempotent_witness :
  fst (markNotesSpent ["0xAB"]
         (wallet [note 10 "0x01" false; note 40 "0xab" true] 0 (Some service)))
  = wallet [note 10 "0x01" false; note 40 "0xab" true] 0 (Some service).
Proof.
  apply (proj2 (proj2 (proj2 (WalletFacts.markNotesSpent_idempotent ["0xAB"]
           (wallet [note 10 "0x01" false; note 40 "0xab" true] 0 (Some service)))))).
  intros h i n [<-|[]] Hfind. simpl in Hfind. injection Hfind as <-.
  simpl. intros H. injection H as <-. reflexivity.
Defined.

Example mark_twice :
  markAll ["0xAB"; "0x01"] (markAll ["0xAB"; "0x01"]
    [note 10 "0x01" false; note 40 "0xab" false; note 5 "0xAB" false])
  = [note 10 "0x01" true; note 40 "0xab" true; note 5 "0xAB" false].
Proof. reflexivity. Qed.

End Scenarios.

(* ====================================================================== *)
(** * More on coin selection *)
(* ====================================================================== *)

Module SelectionMore.
Import Selection SelectionFacts.

Lemma accumulate_stops (target : Z) (avail : list Note.t) :
  forall selected total taken,
    fst (accumulate target avail selected total) = selected ++ taken ->
    forall init lastNote,
      taken = init ++ [lastNote] -> total + totalAmount init < target.
Proof.
  induction avail as [|n avail IH]; intros selected total taken; simpl.
  - intros H init lastNote ->.
    rewrite <- (app_nil_r selected) in H at 1. apply app_inv_head in H.
    destruct init; discriminate.
  - destruct (Z.geb_spec total target) as [Hge|Hlt]; simpl.
    + intros H init lastNote ->.
      rewrite <- (app_nil_r selected) in H at 1. apply app_inv_head in H.
      destruct init; discriminate.
    + intros H init lastNote ->.
      destruct (accumulate_prefix target avail (selected ++ [n]) (total + Note.amount n))
        as (more & rest & _ & Hacc & _).
      rewrite Hacc in H. simpl in H. rewrite <- app_assoc in H.
      apply app_inv_head in H. simpl in H.
      destruct init as [|m init].
      * simpl. rewrite Z.add_0_r. exact Hlt.
      * simpl in H. injection H as <- Hmore. simpl.
        specialize (IH (selected ++ [n]) (total + Note.amount n) (init ++ [lastNote])).
        rewrite Hacc in IH. simpl in IH. rewrite Hmore in IH.
        specialize (IH eq_refl init lastNote eq_refl). lia.
Qed.

(** X1.  A target that is zero or negative selects nothing: the result is the
    empty list with total 0, whatever the wallet holds. *)
Theorem selectNotesForAmount_nothing_to_cover :
  forall (notes : list Note.t) (token : Address) (target : Z),
    target <= 0 -> selectNotesForAmount notes token target = ([], 0).
Proof.
  intros notes token target Htarget. unfold selectNotesForAmount.
  destruct (sort (getNotesForToken notes token)) as [|n rest]; [reflexivity|].
  simpl. destruct (Z.geb_spec 0 target); [reflexivity|lia].
Qed.

(** X2.  The selection stops as soon as the target is covered: without its
    last note the selected amounts stay below the target, so no note is
    taken once the running total has reached the target. *)
Theorem selectNotesForAmount_stops_when_covered :
  forall (notes : list Note.t) (token : Address) (target : Z)
         (init : list Note.t) (lastNote : Note.t),
    fst (selectNotesForAmount notes token target) = init ++ [lastNote] ->
    sumBy Note.amount init < target /\
    snd (selectNotesForAmount notes token target)
      = sumBy Note.amount init + Note.amount lastNote.
Proof.
  intros notes token target init lastNote Hsel.
  rewrite sumBy_amount. split.
  - pose proof (accumulate_stops target (sort (getNotesForToken notes token)) [] 0
                  (init ++ [lastNote]) Hsel init lastNote eq_refl) as H.
    simpl in H. exact H.
  - destruct (selectNotesForAmount_split notes token target)
      as (taken & rest & Heq & _).
    rewrite Heq in *. simpl in *. subst taken.
    rewrite totalAmount_app. simpl. lia.
Qed.

Lemma Descending_tail (x : Note.t) (l : list Note.t) :
  Descending (x :: l) -> Descending l.
Proof. inversion 1; subst; [constructor | assumption]. Qed.

Lemma Descending_head (x : Note.t) (l : list Note.t) :
  Descending (x :: l) -> forall y, In y l -> Note.amount y <= Note.amount x.
Proof.
  revert x. induction l as [|z l IH]; intros x H y Hy; [contradiction|].
  inversion H as [| |? ? ? Hle Hd]; subst.
  destruct Hy as [<-|Hy]; [exact Hle|].
  specialize (IH z Hd y Hy). lia.
Qed.

Lemma Descending_split (a b : list Note.t) :
  Descending (a ++ b) ->
  forall x y, In x a -> In y b -> Note.amount y <= Note.amount x.
Proof.
  induction a as [|h a IH]; intros H x y Hx Hy; [contradiction|].
  simpl in H. destruct Hx as [<-|Hx].
  - apply (Descending_head _ _ H). apply in_or_app. now right.
  - apply IH; auto. eapply Descending_tail; eauto.
Qed.

(** X3.  Largest first: the unspent notes of the token are the selected
    notes together with the notes left out, and no note left out has a
    larger amount than a selected one. *)
Theorem selectNotesForAmount_largest_first :
  forall (notes : list Note.t) (token : Address) (target : Z),
  exists leftOut,
    Permutation (fst (selectNotesForAmount notes token target) ++ leftOut)
                (getNotesForToken notes token) /\
    forall chosen other,
      In chosen (fst (selectNotesForAmount notes token target)) ->
      In other leftOut ->
      Note.amount other <= Note.amount chosen.
Proof.
  intros notes token target.
  destruct (selectNotesForAmount_split notes token target)
    as (taken & rest & Heq & Hperm & Hdesc & _).
  rewrite Heq. simpl. exists rest. split; [exact Hperm|].
  intros chosen other. apply Descending_split. exact Hdesc.
Qed.

End SelectionMore.

(* ====================================================================== *)
(** * More on marking notes spent *)
(* ====================================================================== *)

Module LedgerMore.
Import Ledger LedgerFacts.

Lemma markFirst_elsewhere (h : Hex) (l : list Note.t) (i : nat) :
  findIndex h l <> Some i -> nth_error (markFirst h l) i = nth_error l i.
Proof.
  revert i. induction l as [|m r IH]; intros i; simpl; [reflexivity|].
  destruct (eqIgnoreCase (Note.nullifier m) h).
  - destruct i; [congruence|reflexivity].
  - destruct i as [|i]; [reflexivity|]. simpl. intros H. apply IH.
    intros Hf. apply H. rewrite Hf. reflexivity.
Qed.

Lemma findIndex_first (h : Hex) (l : list Note.t) (i : nat) :
  findIndex h l = Some i ->
  forall j m, (j < i)%nat -> nth_error l j = Some m ->
              eqIgnoreCase (Note.nullifier m) h = false.
Proof.
  revert i. induction l as [|x r IH]; intros i; simpl; [discriminate|].
  destruct (eqIgnoreCase (Note.nullifier x) h) eqn:E.
  - intros [= <-] j m Hj. lia.
  - destruct (findIndex h r) as [k|]; simpl; [|discriminate].
    intros [= <-] j m Hj. destruct j as [|j]; simpl.
    + intros [= <-]. exact E.
    + apply (IH k eq_refl). lia.
Qed.

Lemma findIndex_matches (h : Hex) (l : list Note.t) (i : nat) (n : Note.t) :
  findIndex h l = Some i -> nth_error l i = Some n ->
  eqIgnoreCase (Note.nullifier n) h = true.
Proof.
  revert i. induction l as [|x r IH]; intros i; simpl; [discriminate|].
  destruct (eqIgnoreCase (Note.nullifier x) h) eqn:E.
  - intros [= <-]. simpl. intros [= <-]. exact E.
  - destruct (findIndex h r) as [k|]; simpl; [|discriminate].
    intros [= <-]. simpl. apply IH. reflexivity.
Qed.

(** A note is shadowed when an earlier note has the same nullifier up to
    case: [find] never returns it. *)
Lemma shadowed_not_found (h : Hex) (l : list Note.t) (i j : nat) (n m : Note.t) :
  nth_error l i = Some n -> nth_error l j = Some m -> (j < i)%nat ->
  toLowerCase (Note.nullifier m) = toLowerCase (Note.nullifier n) ->
  findIndex h l <> Some i.
Proof.
  intros Hn Hm Hlt Hsame Hfind.
  pose proof (findIndex_matches h l i n Hfind Hn) as Hi.
  pose proof (findIndex_first h l i Hfind j m Hlt Hm) as Hj.
  unfold eqIgnoreCase in *. rewrite Hsame in Hj. congruence.
Qed.

Lemma nth_error_erase (l l' : list Note.t) (i : nat) (n : Note.t) :
  map Note.markSpent l = map Note.markSpent l' ->
  nth_error l i = Some n ->
  exists n', nth_error l' i = Some n' /\ Note.nullifier n' = Note.nullifier n.
Proof.
  intros He Hn.
  assert (H : nth_error (map Note.markSpent l') i = Some (Note.markSpent n)).
  { rewrite <- He, nth_error_map, Hn. reflexivity. }
  rewrite nth_error_map in H. destruct (nth_error l' i) as [n'|]; [|discriminate].
  exists n'. split; [reflexivity|]. simpl in H.
  change (Note.nullifier (Note.markSpent n') = Note.nullifier (Note.markSpent n)).
  congruence.
Qed.

(** X4.  When two notes carry the same nullifier up to case, only the first
    of them can ever be marked: [markNotesSpent] leaves the later one as it
    is, whatever nullifiers it is given. *)
Theorem markNotesSpent_never_marks_shadowed :
  forall (nullifiers : list Hex) (notes : list Note.t) (i j : nat) (n m : Note.t),
    nth_error notes i = Some n ->
    nth_error notes j = Some m ->
    (j < i)%nat ->
    toLowerCase (Note.nullifier m) = toLowerCase (Note.nullifier n) ->
    nth_error (markAll nullifiers notes) i = Some n.
Proof.
  induction nullifiers as [|h hs IH]; intros notes i j n m Hn Hm Hlt Hsame; simpl.
  - exact Hn.
  - assert (Hi : nth_error (markFirst h notes) i = Some n).
    { rewrite markFirst_elsewhere; [exact Hn|].
      eapply shadowed_not_found; eauto. }
    destruct (nth_error_erase notes (markFirst h notes) j m
                (eq_sym (markFirst_erase h notes)) Hm) as (m' & Hm' & Hnull).
    apply (IH (markFirst h notes) i j n m' Hi Hm' Hlt).
    rewrite Hnull. exact Hsame.
Qed.

Lemma markAll_app (a b : list Hex) (l : list Note.t) :
  markAll (a ++ b) l = markAll b (markAll a l).
Proof. unfold markAll. apply fold_left_app. Qed.

(** X5.  The effect of [markNotesSpent] depends on which nullifiers it is
    given, not on their order: two lists that are permutations of each other
    mark the same notes, and marking [a ++ b] is marking [a] and then [b]. *)
Theorem markNotesSpent_order_irrelevant :
  forall (a b : list Hex) (notes : list Note.t),
    (Permutation a b -> markAll a notes = markAll b notes) /\
    markAll (a ++ b) notes = markAll b (markAll a notes) /\
    markAll (a ++ b) notes = markAll (b ++ a) notes.
Proof.
  intros a b notes.
  assert (Hperm : forall x y, Permutation x y ->
                  forall l, markAll x l = markAll y l).
  { induction 1 as [|h x y Hxy IH|h k x|x y z Hxy IHxy Hyz IHyz]; intros l; simpl.
    - reflexivity.
    - apply IH.
    - rewrite markFirst_comm. reflexivity.
    - rewrite IHxy. apply IHyz. }
  split; [|split].
  - intros H. apply Hperm, H.
  - apply markAll_app.
  - apply Hperm. apply Permutation_app_comm.
Qed.

End LedgerMore.

(* ====================================================================== *)
(** * Balances by token *)
(* ====================================================================== *)

Module BalancesFacts.
Import Selection SelectionFacts Balances.

Lemma sumBy_cons {A} (f : A -> Z) (x : A) (xs : list A) :
  sumBy f (x :: xs) = f x + sumBy f xs.
Proof. unfold sumBy. simpl. apply sumBy_from. Qed.

Lemma totalWhere_cons (p : Address -> bool) (k : Address) (v : Z) (m : JsMap.t) :
  totalWhere p ((k, v) :: m) = (if p k then v else 0) + totalWhere p m.
Proof.
  unfold totalWhere. simpl. destruct (p k); [apply sumBy_cons | reflexivity].
Qed.

(** Raising the balance of a key by [a] raises every total that counts the
    key by [a], and no other. *)
Lemma totalWhere_set (p : Address -> bool) (key : Address) (a : Z) (m : JsMap.t) :
  totalWhere p
    (JsMap.set key (match JsMap.get key m with Some c => c | None => 0 end + a) m)
  = totalWhere p m + (if p key then a else 0).
Proof.
  induction m as [|[k v] r IH]; simpl.
  - rewrite totalWhere_cons. unfold totalWhere, sumBy. simpl. destruct (p key); lia.
  - destruct (String.eqb_spec k key) as [->|Hne].
    + rewrite !totalWhere_cons. destruct (p key); lia.
    + rewrite !totalWhere_cons, IH. lia.
Qed.

Lemma totalWhere_addNote (p : Address -> bool) (m : JsMap.t) (note : Note.t) :
  totalWhere p (addNote m note)
  = totalWhere p m
    + (if negb (Note.spent note) && p (Note.token note) then Note.amount note else 0).
Proof.
  unfold addNote. destruct (Note.spent note); simpl; [lia|].
  apply totalWhere_set.
Qed.

Lemma totalWhere_fold (p : Address -> bool) (notes : list Note.t) (m : JsMap.t) :
  totalWhere p (fold_left addNote notes m)
  = totalWhere p m
    + sumBy Note.amount
        (filter (fun n => negb (Note.spent n) && p (Note.token n)) notes).
Proof.
  revert m. induction notes as [|n notes IH]; intros m; simpl.
  - unfold sumBy. simpl. lia.
  - rewrite IH, totalWhere_addNote.
    destruct (negb (Note.spent n) && p (Note.token n)); [rewrite sumBy_cons|]; lia.
Qed.

Lemma set_keys (key : Address) (value : Z) (m : JsMap.t) :
  JsMap.keys (JsMap.set key value m)
  = if existsb (String.eqb key) (JsMap.keys m) then JsMap.keys m
    else JsMap.keys m ++ [key].
Proof.
  induction m as [|[k v] r IH]; simpl; [reflexivity|].
  rewrite (String.eqb_sym key k).
  destruct (String.eqb_spec k key) as [->|Hne]; simpl; [reflexivity|].
  rewrite IH. destruct (existsb (String.eqb key) (JsMap.keys r)); reflexivity.
Qed.

Lemma set_keys_NoDup (key : Address) (value : Z) (m : JsMap.t) :
  NoDup (JsMap.keys m) -> NoDup (JsMap.keys (JsMap.set key value m)).
Proof.
  intros H. rewrite set_keys.
  destruct (existsb (String.eqb key) (JsMap.keys m)) eqn:E; [exact H|].
  apply NoDup_app; [exact H | repeat constructor; simpl; tauto|].
  intros k Hin [Hk|[]]. subst k.
  assert (existsb (String.eqb key) (JsMap.keys m) = true); [|congruence].
  apply existsb_exists. exists key. split; [exact Hin | apply String.eqb_refl].
Qed.

Lemma getBalanceByToken_keys (notes : list Note.t) (m : JsMap.t) :
  NoDup (JsMap.keys m) -> NoDup (JsMap.keys (fold_left addNote notes m)).
Proof.
  revert m. induction notes as [|n notes IH]; intros m H; simpl; [exact H|].
  apply IH. unfold addNote. destruct (Note.spent n); [exact H|].
  now apply set_keys_NoDup.
Qed.

Lemma totalWhere_key (key : Address) (m : JsMap.t) :
  NoDup (JsMap.keys m) ->
  totalWhere (String.eqb key) m
  = match JsMap.get key m with Some v => v | None => 0 end.
Proof.
  induction m as [|[k v] r IH]; simpl; intros H.
  - reflexivity.
  - inversion H as [|? ? Hnot Hr]; subst. rewrite totalWhere_cons, (String.eqb_sym key k).
    destruct (String.eqb_spec k key) as [->|Hne].
    + assert (Hzero : totalWhere (String.eqb key) r = 0).
      { rewrite (IH Hr). destruct (JsMap.get key r) as [v'|] eqn:G; [|reflexivity].
        exfalso. apply Hnot. clear - G. induction r as [|[k' v''] r IH]; [discriminate|].
        simpl in *. destruct (String.eqb_spec k' key); [now left | right; auto]. }
      lia.
    + rewrite (IH Hr). lia.
Qed.

(** X6.  [getBalanceByToken] has one entry per token as written in the
    notes (keys are compared exactly, so two spellings of an address that
    differ in case are two entries); its values add up to
    [getShieldedBalance]; an entry is the sum of the unspent notes with
    exactly that token; and the entries whose key equals a token up to case
    add up to the balance that [getNotesForToken] and coin selection see for
    that token. *)
Theorem getBalanceByToken_totals :
  forall (notes : list Note.t) (token : Address),
    NoDup (JsMap.keys (getBalanceByToken notes)) /\
    sumBy snd (getBalanceByToken notes) = getShieldedBalance notes /\
    match JsMap.get token (getBalanceByToken notes) with Some v => v | None => 0 end
      = sumBy Note.amount
          (filter (fun n => negb (Note.spent n) && String.eqb token (Note.token n)) notes) /\
    totalWhere (fun key => eqIgnoreCase key token) (getBalanceByToken notes)
      = unspentBalance notes token.
Proof.
  intros notes token. unfold getBalanceByToken.
  assert (Hkeys : NoDup (JsMap.keys (fold_left addNote notes []))).
  { apply getBalanceByToken_keys. constructor. }
  split; [exact Hkeys|]. split; [|split].
  - pose proof (totalWhere_fold (fun _ => true) notes []) as H.
    unfold totalWhere in H.
    assert (Hall : forall (m : JsMap.t), filter (fun _ => true) m = m).
    { induction m as [|e m IHm]; simpl; [reflexivity | now rewrite IHm]. }
    rewrite Hall in H. rewrite H. unfold getShieldedBalance.
    replace (sumBy snd (filter (fun _ : Address * Z => true) [])) with 0 by reflexivity.
    rewrite Z.add_0_l. f_equal.
    apply filter_ext. intros n. apply andb_true_r.
  - rewrite <- (totalWhere_key token _ Hkeys), totalWhere_fold.
    unfold totalWhere, sumBy. simpl. reflexivity.
  - rewrite totalWhere_fold. unfold unspentBalance, getNotesForToken, totalWhere, sumBy.
    simpl. reflexivity.
Qed.

End BalancesFacts.

(* ====================================================================== *)
(** * More on the wallet operations *)
(* ====================================================================== *)

Module WalletMore.
Import Selection SelectionFacts Ledger LedgerFacts PrivacyWallet WalletFacts Swap.

Section Wallet.
Context {T : Type} {tree : MerkleTree.Ops T}.

Lemma getShieldedBalance_total (l : list Note.t) :
  getShieldedBalance l = totalAmount (filter (fun n => negb (Note.spent n)) l).
Proof. unfold getShieldedBalance. apply sumBy_amount. Qed.

Lemma getShieldedBalance_app (a b : list Note.t) :
  getShieldedBalance (a ++ b) = getShieldedBalance a + getShieldedBalance b.
Proof. rewrite !getShieldedBalance_total, filter_app. apply totalAmount_app. Qed.

Lemma waitForTransaction_returned (world : ContractService.World) (hash : Hex)
      (ok : bool) (blk : Z) :
  ContractService.waitForTransaction world hash = Returned (ok, blk) ->
  exists receipt,
    ContractService.waitForTransactionReceipt world hash = Ok receipt /\
    ok = String.eqb (ContractService.status receipt) "success" /\
    blk = ContractService.receipt_blockNumber receipt.
Proof.
  unfold ContractService.waitForTransaction, bind.
  destruct (ContractService.waitForTransactionReceipt world hash) as [receipt|msg];
    simpl; [|discriminate].
  intros [= <- <-]. exists receipt. auto.
Qed.

(** X7.  A deposit that returns has appended exactly one note to the wallet
    and the commitment to the tree: the note is unspent, sits at the leaf
    index the tree announced, carries the amount of the commitment (not the
    [amount] argument), the block number of the receipt and the nullifier
    computed from the spend key; the shielded balance has grown by that
    amount.  A deposit that throws leaves the wallet as it was, except
    when the keys are missing: then the leaf is inserted, no note is added,
    and the call fails on the null keys. *)
Theorem executeDeposit_appends_one_note :
  forall (env : Env) (token : Address) (amount : Z) (commitment : Types.Commitment)
         (w : t T),
    let r := executeDeposit env token amount commitment w in
    let inserted :=
      setMerkleTree (MerkleTree.insertLeaf (merkleTree (state w))
                       (Types.commitment commitment)) w in
    (forall txHash note,
        snd r = Returned (txHash, note) ->
        fst r = setNotes (notes (state w) ++ [note]) inserted /\
        (exists k receipt,
            keys (state w) = Some k /\
            ContractService.waitForTransactionReceipt (world env) txHash = Ok receipt /\
            ContractService.status receipt = "success"%string /\
            note = Note.mk (Types.commitment commitment) (Types.amount commitment)
                           (Types.blinding commitment) token
                           (MerkleTree.nextLeafIndex (merkleTree (state w)))
                           (MerkleTree.computeNullifier
                              (Bytes.bytesToHex (KeyDerivation.spendPrivateKey k))
                              (MerkleTree.nextLeafIndex (merkleTree (state w)))
                              (Types.commitment commitment))
                           false (ContractService.receipt_blockNumber receipt)) /\
        getShieldedBalance (notes (state (fst r)))
          = getShieldedBalance (notes (state w)) + Types.amount commitment) /\
    (forall e, snd r = Threw e -> e <> NullDereference -> fst r = w) /\
    (snd r = Threw NullDereference -> keys (state w) = None /\ fst r = inserted).
Proof.
  intros env token amount commitment w r inserted. subst r inserted.
  unfold executeDeposit. unfold_method.
  destruct (contractService w); simpl.
  2:{ repeat split; try discriminate; intros; congruence. }
  destruct (ContractService.sendDeposit (world env) _) as [txHash|msg]; simpl.
  2:{ repeat split; try discriminate; intros; congruence. }
  destruct (ContractService.waitForTransaction (world env) txHash) as [[ok blk]|e] eqn:Hwait;
    simpl.
  2:{ pose proof (waitForTransaction_threw _ _ _ Hwait) as [msg ->].
      repeat split; try discriminate; intros; congruence. }
  destruct (waitForTransaction_returned _ _ _ _ Hwait) as (receipt & Hreceipt & Hok & Hblk).
  destruct ok; simpl.
  2:{ repeat split; try discriminate; intros; congruence. }
  destruct (keys (state w)) as [k|] eqn:Hkeys; simpl.
  - repeat split; try discriminate; try (intros; congruence).
    + assert (Hpair : (txHash, Note.mk (Types.commitment commitment)
                         (Types.amount commitment) (Types.blinding commitment) token
                         (MerkleTree.nextLeafIndex (merkleTree (state w)))
                         (MerkleTree.computeNullifier
                            (Bytes.bytesToHex (KeyDerivation.spendPrivateKey k))
                            (MerkleTree.nextLeafIndex (merkleTree (state w)))
                            (Types.commitment commitment))
                         false blk) = (txHash0, note)) by congruence.
      injection Hpair as <- <-. exists k, receipt.
      repeat split; auto.
      * symmetry in Hok. now apply String.eqb_eq in Hok.
      * now rewrite Hblk.
    + rewrite getShieldedBalance_app. f_equal.
  - repeat split; try discriminate; intros; congruence.
Qed.

(** X8.  [executeWithdraw] checks neither the balance nor the notes it is
    given against the amount: with a contract service, it returns exactly
    when the submission is accepted and the receipt has status
    ["success"], and it then marks the notes found for the nullifiers of
    [spending]; whenever it throws the wallet is as it was. *)
Theorem executeWithdraw_outcome_exact :
  forall (env : Env) (token : Address) (amount : Z) (receiver : Address)
         (spending : list Note.t) (w : t T),
    let r := executeWithdraw env token amount receiver spending w in
    (forall e, snd r = Threw e -> fst r = w /\ e <> InsufficientBalance) /\
    (forall txHash,
        snd r = Returned txHash <->
        contractService w <> None /\
        ContractService.sendTestWithdraw (world env) token amount receiver = Ok txHash /\
        exists receipt,
          ContractService.waitForTransactionReceipt (world env) txHash = Ok receipt /\
          ContractService.status receipt = "success"%string) /\
    (forall txHash,
        snd r = Returned txHash ->
        fst r = setNotes (markAll (map Note.nullifier spending) (notes (state w))) w).
Proof.
  intros env token amount receiver spending w r. subst r.
  unfold executeWithdraw, markNotesSpent. unfold_method.
  destruct (contractService w) as [cs|]; simpl.
  2:{ split; [|split].
      - intros e [= <-]. split; [reflexivity | discriminate].
      - intros txHash. split; [discriminate | intros (H & _); congruence].
      - discriminate. }
  destruct (ContractService.sendTestWithdraw (world env) token amount receiver)
    as [txHash|msg] eqn:Hsend; simpl.
  2:{ split; [|split].
      - intros e [= <-]. split; [reflexivity | discriminate].
      - intros txHash. split; [discriminate | intros (_ & H & _); discriminate].
      - discriminate. }
  unfold ContractService.waitForTransaction, bind.
  destruct (ContractService.waitForTransactionReceipt (world env) txHash)
    as [receipt|msg] eqn:Hwait; simpl.
  2:{ split; [|split].
      - intros e [= <-]. split; [reflexivity | discriminate].
      - intros tx. split; [discriminate|].
        intros (_ & H & receipt & Hr & _). injection H as <-. congruence.
      - discriminate. }
  destruct (String.eqb_spec (ContractService.status receipt) "success") as [Hst|Hst];
    simpl.
  - split; [|split].
    + discriminate.
    + intros tx. split.
      * intros [= <-]. repeat split; [discriminate|]. exists receipt. auto.
      * intros (_ & H & _). congruence.
    + intros tx _. reflexivity.
  - split; [|split].
    + intros e [= <-]. split; [reflexivity | discriminate].
    + intros tx. split; [discriminate|].
      intros (_ & H & receipt' & Hr & Hs). injection H as <-.
      rewrite Hwait in Hr. injection Hr as <-. contradiction.
    + discriminate.
Qed.

(** X9.  [executeSwap] never changes the wallet: a swap that went through
    on chain marks no note spent locally (only a later sync can).  It
    returns the transaction hash exactly when the contract service is there,
    the submission is accepted and the receipt has status ["success"]. *)
Theorem executeSwap_leaves_wallet :
  forall (env : Env) (submitSwap : Swap.SwapParams -> Response Hex)
         (publicInputs proofBytes : Hex) (w : t T),
    let r := Swap.executeSwap env submitSwap publicInputs proofBytes w in
    fst r = w /\
    (forall txHash,
        snd r = inr txHash <->
        contractService w <> None /\
        submitSwap (Swap.mkSwapParams publicInputs proofBytes) = Ok txHash /\
        exists receipt,
          ContractService.waitForTransactionReceipt (world env) txHash = Ok receipt /\
          ContractService.status receipt = "success"%string) /\
    (snd r = inl Swap.SwapExecutionFailed ->
     exists txHash receipt,
       ContractService.waitForTransactionReceipt (world env) txHash = Ok receipt /\
       ContractService.status receipt <> "success"%string).
Proof.
  intros env submitSwap publicInputs proofBytes w r. subst r. unfold Swap.executeSwap.
  destruct (contractService w) as [cs|]; simpl.
  2:{ split; [reflexivity|]. split; [|discriminate].
      intros txHash. split; [discriminate | intros (H & _); congruence]. }
  destruct (submitSwap _) as [txHash|msg] eqn:Hsend; simpl.
  2:{ split; [reflexivity|]. split; [|discriminate].
      intros txHash. split; [discriminate | intros (_ & H & _); discriminate]. }
  unfold ContractService.waitForTransaction, bind.
  destruct (ContractService.waitForTransactionReceipt (world env) txHash)
    as [receipt|msg] eqn:Hwait; simpl.
  2:{ split; [reflexivity|]. split; [|discriminate].
      intros tx. split; [discriminate|].
      intros (_ & H & receipt & Hr & _). injection H as <-. congruence. }
  destruct (String.eqb_spec (ContractService.status receipt) "success") as [Hst|Hst];
    simpl.
  - split; [reflexivity|]. split; [|discriminate].
    intros tx. split.
    + intros [= <-]. repeat split; [discriminate|]. exists receipt. auto.
    + intros (_ & H & _). congruence.
  - split; [reflexivity|]. split.
    + intros tx. split; [discriminate|].
      intros (_ & H & receipt' & Hr & Hs). injection H as <-.
      rewrite Hwait in Hr. injection Hr as <-. contradiction.
    + intros _. exists txHash, receipt. auto.
Qed.

Lemma markAll_length (hs : list Hex) (l : list Note.t) :
  List.length (markAll hs l) = List.length l.
Proof.
  rewrite <- (length_map Note.markSpent (markAll hs l)), markAll_erase.
  apply length_map.
Qed.

(** The amount held in unspent notes whose token satisfies [p]. *)
Lemma unspent_total_step (p : Address -> bool) (old new : list Note.t) :
  Evolves old new ->
  List.length new = List.length old ->
  Forall (fun n => 0 <= Note.amount n) old ->
  Forall (fun n => 0 <= Note.amount n) new /\
  totalAmount (filter (fun n => negb (Note.spent n) && p (Note.token n)) new)
  <= totalAmount (filter (fun n => negb (Note.spent n) && p (Note.token n)) old).
Proof.
  induction 1 as [added|n n' old new Hstep Hev IH]; intros Hlen Hpos.
  - destruct added; [|discriminate]. split; [constructor | simpl; lia].
  - simpl in Hlen. injection Hlen as Hlen.
    inversion Hpos as [|? ? Hn Hold]; subst.
    destruct (IH Hlen Hold) as [Hnew Hle].
    destruct Hstep as [->|[Hunspent ->]].
    + split; [constructor; assumption|]. simpl.
      destruct (negb (Note.spent n) && p (Note.token n)); simpl; lia.
    + split; [constructor; assumption|]. simpl. rewrite Hunspent. simpl.
      destruct (p (Note.token n)); simpl; lia.
Qed.

Lemma run_length (env : Env) (op : Operation) (w : t T) :
  isDeposit op = false ->
  List.length (notes (state (run env op w))) = List.length (notes (state w)).
Proof.
  destruct op as [token amount commitment|token amount receiver spending
                 |token outputs|nullifiers|]; simpl; intros Hop; try discriminate.
  - destruct (executeWithdraw_outcome env token amount receiver spending w)
      as [H|H]; simpl in H; rewrite H; simpl; [reflexivity | apply markAll_length].
  - destruct (executeTransaction_wallet env token outputs w)
      as [H|H]; simpl in H; rewrite H; simpl; [reflexivity | apply markAll_length].
  - apply markAll_length.
  - rewrite syncWithChain_run.
    destruct (contractService w); [|reflexivity].
    destruct (nothingToSync w); [reflexivity|].
    destruct (ContractService.getAccountUpdatedEvents _ _ _); [|reflexivity].
    simpl. apply checkSpentNotes_length.
Qed.

(** X10.  Only a deposit can raise a balance.  Along any history of
    withdrawals, transfers, calls of [markNotesSpent] and syncs, in a wallet
    without negative note amounts, the number of notes stays the same, and
    neither the shielded balance nor the unspent balance of any token ever
    grows, whatever the collaborators answer. *)
Theorem balance_never_grows_without_deposit :
  forall (history : list (Env * Operation)) (w : t T) (token : Address),
    Forall (fun step => isDeposit (snd step) = false) history ->
    Forall (fun n => 0 <= Note.amount n) (notes (state w)) ->
    let w' := runAll history w in
    List.length (notes (state w')) = List.length (notes (state w)) /\
    getShieldedBalance (notes (state w')) <= getShieldedBalance (notes (state w)) /\
    unspentBalance (notes (state w')) token <= unspentBalance (notes (state w)) token.
Proof.
  intros history w token Hops Hpos w'. subst w'.
  assert (H : List.length (notes (state (runAll history w))) = List.length (notes (state w))
              /\ Evolves (notes (state w)) (notes (state (runAll history w)))).
  { induction history as [|[env op] history IH] using rev_ind.
    - split; [reflexivity | apply Evolves_refl].
    - apply Forall_app in Hops. destruct Hops as [Hops Hlast].
      inversion Hlast as [|? ? Hop _]; subst. simpl in Hop.
      destruct (IH Hops) as [Hlen Hev]. rewrite runAll_snoc. split.
      + rewrite run_length by exact Hop. exact Hlen.
      + eapply Evolves_trans; [exact Hev | apply run_notes]. }
  destruct H as [Hlen Hev]. split; [exact Hlen|]. split.
  - destruct (unspent_total_step (fun _ => true) _ _ Hev Hlen Hpos) as [_ Hle].
    assert (Hf : forall l : list Note.t,
               filter (fun n => negb (Note.spent n)) l
               = filter (fun n => negb (Note.spent n) && true) l).
    { intros l. apply filter_ext. intros n. now rewrite andb_true_r. }
    rewrite !getShieldedBalance_total, !Hf. exact Hle.
  - destruct (unspent_total_step (fun key => eqIgnoreCase key token) _ _ Hev Hlen Hpos)
      as [_ Hle].
    unfold unspentBalance, getNotesForToken. rewrite !sumBy_amount. exact Hle.
Qed.

(** ** The request sent to the prover *)

Lemma withChange_returned (env : Env) (change : Z) (outputs finalOutputs : list Types.Output)
      (w w' : t T) :
  withChange env change outputs w = (w', Returned finalOutputs) ->
  (change <= 0 /\ finalOutputs = outputs) \/
  (0 < change /\ exists changeAddress,
      finalOutputs = outputs ++ [Types.mkOutput change changeAddress]).
Proof.
  unfold withChange. destruct (Z.gtb_spec change 0) as [Hpos|Hneg]; unfold_method; simpl.
  - destruct (getPublicKeys w); simpl; [|discriminate].
    destruct (generateStealthAddress env _ _) as [addr|msg]; simpl; [|discriminate].
    intros [= _ <-]. right. split; [lia|]. eauto.
  - intros [= _ <-]. left. split; [lia | reflexivity].
Qed.

Lemma mapResult_returned {A B} (f : A -> Result B) (l : list A) (bs : list B) :
  mapResult f l = Returned bs -> Forall2 (fun a b => f a = Returned b) l bs.
Proof.
  revert bs. induction l as [|a r IH]; intros bs; simpl.
  - intros [= <-]. constructor.
  - unfold bind. destruct (f a) as [b|e] eqn:E; [|discriminate].
    destruct (mapResult f r) as [bs'|e]; [|discriminate].
    intros [= <-]. constructor; [exact E | apply IH; reflexivity].
Qed.

Lemma proverInput_returned (tr : T) (n : Note.t) (i : ContractService.InputNote) :
  proverInput tr n = Returned i ->
  ContractService.in_commitment i = Note.commitment n /\
  ContractService.in_amount i = Note.amount n /\
  ContractService.in_blinding i = Note.blinding n /\
  ContractService.in_leafIndex i = Note.leafIndex n /\
  exists p,
    MerkleTree.generateProof tr (Note.leafIndex n) = Ok p /\
    ContractService.in_pathElements i = MerkleTree.pathElements p /\
    ContractService.in_pathIndices i = MerkleTree.pathIndices p.
Proof.
  unfold proverInput, bind.
  destruct (MerkleTree.generateProof tr (Note.leafIndex n)) as [p|msg]; simpl;
    [|discriminate].
  intros [= <-]. simpl. repeat split. exists p. auto.
Qed.



Lemma inputs_total (tr : T) (selected : list Note.t)
      (inputNotes : list ContractService.InputNote) :
  mapResult (proverInput tr) selected = Returned inputNotes ->
  sumBy ContractService.in_amount inputNotes = sumBy Note.amount selected /\
  map ContractService.in_commitment inputNotes = map Note.commitment selected /\
  map ContractService.in_leafIndex inputNotes = map Note.leafIndex selected.
Proof.
  intros H. apply mapResult_returned in H.
  induction H as [|n i selected inputNotes Hi Hrest IH].
  - repeat split.
  - destruct (proverInput_returned _ _ _ Hi) as (Hc & Ha & _ & Hl & _).
    destruct IH as (IHa & IHc & IHl).
    rewrite !BalancesFacts.sumBy_cons. simpl. repeat split; congruence.
Qed.


(** Whenever [executeTransaction] returns or fails on the proof, it has
    sent one request to the prover, and the outcome follows the response. *)
Lemma executeTransaction_consults_prover (env : Env) (token : Address)
      (outputs : list Types.Output) (w : t T) :
  let r := executeTransaction env token outputs w in
  let totalOutput := sumBy Types.out_amount outputs in
  (exists txHash, snd r = Returned txHash) \/ (exists msg, snd r = Threw (ProofFailed msg)) ->
  exists inputNotes finalOutputs,
    contractService w <> None /\
    totalOutput <= snd (selectionFor token outputs w) /\
    mapResult (proverInput (merkleTree (state w))) (fst (selectionFor token outputs w))
      = Returned inputNotes /\
    fst (withChange env (snd (selectionFor token outputs w) - totalOutput) outputs w) = w /\
    snd (withChange env (snd (selectionFor token outputs w) - totalOutput) outputs w)
      = Returned finalOutputs /\
    let response :=
      ContractService.requestTransactionProof (world env)
        (Transfer.proofRequest w inputNotes finalOutputs) in
    (forall msg, snd r = Threw (ProofFailed msg) ->
       ContractService.success response = false /\
       msg = proofErrorMessage (ContractService.error response)) /\
    (forall txHash, snd r = Returned txHash ->
       ContractService.success response = true /\
       ContractService.sendTransact (world env) (Transfer.transactParams response)
         = Ok txHash).
Proof.
  intros r totalOutput. subst r. unfold executeTransaction. unfold_method.
  destruct (contractService w) as [cs|] eqn:Hcs; simpl.
  2:{ intros [[tx H]|[msg H]]; discriminate. }
  fold totalOutput.
  change (selectNotesForAmount (notes (state w)) token totalOutput)
    with (selectionFor token outputs w).
  destruct (Z.ltb_spec (snd (selectionFor token outputs w)) totalOutput) as [Hlt|Hge].
  { intros [[tx H]|[msg H]]; discriminate. }
  pose proof (withChange_unchanged env
                (snd (selectionFor token outputs w) - totalOutput) outputs w) as Hw.
  pose proof (withChange_threw env
                (snd (selectionFor token outputs w) - totalOutput) outputs w) as He.
  destruct (withChange env _ outputs w) as [w' [finalOutputs|e]] eqn:Hchange;
    simpl in Hw; subst w'.
  2:{ intros [[tx H]|[msg H]]; simpl in H; [discriminate|].
      destruct (He e eq_refl) as [->|[m ->]]; discriminate. }
  simpl.
  destruct (mapResult (proverInput (merkleTree (state w)))
                      (fst (selectionFor token outputs w))) as [inputNotes|e] eqn:Hin.
  2:{ intros [[tx H]|[msg H]]; simpl in H; [discriminate|].
      destruct (mapResult_threw _ _ _ (proverInput_threw _) Hin) as [m ->]. discriminate. }
  intros _. exists inputNotes, finalOutputs.
  split; [discriminate|]. split; [exact Hge|]. split; [reflexivity|].
  split; [reflexivity|]. split; [reflexivity|].
  change (ContractService.mkProofRequest inputNotes
            (map (fun out => ContractService.mkOutputNote (Types.out_amount out)
                               (Types.ephmeralPublicKey (Types.recipient out)))
                 finalOutputs)
            (MerkleTree.root (merkleTree (state w))))
    with (Transfer.proofRequest w inputNotes finalOutputs).
  set (response := ContractService.requestTransactionProof (world env)
                     (Transfer.proofRequest w inputNotes finalOutputs)).
  cbv zeta.
  destruct (ContractService.success response) eqn:Hsuccess; simpl.
  2:{ split; [|discriminate]. intros msg [= <-]. split; reflexivity. }
  change (ContractService.mkTransactParams (ContractService.publicInputs response)
            (ContractService.proofBytes response))
    with (Transfer.transactParams response).
  destruct (ContractService.sendTransact (world env) (Transfer.transactParams response))
    as [txHash|msg] eqn:Hsend; simpl.
  2:{ split; discriminate. }
  destruct (ContractService.waitForTransaction (world env) txHash) as [[ok blk]|e] eqn:Hwait;
    simpl.
  2:{ destruct (waitForTransaction_threw _ _ _ Hwait) as [m ->]. split; discriminate. }
  destruct ok; simpl.
  - split; [discriminate|]. intros tx [= <-]. split; reflexivity.
  - split; discriminate.
Qed.


(** X12.  The keys are needed for the change only.  A transfer whose
    selection exceeds the requested total fails with [WalletKeysNotFound],
    the wallet untouched, when the wallet has no keys; a transfer whose
    selection matches the requested total exactly never asks for a stealth
    address, so its outcome does not depend on the address generator. *)
Theorem executeTransaction_change_needs_keys :
  forall (env : Env) (token : Address) (outputs : list Types.Output) (w : t T),
    let totalOutput := sumBy Types.out_amount outputs in
    (contractService w <> None ->
     keys (state w) = None ->
     totalOutput < snd (selectionFor token outputs w) ->
     executeTransaction env token outputs w = (w, Threw WalletKeysNotFound)) /\
    (snd (selectionFor token outputs w) = totalOutput ->
     forall generator,
       executeTransaction (mkEnv (world env) generator) token outputs w
       = executeTransaction env token outputs w).
Proof.
  intros env token outputs w totalOutput. split.
  - intros Hcs Hkeys Hgt. unfold executeTransaction. unfold_method.
    destruct (contractService w); [|congruence]. simpl.
    fold totalOutput.
    change (selectNotesForAmount (notes (state w)) token totalOutput)
      with (selectionFor token outputs w).
    destruct (Z.ltb_spec (snd (selectionFor token outputs w)) totalOutput); [lia|].
    unfold withChange. unfold_method.
    destruct (Z.gtb_spec (snd (selectionFor token outputs w) - totalOutput) 0); [|lia].
    unfold getPublicKeys. rewrite Hkeys. reflexivity.
  - intros Hexact generator. unfold executeTransaction. unfold_method.
    destruct (contractService w); [|reflexivity]. simpl.
    fold totalOutput.
    change (selectNotesForAmount (notes (state w)) token totalOutput)
      with (selectionFor token outputs w).
    rewrite Hexact, Z.sub_diag. unfold withChange. simpl. reflexivity.
Qed.

Lemma requestTransactionProof_with_notes (world : ContractService.World)
      (request : ContractService.TransactionProofRequest) :
  ContractService.stringifies request = false ->
  ContractService.requestTransactionProof world request = ContractService.generateMockProof.
Proof. unfold ContractService.requestTransactionProof. now intros ->. Qed.

Lemma stringifies_true (request : ContractService.TransactionProofRequest) :
  ContractService.stringifies request = true ->
  ContractService.inputNotes request = [] /\ ContractService.outputNotes request = [].
Proof.
  unfold ContractService.stringifies.
  destruct (ContractService.inputNotes request), (ContractService.outputNotes request);
    try discriminate.
  now split.
Qed.

(** X13.  The prover service is heard only on a request without notes.
    [requestTransactionProof] answers every request that holds a note with
    the mock proof, whatever the service does; it reports a failure only
    for a request without notes that the service answered with a response
    that is not [ok] or with a body that says so.  Hence
    [executeTransaction] fails on the proof only when it was asked for no
    output and selected no note, and a transfer with an output that
    returns has submitted the mock proof. *)
Theorem prover_heard_only_without_notes :
  forall (env : Env) (token : Address) (outputs : list Types.Output) (w : t T),
    (forall request,
        ContractService.stringifies request = false ->
        ContractService.requestTransactionProof (world env) request
        = ContractService.generateMockProof) /\
    (forall request,
        ContractService.success
          (ContractService.requestTransactionProof (world env) request) = false ->
        ContractService.inputNotes request = [] /\
        ContractService.outputNotes request = [] /\
        ((exists st, ContractService.fetchProver (world env) request
                     = ContractService.httpNotOk st) \/
         (exists body, ContractService.fetchProver (world env) request
                       = ContractService.httpOk body /\
                       ContractService.success body = false))) /\
    (forall msg,
        snd (executeTransaction env token outputs w) = Threw (ProofFailed msg) ->
        outputs = [] /\ fst (selectionFor token outputs w) = []) /\
    (outputs <> [] ->
     forall txHash,
       snd (executeTransaction env token outputs w) = Returned txHash ->
       ContractService.sendTransact (world env)
         (Transfer.transactParams ContractService.generateMockProof) = Ok txHash).
Proof.
  intros env token outputs w.
  assert (Hfinal : forall finalOutputs,
             snd (withChange env (snd (selectionFor token outputs w)
                                  - sumBy Types.out_amount outputs) outputs w)
             = Returned finalOutputs ->
             exists change, finalOutputs = outputs ++ change).
  { intros finalOutputs Hsnd.
    pose proof (withChange_unchanged env
                  (snd (selectionFor token outputs w) - sumBy Types.out_amount outputs)
                  outputs w) as Hw.
    assert (Hpair : withChange env (snd (selectionFor token outputs w)
                                    - sumBy Types.out_amount outputs) outputs w
                    = (w, Returned finalOutputs)).
    { destruct (withChange env _ outputs w) as [w' res]. simpl in *. congruence. }
    apply withChange_returned in Hpair.
    destruct Hpair as [[_ ->]|[_ (addr & ->)]];
      [exists []; now rewrite app_nil_r | eauto]. }
  split; [intros request; apply requestTransactionProof_with_notes|].
  split; [|split].
  - intros request. unfold ContractService.requestTransactionProof.
    destruct (ContractService.stringifies request) eqn:Hjson; [|discriminate].
    destruct (stringifies_true _ Hjson) as [Hin Hout].
    destruct (ContractService.fetchProver (world env) request) as [|st|body];
      cbn [ContractService.success].
    + discriminate.
    + intros _. repeat split; auto. left. eauto.
    + intros H. repeat split; auto. right. eauto.
  - intros msg H.
    destruct (executeTransaction_consults_prover env token outputs w)
      as (inputNotes & finalOutputs & _ & _ & Hin & _ & Hchange & Hfail & _).
    { right. eauto. }
    destruct (Hfail msg H) as [Hs _].
    destruct (ContractService.stringifies (Transfer.proofRequest w inputNotes finalOutputs))
      eqn:Hjson.
    2:{ rewrite (requestTransactionProof_with_notes _ _ Hjson) in Hs. discriminate. }
    destruct (stringifies_true _ Hjson) as [Hi Ho]. cbn in Hi, Ho. subst inputNotes.
    apply map_eq_nil in Ho. subst finalOutputs.
    destruct (Hfinal [] Hchange) as (change & Hnil).
    symmetry in Hnil. apply app_eq_nil in Hnil. split; [apply Hnil|].
    destruct (inputs_total _ _ _ Hin) as (_ & Hcommit & _). cbn in Hcommit.
    symmetry in Hcommit. now apply map_eq_nil in Hcommit.
  - intros Hout txHash H.
    destruct (executeTransaction_consults_prover env token outputs w)
      as (inputNotes & finalOutputs & _ & _ & _ & _ & Hchange & _ & Hok).
    { left. eauto. }
    destruct (Hok txHash H) as [_ Hsend].
    rewrite requestTransactionProof_with_notes in Hsend; [exact Hsend|].
    destruct (Hfinal finalOutputs Hchange) as (change & ->).
    unfold ContractService.stringifies, Transfer.proofRequest.
    cbn [ContractService.inputNotes ContractService.outputNotes].
    destruct outputs as [|o outputs']; [congruence|].
    cbn [app map]. destruct inputNotes; reflexivity.
Qed.

(** ** More on [syncWithChain] *)

(** X14.  A wallet without notes whose watermark is 0 is not synced at
    all: [syncWithChain] returns at once, changes nothing and its outcome
    does not depend on the collaborators.  This is the state of a new
    wallet and the state after a [clearStorage] that returned in a
    browser. *)
Theorem syncWithChain_skips_empty_wallet :
  forall (env : Env) (w : t T),
    (nothingToSync w = true -> syncWithChain env w = (w, Returned tt)) /\
    syncWithChain env create = (create, Returned tt) /\
    (forall removeItem,
        snd (clearStorage (Some removeItem) w) = Returned tt ->
        syncWithChain env (fst (clearStorage (Some removeItem) w))
        = (fst (clearStorage (Some removeItem) w), Returned tt)) /\
    nothingToSync w
      = (Nat.eqb (List.length (notes (state w))) 0 && (lastSyncedBlock (state w) =? 0)).
Proof.
  intros env w. split; [|split; [|split]].
  - intros Hskip. rewrite syncWithChain_run, Hskip.
    destruct (contractService w); reflexivity.
  - reflexivity.
  - intros removeItem. rewrite syncWithChain_run.
    unfold clearStorage. unfold_method.
    destruct (removeItem WALLET_KEYS); cbn; [|discriminate].
    destruct (removeItem NOTES); cbn; [|discriminate].
    destruct (removeItem MERKLE_TREE); cbn; [|discriminate].
    destruct (removeItem LAST_SYNCED_BLOCK); cbn; [|discriminate].
    intros _. destruct (contractService w); reflexivity.
  - reflexivity.
Qed.

Lemma insertNewLeaves_cons (e : ContractService.AccountUpdatedEvent)
      (events : list ContractService.AccountUpdatedEvent) (tr : T) :
  insertNewLeaves (e :: events) tr
  = insertNewLeaves events
      (if MerkleTree.findLeafIndex tr (ContractService.commitment e) =? -1
       then MerkleTree.insertLeaf tr (ContractService.commitment e)
       else tr).
Proof. reflexivity. Qed.

Lemma insertNewLeaves_present (events : list ContractService.AccountUpdatedEvent) (tr : T) :
  (forall e, In e events ->
             MerkleTree.findLeafIndex tr (ContractService.commitment e) <> -1) ->
  insertNewLeaves events tr = tr.
Proof.
  induction events as [|e events IH]; intros H; [reflexivity|].
  rewrite insertNewLeaves_cons.
  destruct (Z.eqb_spec (MerkleTree.findLeafIndex tr (ContractService.commitment e)) (-1))
    as [Heq|Hne].
  - exfalso. apply (H e); [now left | exact Heq].
  - apply IH. intros e' He'. apply H. now right.
Qed.

Section TreeLaws.

(** What is asked of [merkleTree.ts]: a commitment that was inserted is
    found, and further insertions do not lose it. *)
Hypothesis found_after_insert :
  forall (tr : T) (c : Hex), MerkleTree.findLeafIndex (MerkleTree.insertLeaf tr c) c <> -1.
Hypothesis found_stays :
  forall (tr : T) (c c' : Hex),
    MerkleTree.findLeafIndex tr c <> -1 ->
    MerkleTree.findLeafIndex (MerkleTree.insertLeaf tr c') c <> -1.

Lemma insertNewLeaves_keeps (events : list ContractService.AccountUpdatedEvent) (tr : T)
      (c : Hex) :
  MerkleTree.findLeafIndex tr c <> -1 ->
  MerkleTree.findLeafIndex (insertNewLeaves events tr) c <> -1.
Proof.
  revert tr. induction events as [|e events IH]; intros tr H; [exact H|].
  rewrite insertNewLeaves_cons. apply IH.
  destruct (MerkleTree.findLeafIndex tr (ContractService.commitment e) =? -1);
    [apply found_stays|]; exact H.
Qed.

(** X15.  The first loop of [syncWithChain] inserts an event's commitment
    only if the tree does not have it.  Events whose commitments are all in
    the tree change nothing; and with a tree that finds what was inserted,
    every commitment of the events is in the tree afterwards, what was there
    stays, and applying the same events again changes nothing. *)
Theorem insertNewLeaves_idempotent :
  forall (events : list ContractService.AccountUpdatedEvent) (tr : T),
    ((forall e, In e events ->
                MerkleTree.findLeafIndex tr (ContractService.commitment e) <> -1) ->
     insertNewLeaves events tr = tr) /\
    (forall e, In e events ->
               MerkleTree.findLeafIndex (insertNewLeaves events tr)
                                        (ContractService.commitment e) <> -1) /\
    (forall c, MerkleTree.findLeafIndex tr c <> -1 ->
               MerkleTree.findLeafIndex (insertNewLeaves events tr) c <> -1) /\
    insertNewLeaves events (insertNewLeaves events tr) = insertNewLeaves events tr.
Proof.
  intros events tr.
  assert (Hall : forall evs t e, In e evs ->
                 MerkleTree.findLeafIndex (insertNewLeaves evs t)
                                          (ContractService.commitment e) <> -1).
  { induction evs as [|e0 evs IH]; intros t e He; [contradiction|].
    rewrite insertNewLeaves_cons. destruct He as [->|He]; [|now apply IH].
    apply insertNewLeaves_keeps.
    destruct (Z.eqb_spec (MerkleTree.findLeafIndex t (ContractService.commitment e)) (-1));
      [apply found_after_insert | assumption]. }
  split; [apply insertNewLeaves_present|]. split; [apply Hall|].
  split; [intros c; apply insertNewLeaves_keeps|].
  apply insertNewLeaves_present. apply Hall.
Qed.

End TreeLaws.

Lemma checkSpentNotes_agree (world world' : ContractService.World) (l : list Note.t) :
  forall i,
    (forall j n, nth_error l j = Some n -> Note.spent n = false ->
                 ContractService.readNullifierUsed world (i + j) (Note.nullifier n)
                 = ContractService.readNullifierUsed world' (i + j) (Note.nullifier n)) ->
    checkSpentNotes world i l = checkSpentNotes world' i l.
Proof.
  induction l as [|n r IH]; intros i H; simpl; [reflexivity|].
  assert (Hr : checkSpentNotes world (S i) r = checkSpentNotes world' (S i) r).
  { apply IH. intros j m Hm Hs. replace (S i + j)%nat with (i + S j)%nat by lia.
    apply (H (S j) m Hm Hs). }
  destruct (Note.spent n) eqn:E.
  - rewrite Hr. reflexivity.
  - unfold ContractService.isNullifierUsed.
    pose proof (H O n eq_refl E) as H0. rewrite Nat.add_0_r in H0. rewrite H0, Hr.
    reflexivity.
Qed.

(** X16.  A sync asks the chain for the events and for the nullifiers of
    the notes that are still unspent, and for nothing else: two
    environments that answer these requests alike lead to the same wallet
    and outcome.  A note that is already spent is never asked about. *)
Theorem syncWithChain_asks_about_unspent_only :
  forall (env env' : Env) (w : t T),
    ContractService.sameEvents (world env) (world env') ->
    (forall j n,
        nth_error (notes (state w)) j = Some n ->
        Note.spent n = false ->
        ContractService.readNullifierUsed (world env) j (Note.nullifier n)
        = ContractService.readNullifierUsed (world env') j (Note.nullifier n)) ->
    syncWithChain env w = syncWithChain env' w.
Proof.
  intros env env' w Hsame Hagree.
  rewrite !syncWithChain_run, <- (sameEvents_fetch _ _ _ _ Hsame).
  destruct (contractService w); [|reflexivity].
  destruct (nothingToSync w); [reflexivity|].
  destruct (ContractService.getAccountUpdatedEvents _ _ _); [|reflexivity].
  rewrite (checkSpentNotes_agree (world env) (world env') (notes (state w)) 0 Hagree).
  reflexivity.
Qed.

(** X17.  After a sync that fetched the events and got every nullifier
    query answered from the register [used], a note is spent exactly when it
    was spent before or its nullifier is used; nothing else of the notes has
    changed. *)
Theorem syncWithChain_marks_used_notes :
  forall (env : Env) (w : t T) (used : Hex -> bool)
         (events : list ContractService.AccountUpdatedEvent),
    contractService w <> None ->
    nothingToSync w = false ->
    ContractService.getAccountUpdatedEvents (world env) (lastSyncedBlock (state w))
      ContractService.latest = Returned events ->
    ContractService.alwaysAnswersFrom used (world env) ->
    let after := notes (state (fst (syncWithChain env w))) in
    after = reconcile used (notes (state w)) /\
    map Note.markSpent after = map Note.markSpent (notes (state w)) /\
    map Note.spent after
      = map (fun n => Note.spent n || used (Note.nullifier n)) (notes (state w)).
Proof.
  intros env w used events Hcs Hskip Hev Hall after. subst after.
  rewrite syncWithChain_run, Hskip, Hev.
  destruct (contractService w); [|congruence]. simpl.
  rewrite (checkSpentNotes_complete used _ _ _ Hall). simpl.
  unfold reconcile. rewrite !map_map.
  split; [reflexivity|]. split; apply map_ext; intros n.
  - destruct (Note.spent n) eqn:E; [reflexivity|].
    destruct (used (Note.nullifier n)); reflexivity.
  - destruct (Note.spent n) eqn:E; [now rewrite E|].
    destruct (used (Note.nullifier n)); simpl; [reflexivity | exact E].
Qed.

(** ** Syncing twice *)

Lemma ascending_filter (p : ContractService.Log -> bool) (chain : list ContractService.Log) :
  Node.ascending chain = true -> Node.ascending (filter p chain) = true.
Proof.
  induction chain as [|x chain IH]; simpl; [reflexivity|].
  intros H. apply andb_true_iff in H. destruct H as [Hx Hrest].
  destruct (p x); simpl; [|now apply IH].
  apply andb_true_iff. split; [|now apply IH].
  rewrite forallb_forall in *. intros y Hy. apply Hx.
  apply filter_In in Hy. tauto.
Qed.

Lemma ascending_last (chain : list ContractService.Log) (x : ContractService.Log) :
  Node.ascending (chain ++ [x]) = true ->
  forall y, In y chain ->
            ContractService.log_blockNumber y <= ContractService.log_blockNumber x.
Proof.
  induction chain as [|a chain IH]; simpl; [contradiction|].
  intros H y Hy. apply andb_true_iff in H. destruct H as [Ha Hrest].
  destruct Hy as [<-|Hy]; [|now apply IH].
  rewrite forallb_forall in Ha. apply Z.leb_le. apply Ha.
  apply in_or_app. right. now left.
Qed.

Lemma node_events (current : Z) (chain : list ContractService.Log)
      (world : ContractService.World) (fromBlock : Z) :
  Node.servedBy current chain world ->
  ContractService.getAccountUpdatedEvents world fromBlock ContractService.latest
  = Returned (map ContractService.eventOfLog
                (filter (ContractService.inRange
                           (ContractService.actualFromBlock current fromBlock
                              ContractService.latest)
                           ContractService.latest)
                        chain)).
Proof.
  intros [Hcur Hlogs]. unfold ContractService.getAccountUpdatedEvents.
  rewrite Hcur. cbn [await bind]. rewrite Hlogs. reflexivity.
Qed.

Lemma nextBlockAfter_logs (logs : list ContractService.Log) (current : Z) :
  nextBlockAfter (map ContractService.eventOfLog logs) current
  = match rev logs with
    | [] => current
    | x :: _ => ContractService.log_blockNumber x + 1
    end.
Proof.
  unfold nextBlockAfter. rewrite <- map_rev. destruct (rev logs); reflexivity.
Qed.

Lemma applyEvents_none (w : t T) : applyEvents [] w = w.
Proof. destruct w as [[? ? ? ? ?] ?]; reflexivity. Qed.

(** Once the events from a watermark have been applied, the same node has
    no event from the new watermark on. *)
Lemma node_has_nothing_new (current : Z) (chain : list ContractService.Log) (old : Z) :
  Node.ascending chain = true ->
  let range b := ContractService.inRange
                   (ContractService.actualFromBlock current b ContractService.latest)
                   ContractService.latest in
  let next := nextBlockAfter (map ContractService.eventOfLog (filter (range old) chain)) old in
  filter (range next) chain = [].
Proof.
  intros Hasc range next. subst next. rewrite nextBlockAfter_logs.
  destruct (rev (filter (range old) chain)) as [|x before] eqn:Hrev.
  - rewrite <- (rev_involutive (filter (range old) chain)), Hrev. reflexivity.
  - assert (Hsplit : filter (range old) chain = rev before ++ [x]).
    { rewrite <- (rev_involutive (filter (range old) chain)), Hrev. reflexivity. }
    pose proof (ascending_filter (range old) chain Hasc) as Hsorted.
    rewrite Hsplit in Hsorted.
    assert (Hx : In x (filter (range old) chain)).
    { rewrite Hsplit. apply in_or_app. right. now left. }
    apply filter_In in Hx. destruct Hx as [_ Hx].
    destruct (filter (range (ContractService.log_blockNumber x + 1)) chain)
      as [|y rest] eqn:Hnew; [reflexivity|].
    exfalso.
    assert (Hy : In y (filter (range (ContractService.log_blockNumber x + 1)) chain)).
    { rewrite Hnew. now left. }
    apply filter_In in Hy. destruct Hy as [Hychain Hy].
    subst range. unfold ContractService.inRange in *. cbv beta in *.
    rewrite andb_true_r in *. apply Z.leb_le in Hx, Hy.
    rewrite ContractServiceFacts.actualFromBlock_latest in *.
    assert (Hyold : In y (rev before ++ [x])).
    { rewrite <- Hsplit. apply filter_In. split; [exact Hychain|].
      cbv beta. rewrite andb_true_r. apply Z.leb_le.
      rewrite ?ContractServiceFacts.actualFromBlock_latest. lia. }
    apply in_app_or in Hyold. destruct Hyold as [Hyold|[<-|[]]]; [|lia].
    pose proof (ascending_last _ _ Hsorted y Hyold). lia.
Qed.

Lemma reconcile_length (used : Hex -> bool) (l : list Note.t) :
  List.length (reconcile used l) = List.length l.
Proof. unfold reconcile. apply length_map. Qed.

(** X18.  Syncing twice against a node that has not changed is syncing
    once.  If the node serves its logs in the order of their blocks and
    answers every nullifier query from one register, a second
    [syncWithChain] right after the first leaves the wallet as the first one
    left it. *)
Theorem syncWithChain_twice :
  forall (env : Env) (w : t T) (current : Z) (chain : list ContractService.Log)
         (used : Hex -> bool),
    Node.servedBy current chain (world env) ->
    Node.ascending chain = true ->
    ContractService.alwaysAnswersFrom used (world env) ->
    syncWithChain env (fst (syncWithChain env w)) = syncWithChain env w.
Proof.
  intros env w current chain used Hnode Hasc Hall.
  rewrite (syncWithChain_run env w).
  destruct (contractService w) as [cs|] eqn:Hcs.
  2:{ cbn [fst]. rewrite syncWithChain_run, Hcs. reflexivity. }
  destruct (nothingToSync w) eqn:Hskip.
  { cbn [fst]. rewrite syncWithChain_run, Hcs, Hskip. reflexivity. }
  rewrite (node_events current chain _ _ Hnode).
  rewrite (checkSpentNotes_complete used _ _ _ Hall). cbn [fst].
  set (logs := filter _ chain).
  set (w1 := setNotes (reconcile used (notes (state w)))
                      (applyEvents (map ContractService.eventOfLog logs) w)).
  rewrite (syncWithChain_run env w1).
  assert (Hcs1 : contractService w1 = Some cs).
  { subst w1. unfold applyEvents. destruct (0 <? _); simpl; exact Hcs. }
  rewrite Hcs1.
  destruct (nothingToSync w1) eqn:Hskip1; [reflexivity|].
  rewrite (node_events current chain _ _ Hnode).
  rewrite (checkSpentNotes_complete used _ _ _ Hall). cbn [fst].
  assert (Hnotes : notes (state w1) = reconcile used (notes (state w))) by reflexivity.
  assert (Hlast : lastSyncedBlock (state w1)
                  = nextBlockAfter (map ContractService.eventOfLog logs)
                                   (lastSyncedBlock (state w))).
  { subst w1. apply applyEvents_lastSyncedBlock. }
  rewrite Hnotes, Hlast, (reconcile_absorbs used used _ (fun h H => H)).
  pose proof (node_has_nothing_new current chain (lastSyncedBlock (state w)) Hasc)
    as Hnone.
  cbv beta zeta in Hnone. fold logs in Hnone. rewrite Hnone.
  cbn [map]. rewrite applyEvents_none. reflexivity.
Qed.

(** ** Transfers and resets as a whole *)

(** X26.  A transfer is all or nothing for the wallet.  Whatever
    [executeTransaction] throws, the wallet is as it was; when it returns,
    the transaction it names has a receipt with status ["success"], the
    notes selected for it are the ones marked spent, no note was added or
    removed, and the Merkle tree and [lastSyncedBlock] are as before: the
    outputs are not recorded by the transfer. *)
Theorem executeTransaction_all_or_nothing :
  forall (env : Env) (token : Address) (outputs : list Types.Output) (w : t T),
    let r := executeTransaction env token outputs w in
    (forall e, snd r = Threw e -> fst r = w) /\
    (forall txHash,
        snd r = Returned txHash ->
        (exists receipt,
            ContractService.waitForTransactionReceipt (world env) txHash = Ok receipt /\
            ContractService.status receipt = "success"%string) /\
        notes (state (fst r))
        = markAll (map Note.nullifier (fst (selectionFor token outputs w)))
                  (notes (state w)) /\
        List.length (notes (state (fst r))) = List.length (notes (state w)) /\
        merkleTree (state (fst r)) = merkleTree (state w) /\
        lastSyncedBlock (state (fst r)) = lastSyncedBlock (state w) /\
        keys (state (fst r)) = keys (state w)).
Proof.
  intros env token outputs w r.
  destruct (executeTransaction_outcome env token outputs w)
    as [(e & Hr & _)|(txHash & request & receipt & Hr & _ & _ & _ & _ & Hwait & Hst)];
    fold r in Hr; rewrite Hr; cbn [fst snd].
  - split; [reflexivity | discriminate].
  - split; [discriminate|]. intros tx [= <-].
    split; [exists receipt; now split|].
    cbn. rewrite markAll_length. repeat split.
Qed.

(** X27.  [clearStorage] outside a browser does nothing.  In a browser it
    either throws what a [removeItem] threw, and then the wallet is as it
    was, or it returns after the four keys were removed, and then the state
    is that of a new wallet while the contract service stays. *)
Theorem clearStorage_outcome :
  forall (w : t T),
    clearStorage None w = (w, Returned tt) /\
    (forall removeItem : string -> Response unit,
        let r := clearStorage (Some removeItem) w in
        (forall e,
            snd r = Threw e ->
            fst r = w /\
            exists key msg,
              In key [WALLET_KEYS; NOTES; MERKLE_TREE; LAST_SYNCED_BLOCK] /\
              removeItem key = Failed msg /\ e = Collaborator msg) /\
        (snd r = Returned tt ->
         (forall key, In key [WALLET_KEYS; NOTES; MERKLE_TREE; LAST_SYNCED_BLOCK] ->
                      removeItem key = Ok tt) /\
         state (fst r) = state create /\
         contractService (fst r) = contractService w)).
Proof.
  intros w. split; [reflexivity|].
  intros removeItem r. subst r. unfold clearStorage. unfold_method.
  destruct (removeItem WALLET_KEYS) as [[]|m1] eqn:H1; cbn.
  2:{ split; [|discriminate]. intros e [= <-]. split; [reflexivity|].
      exists WALLET_KEYS, m1. cbn; auto. }
  destruct (removeItem NOTES) as [[]|m2] eqn:H2; cbn.
  2:{ split; [|discriminate]. intros e [= <-]. split; [reflexivity|].
      exists NOTES, m2. cbn; auto. }
  destruct (removeItem MERKLE_TREE) as [[]|m3] eqn:H3; cbn.
  2:{ split; [|discriminate]. intros e [= <-]. split; [reflexivity|].
      exists MERKLE_TREE, m3. cbn; auto. }
  destruct (removeItem LAST_SYNCED_BLOCK) as [[]|m4] eqn:H4; cbn.
  2:{ split; [|discriminate]. intros e [= <-]. split; [reflexivity|].
      exists LAST_SYNCED_BLOCK, m4. cbn; auto 6. }
  split; [discriminate|]. intros _. split; [|split; reflexivity].
  intros key [<-|[<-|[<-|[<-|[]]]]]; assumption.
Qed.

End Wallet.

End WalletMore.

(* ====================================================================== *)
(** * More on byte arrays and big integers *)
(* ====================================================================== *)

Module KeyDerivationMore.
Import Bytes BytesFacts KeyDerivation KeyDerivationFacts.

Lemma bytesToBigInt_cons (b : Z) (r : list Z) :
  Forall isByte (b :: r) ->
  bytesToBigInt (b :: r) = b * 256 ^ Z.of_nat (List.length r) + bytesToBigInt r.
Proof.
  intros H. inversion H as [|b' r' Hb Hr]; subst.
  unfold bytesToBigInt at 1. cbn [fold_left].
  rewrite (bytesToBigInt_from r _ Hr), lor_shiftl_byte by exact Hb. lia.
Qed.

Lemma bytesToBigInt_bound (bytes : list Z) :
  Forall isByte bytes -> 0 <= bytesToBigInt bytes < 256 ^ Z.of_nat (List.length bytes).
Proof.
  induction 1 as [|b r Hb Hr IH].
  - unfold bytesToBigInt. simpl. lia.
  - rewrite bytesToBigInt_cons by (constructor; assumption).
    replace (Z.of_nat (List.length (b :: r))) with (Z.succ (Z.of_nat (List.length r)))
      by (simpl List.length; lia).
    rewrite Z.pow_succ_r by lia. unfold isByte in Hb. nia.
Qed.

(** Two byte arrays of the same length with the same value are equal. *)
Lemma bytesToBigInt_injective (xs : list Z) :
  forall ys, Forall isByte xs -> Forall isByte ys ->
             List.length xs = List.length ys ->
             bytesToBigInt xs = bytesToBigInt ys -> xs = ys.
Proof.
  induction xs as [|x xs IH]; intros [|y ys] Hxs Hys Hlen Hval;
    try discriminate; [reflexivity|].
  injection Hlen as Hlen.
  rewrite !bytesToBigInt_cons in Hval by assumption. rewrite Hlen in Hval.
  inversion Hxs as [|? ? Hx Hxs']; inversion Hys as [|? ? Hy Hys']; subst.
  pose proof (bytesToBigInt_bound xs Hxs') as Bx.
  pose proof (bytesToBigInt_bound ys Hys') as By.
  rewrite Hlen in Bx. unfold isByte in Hx, Hy.
  assert (x = y) by nia. subst y.
  f_equal. apply IH; try assumption. lia.
Qed.

Lemma bytesToBigInt_leading_zeros (k : nat) (bytes : list Z) :
  bytesToBigInt (repeat 0 k ++ bytes) = bytesToBigInt bytes.
Proof.
  unfold bytesToBigInt. induction k as [|k IH]; [reflexivity|].
  cbn [repeat app fold_left]. exact IH.
Qed.

Lemma bigIntToBytes_length (v : Z) : List.length (bigIntToBytes v) = 32%nat.
Proof. unfold bigIntToBytes. rewrite bigIntToBytesFrom_length. reflexivity. Qed.

(** X19.  [bigIntToBytes] always returns 32 bytes, and they hold the low 256
    bits of its argument: read back by [bytesToBigInt] they give the
    argument modulo 2^256, so the argument itself when it lies in
    [0, 2^256), and two arguments have the same bytes exactly when they
    are congruent modulo 2^256.  A negative argument or one of 2^256 and
    more is wrapped around without an error. *)
Theorem bigIntToBytes_low_256_bits :
  forall v : Z,
    List.length (bigIntToBytes v) = 32%nat /\
    Forall isByte (bigIntToBytes v) /\
    bytesToBigInt (bigIntToBytes v) = v mod 2 ^ 256 /\
    (0 <= v < 2 ^ 256 -> bytesToBigInt (bigIntToBytes v) = v) /\
    (forall w : Z, bigIntToBytes v = bigIntToBytes w <-> v mod 2 ^ 256 = w mod 2 ^ 256).
Proof.
  intros v. split; [apply bigIntToBytes_length|].
  split; [apply bigIntToBytes_bytes|].
  split; [apply bytesToBigInt_bigIntToBytes|].
  split.
  - intros Hv. rewrite bytesToBigInt_bigIntToBytes. now apply Z.mod_small.
  - intros w. split.
    + intros H. rewrite <- !bytesToBigInt_bigIntToBytes. now rewrite H.
    + intros H. apply bytesToBigInt_injective.
      * apply bigIntToBytes_bytes.
      * apply bigIntToBytes_bytes.
      * now rewrite !bigIntToBytes_length.
      * now rewrite !bytesToBigInt_bigIntToBytes.
Qed.

(** X20.  [bigIntToBytes] after [bytesToBigInt] pads a byte array of at most
    32 bytes with zero bytes on the left, to 32 bytes; an array of exactly
    32 bytes comes back as it is. *)
Theorem bigIntToBytes_bytesToBigInt :
  forall bytes : list Z,
    Forall isByte bytes ->
    (List.length bytes <= 32)%nat ->
    bigIntToBytes (bytesToBigInt bytes)
    = repeat 0 (32 - List.length bytes) ++ bytes.
Proof.
  intros bytes Hbytes Hlen.
  apply bytesToBigInt_injective.
  - apply bigIntToBytes_bytes.
  - apply Forall_app. split; [|exact Hbytes].
    apply Forall_forall. intros z Hz. apply repeat_spec in Hz. subst z.
    unfold isByte. lia.
  - rewrite bigIntToBytes_length, length_app, repeat_length. lia.
  - rewrite bytesToBigInt_bigIntToBytes, bytesToBigInt_leading_zeros.
    apply Z.mod_small.
    pose proof (bytesToBigInt_bound bytes Hbytes) as B.
    assert (256 ^ Z.of_nat (List.length bytes) <= 256 ^ 32)
      by (apply Z.pow_le_mono_r; lia).
    change (2 ^ 256) with (256 ^ 32). lia.
Qed.

End KeyDerivationMore.

(* ====================================================================== *)
(** * Stored keys *)
(* ====================================================================== *)

Module KeyStorageFacts.
Import Bytes BytesFacts KeyDerivation KeyStorage.

(** X21.  [deserializeKeys] undoes [serializeKeys]: when the four keys are
    byte arrays and [JSON.parse] reads back the object that
    [JSON.stringify] wrote, the result has the address and the four keys of
    the wallet keys that were serialized. *)
Theorem deserializeKeys_serializeKeys :
  forall (stringify : JsObject -> string) (parse : string -> Response JsObject)
         (keys : WalletKeys),
    Forall isByte (viewPrivateKey keys) ->
    Forall isByte (viewPublicKey keys) ->
    Forall isByte (spendPrivateKey keys) ->
    Forall isByte (spendPublicKey keys) ->
    parse (stringify (keysObject keys)) = Ok (keysObject keys) ->
    deserializeKeys parse (serializeKeys stringify keys)
    = Returned (mkParsedKeys (Some (address keys))
                             (viewPrivateKey keys) (viewPublicKey keys)
                             (spendPrivateKey keys) (spendPublicKey keys)).
Proof.
  intros stringify parse keys Hvp Hvq Hsp Hsq Hjson.
  unfold deserializeKeys, serializeKeys. rewrite Hjson. cbn [await bind].
  unfold hexField, keysObject. cbn [getField String.eqb Ascii.eqb Bool.eqb].
  unfold hexToBytesR.
  rewrite !hexToBytes_bytesToHex by assumption. reflexivity.
Qed.

End KeyStorageFacts.

(* ====================================================================== *)
(** * Key generation *)
(* ====================================================================== *)

Module KeyGenerationFacts.
Import Bytes BytesFacts KeyDerivation KeyDerivationFacts KeyGeneration.

Section Generation.

Variable keccak_256 : list Z -> list Z.
Variable getPublicKey : list Z -> Response (list Z).
Variable Point : Type.
Variable mulG : Z -> Point.
Variable encodePoint : Point -> list Z.

Hypothesis keccak_256_bytes : forall message, Forall isByte (keccak_256 message).
Hypothesis getPublicKey_valid :
  forall k, 0 < k < n -> getPublicKey (bigIntToBytes k) = Ok (encodePoint (mulG k)).

(** A key pair that the derivation returns holds a scalar of the group. *)
Lemma deriveKeyPairFromSignature_returned (signature : Hex) (purpose : Purpose)
      (pair : KeyPair) :
  deriveKeyPairFromSignature keccak_256 getPublicKey signature purpose = Returned pair ->
  exists k, 0 < k < n /\
            privateKey pair = bigIntToBytes k /\
            publicKey pair = encodePoint (mulG k).
Proof.
  unfold deriveKeyPairFromSignature, hexToBytesR.
  destruct (hexToBytes signature) as [sigBytes|] eqn:Hsig; [|discriminate].
  cbn [bind].
  assert (Hcombined : Forall isByte (sigBytes ++ encodeText (purposeLabel purpose))).
  { apply Forall_app. split; [eapply hexToBytes_bytes; eauto | apply encodeText_bytes]. }
  rewrite (keccak256_bytesToHex keccak_256 _ Hcombined). cbn [bind].
  rewrite (keccak256_bytesToHex keccak_256 _ (keccak_256_bytes _)).
  cbn [bind].
  rewrite (hexToBytes_bytesToHex _ (keccak_256_bytes _)). cbn [bind].
  set (digest := keccak_256 (keccak_256 _)).
  assert (Hrange : 0 <= Z.rem (bytesToBigInt digest) n < n).
  { rewrite Z.rem_mod_nonneg;
      [apply Z.mod_pos_bound | apply bytesToBigInt_nonneg, keccak_256_bytes | ];
      apply n_below_2_256. }
  destruct (Z.eqb_spec (Z.rem (bytesToBigInt digest) n) 0) as [Hz|Hnz]; [discriminate|].
  rewrite getPublicKey_valid by lia. cbn [await bind].
  intros [= <-]. exists (Z.rem (bytesToBigInt digest) n).
  split; [lia|]. split; reflexivity.
Qed.

(** X22.  The keys that [generateKeysFromWallet] returns are well formed:
    the address is the first account of the wallet, and each private key is
    the 32-byte form of a scalar in [1, n - 1] whose public key is the
    encoding of that scalar times the generator.  When the wallet has no
    account the call fails with "No address found", whatever the signer
    would have answered. *)
Theorem generateKeysFromWallet_keys :
  forall (walletClient : WalletClient) (nonce : string),
    (forall keys : WalletKeys,
        generateKeysFromWallet keccak_256 getPublicKey walletClient nonce = inr keys ->
        (exists others, getAddresses walletClient = Ok (address keys :: others)) /\
        exists viewScalar spendScalar,
          0 < viewScalar < n /\ 0 < spendScalar < n /\
          viewPrivateKey keys = bigIntToBytes viewScalar /\
          viewPublicKey keys = encodePoint (mulG viewScalar) /\
          spendPrivateKey keys = bigIntToBytes spendScalar /\
          spendPublicKey keys = encodePoint (mulG spendScalar) /\
          List.length (viewPrivateKey keys) = 32%nat /\
          List.length (spendPrivateKey keys) = 32%nat) /\
    (getAddresses walletClient = Ok [] ->
     forall sign : Address -> string -> Response Hex,
       generateKeysFromWallet keccak_256 getPublicKey
         (mkWalletClient (Ok []) sign) nonce = inl NoAddressFound).
Proof.
  intros walletClient nonce. split; [|reflexivity].
  intros keys. unfold generateKeysFromWallet.
  destruct (getAddresses walletClient) as [[|account others]|msg] eqn:Haddr;
    cbn [await]; try discriminate.
  destruct (String.eqb account ""); [discriminate|].
  destruct (deriveBoth keccak_256 getPublicKey walletClient account nonce)
    as [keys'|e] eqn:Hboth; [|discriminate].
  intros [= ->]. revert Hboth. unfold deriveBoth.
  destruct (signMessage walletClient account (VIEW_KEY ++ nonce)) as [viewSig|];
    cbn [await bind]; [|discriminate].
  destruct (deriveKeyPairFromSignature keccak_256 getPublicKey viewSig view)
    as [viewPair|] eqn:Hview; cbn [bind]; [|discriminate].
  destruct (signMessage walletClient account (SPEND_KEY ++ nonce)) as [spendSig|];
    cbn [await bind]; [|discriminate].
  destruct (deriveKeyPairFromSignature keccak_256 getPublicKey spendSig spend)
    as [spendPair|] eqn:Hspend; cbn [bind]; [|discriminate].
  intros [= <-]. cbn [address viewPrivateKey viewPublicKey spendPrivateKey spendPublicKey].
  split; [exists others; reflexivity|].
  destruct (deriveKeyPairFromSignature_returned _ _ _ Hview) as (kv & Hkv & Hvp & Hvq).
  destruct (deriveKeyPairFromSignature_returned _ _ _ Hspend) as (ks & Hks & Hsp & Hsq).
  exists kv, ks. rewrite Hvp, Hvq, Hsp, Hsq.
  repeat split; try lia; apply KeyDerivationMore.bigIntToBytes_length.
Qed.

End Generation.

End KeyGenerationFacts.

(* ====================================================================== *)
(** * Properties of the error parser *)
(* ====================================================================== *)

Module ErrorHandlingFacts.
Import ErrorHandling.
Local Open Scope string_scope.

Lemma isUserRejection_patterns (error : ErrorValue) :
  isUserRejection (parseTransactionError error)
  = someIncluded userRejection (toLowerCase (messageOf error)).
Proof.
  unfold parseTransactionError.
  destruct (someIncluded userRejection _); [reflexivity|].
  repeat (match goal with
          | |- context [if ?c then _ else _] => destruct c
          end; try reflexivity).
Qed.

(** X23.  The flag [isUserRejection] is set exactly for the errors of type
    [rejection], and these are the errors whose message contains, in any
    mix of upper and lower case, one of the patterns of
    [ERROR_PATTERNS.userRejection]: such a message is a rejection even when
    it also contains a pattern of another class.  The message shown is then
    the fixed text for a rejection. *)
Theorem isUserRejection_iff_rejection :
  forall error : ErrorValue,
    let parsed := parseTransactionError error in
    (isUserRejection parsed = true <-> type parsed = rejection) /\
    (isUserRejectionError error = true <->
     someIncluded userRejection (toLowerCase (messageOf error)) = true) /\
    (type parsed = rejection ->
     getErrorMessage error
     = "Transaction cancelled. You rejected the request in your wallet.").
Proof.
  intros error parsed. subst parsed.
  unfold isUserRejectionError, getErrorMessage. rewrite isUserRejection_patterns.
  unfold parseTransactionError.
  destruct (someIncluded userRejection _).
  - cbn [type message]. repeat split.
  - repeat (match goal with
            | |- context [if ?c then _ else _] => destruct c
            end; cbn [type message]);
      (split; [split; discriminate | split; [reflexivity | discriminate]]).
Qed.

Lemma toLowerCase_app (a b : string) :
  toLowerCase (a ++ b) = toLowerCase a ++ toLowerCase b.
Proof. induction a as [|c a IH]; [reflexivity|]. simpl. now rewrite IH. Qed.

Lemma prefix_app (pattern s after : string) :
  String.prefix pattern s = true -> String.prefix pattern (s ++ after) = true.
Proof.
  revert pattern. induction s as [|c s IH]; intros [|p pattern] H.
  - destruct after; reflexivity.
  - discriminate.
  - reflexivity.
  - simpl in *. destruct (ascii_dec p c); [apply IH; exact H | discriminate].
Qed.

Lemma includes_prefix (s pattern : string) :
  String.prefix pattern s = true -> includes s pattern = true.
Proof. destruct s; cbn [includes]; intros ->; reflexivity. Qed.

Lemma includes_app_r (s after pattern : string) :
  includes s pattern = true -> includes (s ++ after) pattern = true.
Proof.
  induction s as [|c s IH]; cbn [includes]; intros H;
    apply orb_true_iff in H; destruct H as [H|H].
  - apply includes_prefix, (prefix_app _ "" after H).
  - discriminate.
  - apply includes_prefix, (prefix_app _ (String c s) after H).
  - cbn [append includes]. rewrite (IH H). apply orb_true_r.
Qed.

Lemma includes_app_l (before s pattern : string) :
  includes s pattern = true -> includes (before ++ s) pattern = true.
Proof.
  intros H. induction before as [|c before IH]; [exact H|].
  cbn [append includes]. rewrite IH. apply orb_true_r.
Qed.

Lemma someIncluded_context (patterns : list string) (before s after : string) :
  someIncluded patterns (toLowerCase s) = true ->
  someIncluded patterns (toLowerCase (before ++ s ++ after)) = true.
Proof.
  unfold someIncluded. rewrite !existsb_exists.
  intros (pattern & Hin & Hinc). exists pattern. split; [exact Hin|].
  rewrite !toLowerCase_app. apply includes_app_l, includes_app_r, Hinc.
Qed.

(** X24.  Wrapping never hides a rejection: when an error counts as a user
    rejection, so does every error whose message contains the message of
    the first, whatever text comes before and after it. *)
Theorem rejection_survives_wrapping :
  forall (inner outer : ErrorValue) (before after : string),
    messageOf outer = before ++ messageOf inner ++ after ->
    isUserRejectionError inner = true ->
    isUserRejectionError outer = true.
Proof.
  intros inner outer before after Hmsg. unfold isUserRejectionError.
  rewrite !isUserRejection_patterns, Hmsg. apply someIncluded_context.
Qed.

Lemma length_substring_le (n : nat) (s : string) :
  (String.length (String.substring 0 n s) <= n)%nat.
Proof.
  revert s. induction n as [|n IH]; intros [|c s]; simpl; try lia.
  specialize (IH s). lia.
Qed.

Lemma length_append (a b : string) :
  String.length (a ++ b) = (String.length a + String.length b)%nat.
Proof. induction a as [|c a IH]; [reflexivity|]. simpl. now rewrite IH. Qed.

Lemma cleanUp_bounds (originalMessage : string) :
  cleanUp originalMessage <> "" /\ (String.length (cleanUp originalMessage) <= 103)%nat.
Proof.
  unfold cleanUp.
  set (cleaned := removePrefix _ (removePrefix _ (removePrefix _ originalMessage))).
  assert (Hlen : (String.length (if (100 <? String.length cleaned)%nat
                                 then String.substring 0 100 cleaned ++ "..."
                                 else cleaned) <= 103)%nat).
  { destruct (Nat.ltb_spec 100 (String.length cleaned)) as [Hlong|Hshort]; [|lia].
    rewrite length_append. pose proof (length_substring_le 100 cleaned).
    change (String.length "...") with 3%nat. lia. }
  destruct (if (100 <? String.length cleaned)%nat
            then String.substring 0 100 cleaned ++ "..."
            else cleaned) as [|c rest].
  - split; [discriminate | simpl; lia].
  - split; [discriminate | exact Hlen].
Qed.

(** X25.  The message shown to the user is never empty, whatever the error
    is; for an error of type [unknown] it has at most 103 characters: the
    first 100 of the cleaned message and three dots. *)
Theorem getErrorMessage_bounds :
  forall error : ErrorValue,
    getErrorMessage error <> "" /\
    (type (parseTransactionError error) = unknown ->
     (String.length (getErrorMessage error) <= 103)%nat).
Proof.
  intros error. unfold getErrorMessage, parseTransactionError.
  repeat (match goal with
          | |- context [if ?c then _ else _] => destruct c
          end; cbn [type message];
          try (split; [discriminate | discriminate])).
  - split; [|discriminate].
    destruct (matchAfterKeyword "reason" _); [discriminate|].
    destruct (matchAfterKeyword "reverted" _); discriminate.
  - split; [apply cleanUp_bounds | intros _; apply cleanUp_bounds].
Qed.

End ErrorHandlingFacts.

(* ====================================================================== *)
(** * The further properties at concrete wallets *)
(* ====================================================================== *)

Module ScenariosMore.
Import Selection Ledger PrivacyWallet Demo.
Local Open Scope string_scope.

(** X1: a target of 0. *)
Lemma selectNotesForAmount_nothing_to_cover_witness :
  selectNotesForAmount [note 10 "0x01" false; note 40 "0x02" false] usdt 0 = ([], 0).
Proof.
  apply (SelectionMore.selectNotesForAmount_nothing_to_cover
           [note 10 "0x01" false; note 40 "0x02" false] usdt 0).
  lia.
Defined.

(** X2: notes of 10, 40 and 30 and a target of 60: the note of 40 alone is
    short of the target, and the note of 30 is the last one taken. *)
Lemma selectNotesForAmount_stops_when_covered_witness :
  let notes := [note 10 "0x01" false; note 40 "0x02" false; note 30 "0x04" false] in
  sumBy Note.amount [note 40 "0x02" false] < 60 /\
  snd (selectNotesForAmount notes usdt 60)
  = sumBy Note.amount [note 40 "0x02" false] + Note.amount (note 30 "0x04" false).
Proof.
  apply (SelectionMore.selectNotesForAmount_stops_when_covered
           [note 10 "0x01" false; note 40 "0x02" false; note 30 "0x04" false]
           usdt 60 [note 40 "0x02" false] (note 30 "0x04" false)).
  reflexivity.
Defined.

(** X4: two notes whose nullifiers differ by case only; the second one is
    not marked. *)
Lemma markNotesSpent_never_marks_shadowed_witness :
  nth_error (markAll ["0xAB"; "0xab"]
                     [note 40 "0xab" false; note 5 "0xAB" false]) 1
  = Some (note 5 "0xAB" false).
Proof.
  apply (LedgerMore.markNotesSpent_never_marks_shadowed
           ["0xAB"; "0xab"] [note 40 "0xab" false; note 5 "0xAB" false]
           1 0 (note 5 "0xAB" false) (note 40 "0xab" false)).
  - reflexivity.
  - reflexivity.
  - lia.
  - reflexivity.
Defined.

(** X10: a transfer of 7 out of notes of 10 and 3, then a sync. *)
Lemma balance_never_grows_without_deposit_witness :
  let w := wallet [note 10 "0x01" false; note 3 "0x02" false] 0 (Some service) in
  let world := node 100 [] (fun _ => false) ContractService.fetchThrew in
  let w' := runAll [(env world, Transfer usdt [pay 7]); (env world, Sync)] w in
  List.length (notes (state w')) = List.length (notes (state w)) /\
  getShieldedBalance (notes (state w')) <= getShieldedBalance (notes (state w)) /\
  unspentBalance (notes (state w')) usdt <= unspentBalance (notes (state w)) usdt.
Proof.
  apply (@WalletMore.balance_never_grows_without_deposit (list Hex) tree
           [(env (node 100 [] (fun _ => false) ContractService.fetchThrew),
             Transfer usdt [pay 7]);
            (env (node 100 [] (fun _ => false) ContractService.fetchThrew), Sync)]
           (wallet [note 10 "0x01" false; note 3 "0x02" false] 0 (Some service))
           usdt).
  - repeat constructor.
  - repeat constructor; simpl; lia.
Defined.


Lemma indexOf_from (c : Hex) (leaves : list Hex) :
  forall i, 0 <= i ->
            MerkleTree.indexOf c leaves i = -1 \/ i <= MerkleTree.indexOf c leaves i.
Proof.
  induction leaves as [|l leaves IH]; intros i Hi; simpl; [now left|].
  destruct (String.eqb l c); [right; lia|].
  destruct (IH (i + 1)) as [H|H]; [lia | now left | right; lia].
Qed.

Lemma indexOf_after_insert (c : Hex) (leaves : list Hex) :
  forall i, 0 <= i -> MerkleTree.indexOf c (leaves ++ [c]) i <> -1.
Proof.
  induction leaves as [|l leaves IH]; intros i Hi; simpl.
  - rewrite String.eqb_refl. lia.
  - destruct (String.eqb l c); [lia | apply IH; lia].
Qed.

Lemma indexOf_stays (c c' : Hex) (leaves : list Hex) :
  forall i, 0 <= i ->
            MerkleTree.indexOf c leaves i <> -1 ->
            MerkleTree.indexOf c (leaves ++ [c']) i <> -1.
Proof.
  induction leaves as [|l leaves IH]; intros i Hi; simpl; [congruence|].
  destruct (String.eqb l c); [lia | apply IH; lia].
Qed.

(** X15: the tree kept as the list of its leaves finds what was inserted;
    events for a leaf that is there and for a new one. *)
Lemma insertNewLeaves_idempotent_witness :
  let events := [ContractService.mkEvent "0xc1" "0x" 40 "0xf0";
                 ContractService.mkEvent "0xc2" "0x" 60 "0xf0"] in
  insertNewLeaves events (insertNewLeaves events ["0xc1"]) = insertNewLeaves events ["0xc1"].
Proof.
  apply (@WalletMore.insertNewLeaves_idempotent (list Hex) tree
           (fun tr c => indexOf_after_insert c tr 0 (Z.le_refl 0))
           (fun tr c c' => indexOf_stays c c' tr 0 (Z.le_refl 0))
           [ContractService.mkEvent "0xc1" "0x" 40 "0xf0";
            ContractService.mkEvent "0xc2" "0x" 60 "0xf0"]
           ["0xc1"]).
Defined.

(** X16: the first note is spent already; a node that fails on the query
    for it leads to the same sync as a node that answers everything. *)
Lemma syncWithChain_asks_about_unspent_only_witness :
  let w := wallet [note 10 "0x01" true; note 20 "0x02" false] 50 (Some service) in
  let chain := [log "0xc1" 40; log "0xc2" 60] in
  syncWithChain (env (node 100 chain (isOneOf ["0x02"]) ContractService.fetchThrew)) w
  = syncWithChain
      (env (flakyNode 0 100 chain (isOneOf ["0x02"]) ContractService.fetchThrew)) w.
Proof.
  apply (@WalletMore.syncWithChain_asks_about_unspent_only (list Hex) tree
           (env (node 100 [log "0xc1" 40; log "0xc2" 60] (isOneOf ["0x02"])
                      ContractService.fetchThrew))
           (env (flakyNode 0 100 [log "0xc1" 40; log "0xc2" 60] (isOneOf ["0x02"])
                           ContractService.fetchThrew))
           (wallet [note 10 "0x01" true; note 20 "0x02" false] 50 (Some service))).
  - split; reflexivity.
  - intros [|[|j]] n Hn Hspent; simpl in Hn.
    + injection Hn as <-. discriminate Hspent.
    + reflexivity.
    + destruct j; discriminate Hn.
Defined.

(** X17: notes with nullifiers 0x01, 0x02 and 0x03, of which the first and
    the third are used on chain. *)
Lemma syncWithChain_marks_used_notes_witness :
  let w := wallet [note 10 "0x01" false; note 20 "0x02" false; note 30 "0x03" false]
                  50 (Some service) in
  let world := node 100 [log "0xc1" 40; log "0xc2" 60] (isOneOf ["0x01"; "0x03"])
                    ContractService.fetchThrew in
  notes (state (fst (syncWithChain (env world) w)))
  = reconcile (isOneOf ["0x01"; "0x03"]) (notes (state w)).
Proof.
  apply (@WalletMore.syncWithChain_marks_used_notes (list Hex) tree
           (env (node 100 [log "0xc1" 40; log "0xc2" 60] (isOneOf ["0x01"; "0x03"])
                      ContractService.fetchThrew))
           (wallet [note 10 "0x01" false; note 20 "0x02" false; note 30 "0x03" false]
                   50 (Some service))
           (isOneOf ["0x01"; "0x03"])
           [ContractService.mkEvent "0xc2" "0x" 60 "0xf0"]).
  - discriminate.
  - reflexivity.
  - reflexivity.
  - intros position nullifier. reflexivity.
Defined.

(** X18: the same wallet and node, synced twice. *)
Lemma syncWithChain_twice_witness :
  let w := wallet [note 10 "0x01" false; note 20 "0x02" false; note 30 "0x03" false]
                  50 (Some service) in
  let e := env (node 100 [log "0xc1" 40; log "0xc2" 60] (isOneOf ["0x01"; "0x03"])
                     ContractService.fetchThrew) in
  syncWithChain e (fst (syncWithChain e w)) = syncWithChain e w.
Proof.
  apply (@WalletMore.syncWithChain_twice (list Hex) tree
           (env (node 100 [log "0xc1" 40; log "0xc2" 60] (isOneOf ["0x01"; "0x03"])
                      ContractService.fetchThrew))
           (wallet [note 10 "0x01" false; note 20 "0x02" false; note 30 "0x03" false]
                   50 (Some service))
           100 [log "0xc1" 40; log "0xc2" 60] (isOneOf ["0x01"; "0x03"])).
  - split; [reflexivity | intros fromBlock toBlock; reflexivity].
  - reflexivity.
  - intros position nullifier. reflexivity.
Defined.

(** X20: two bytes come back with thirty zero bytes before them. *)
Lemma bigIntToBytes_bytesToBigInt_witness :
  KeyDerivation.bigIntToBytes (KeyDerivation.bytesToBigInt [1; 2])
  = (repeat 0 30 ++ [1; 2])%list.
Proof.
  apply (KeyDerivationMore.bigIntToBytes_bytesToBigInt [1; 2]).
  - repeat constructor; unfold Bytes.isByte; lia.
  - simpl. lia.
Defined.

Lemma repeat_bytes (b : Z) (count : nat) :
  0 <= b < 256 -> Forall Bytes.isByte (repeat b count).
Proof.
  intros Hb. apply Forall_forall. intros z Hz. apply repeat_spec in Hz. now subst z.
Qed.

(** X21: the keys of the test, written and read back in the toy format. *)
Lemma deserializeKeys_serializeKeys_witness :
  KeyStorage.deserializeKeys DemoKeys.parse
    (KeyStorage.serializeKeys DemoKeys.stringify testKeys)
  = Returned (KeyStorage.mkParsedKeys
                (Some "0x742d35Cc6634C0532925a3b844Bc9e7595f0bEb7")
                (repeat 1 32) (repeat 2 33) (repeat 3 32) (repeat 4 33)).
Proof.
  apply (KeyStorageFacts.deserializeKeys_serializeKeys
           DemoKeys.stringify DemoKeys.parse testKeys).
  - apply repeat_bytes. lia.
  - apply repeat_bytes. lia.
  - apply repeat_bytes. lia.
  - apply repeat_bytes. lia.
  - reflexivity.
Defined.

(** X22: key generation run with the stand-ins for the hash and the curve
    and a signer that always answers 0x1234: both scalars are 519. *)
Lemma generateKeysFromWallet_keys_witness :
  let keys := KeyDerivation.mkWalletKeys "0x742d35Cc6634C0532925a3b844Bc9e7595f0bEb7"
                (KeyDerivation.bigIntToBytes 519) (KeyDerivation.bigIntToBytes 519)
                (KeyDerivation.bigIntToBytes 519) (KeyDerivation.bigIntToBytes 519) in
  (exists others,
      KeyGeneration.getAddresses DemoKeys.walletClient
      = Ok (KeyDerivation.address keys :: others)) /\
  exists viewScalar spendScalar,
    0 < viewScalar < KeyDerivation.n /\ 0 < spendScalar < KeyDerivation.n /\
    KeyDerivation.viewPrivateKey keys = KeyDerivation.bigIntToBytes viewScalar /\
    KeyDerivation.viewPublicKey keys = KeyDerivation.bigIntToBytes viewScalar /\
    KeyDerivation.spendPrivateKey keys = KeyDerivation.bigIntToBytes spendScalar /\
    KeyDerivation.spendPublicKey keys = KeyDerivation.bigIntToBytes spendScalar /\
    List.length (KeyDerivation.viewPrivateKey keys) = 32%nat /\
    List.length (KeyDerivation.spendPrivateKey keys) = 32%nat.
Proof.
  intros keys.
  apply (proj1 (KeyGenerationFacts.generateKeysFromWallet_keys
                  toyHash toyPublicKey Z (fun k => k) KeyDerivation.bigIntToBytes
                  Scenarios.toyHash_bytes (fun k _ => eq_refl)
                  DemoKeys.walletClient "1700000000000") keys).
  reflexivity.
Defined.

(** X24: a rejection reported inside a longer message of the client
    library. *)
Lemma rejection_survives_wrapping_witness :
  ErrorHandling.isUserRejectionError
    (ErrorHandling.ErrorInstance
       "TransactionExecutionError: User rejected the request. Version: viem@2.0.0")
  = true.
Proof.
  apply (ErrorHandlingFacts.rejection_survives_wrapping
           (ErrorHandling.StringValue "User rejected the request")
           (ErrorHandling.ErrorInstance
              "TransactionExecutionError: User rejected the request. Version: viem@2.0.0")
           "TransactionExecutionError: " ". Version: viem@2.0.0").
  - reflexivity.
  - reflexivity.
Defined.

End ScenariosMore.
